(** * TMROctree: a shallow embedding of the single-tree octree algorithms

    The development follows [src/TMROctree.c]: the level-uniform
    constructor, [refine], [coarsen], [findEnclosing],
    [findEnclosingRange], [createNodes] and the reference implementation of
    [createInterpolation].  The octant algebra, the octant array, hash and
    queue live in a header that is not part of the sources at hand; they are
    modelled from the specification and marked as such. *)

From Stdlib Require Import ZArith List Lia Bool Arith Sorted.
From Stdlib Require QArith.
Import ListNotations.
Local Open Scope Z_scope.

(** ** Octants *)

(** An octant is the tuple [(x, y, z, level, tag)]; every field is an
    [int32_t] of the source and is carried as a [Z].  Signed overflow has no
    defined result in the source language; on octants of the domain
    [[0, HMAX)^3] with [HMAX = 2^30] every sum and shift below fits in 32
    bits, so the integers are not wrapped. *)
Record TMROctant : Type := mkOctant
  { x : Z; y : Z; z : Z; level : Z; tag : Z }.

(** The key of an octant: two octants are the same octant when they agree on
    [(x, y, z, level)]; the tag is a payload. *)
Definition key (o : TMROctant) : Z * Z * Z * Z := (x o, y o, z o, level o).

Definition set_level (o : TMROctant) (l : Z) : TMROctant :=
  mkOctant (x o) (y o) (z o) l (tag o).

Definition set_xyz (o : TMROctant) (a b c : Z) : TMROctant :=
  mkOctant a b c (level o) (tag o).

(** Bit interleaving of the [n] low bits of three coordinates: bit [i] of the
    first coordinate lands on bit [3i], of the second on [3i+1], of the third
    on [3i+2]. *)
Fixpoint interleave (n : nat) (a b c : Z) : Z :=
  match n with
  | O => 0
  | S m => a mod 2 + 2 * (b mod 2) + 4 * (c mod 2)
           + 8 * interleave m (a / 2) (b / 2) (c / 2)
  end.

(** [elems[i]]: [None] when the index is outside the array. *)
Definition read (A : Type) (elems : list A) (i : Z) : option A :=
  if (0 <=? i) && (i <? Z.of_nat (length elems))
  then nth_error elems (Z.to_nat i) else None.

Arguments read {A} elems i.

Section Octree.

(** [TMR_MAX_LEVEL] is a compile-time constant of the missing header; the
    development is parametric in it. *)
Variable TMR_MAX_LEVEL : Z.
Hypothesis LMAX_nonneg : 0 <= TMR_MAX_LEVEL.

(** [1 << (TMR_MAX_LEVEL - l)], the edge length of an octant of level [l]. *)
Definition edge (l : Z) : Z := Z.shiftl 1 (TMR_MAX_LEVEL - l).

Definition hmax : Z := Z.shiftl 1 TMR_MAX_LEVEL.

(** Modelled from the spec: the Morton key of an octant (the header with
    [TMROctant::compare] is missing).  The bits of [x], [y], [z] are
    interleaved, [x] lowest; coordinates of octants and of nodes lie in
    [[0, 2 * HMAX)], so [TMR_MAX_LEVEL + 1] bits of each are taken. *)
Definition morton (o : TMROctant) : Z :=
  interleave (S (Z.to_nat TMR_MAX_LEVEL)) (x o) (y o) (z o).

(** Modelled from the spec: [TMROctant::compare], the total Morton order on
    [(x, y, z)] with the level as tie-breaker, shallower first (the contract
    given for the operation; octants with different origins are ordered by
    their Morton keys whatever the tie-breaker).  The result is negative,
    zero or positive. *)
Definition compare (a b : TMROctant) : Z :=
  if morton a <? morton b then -1
  else if morton b <? morton a then 1
  else level a - level b.

(** Modelled from the spec: [TMROctant::childId],
    [((x & h) ? 1 : 0) | ((y & h) ? 2 : 0) | ((z & h) ? 4 : 0)]
    with [h] the octant's own edge length. *)
Definition childId (o : TMROctant) : Z :=
  let h := edge (level o) in
  Z.lor (Z.lor (if Z.land (x o) h =? 0 then 0 else 1)
               (if Z.land (y o) h =? 0 then 0 else 2))
        (if Z.land (z o) h =? 0 then 0 else 4).

(** Modelled from the spec: [TMROctant::getSibling], the [k]-th octant of the
    family of [o] (same parent, same level); an octant of level 0 is returned
    unchanged.  The tag of the result is not specified; the model copies
    it. *)
Definition getSibling (k : Z) (o : TMROctant) : TMROctant :=
  if level o <=? 0 then o
  else
    let h := edge (level o) in
    let xr := if Z.land (x o) h =? 0 then x o else x o - h in
    let yr := if Z.land (y o) h =? 0 then y o else y o - h in
    let zr := if Z.land (z o) h =? 0 then z o else z o - h in
    set_xyz o (if Z.land k 1 =? 0 then xr else xr + h)
              (if Z.land k 2 =? 0 then yr else yr + h)
              (if Z.land k 4 =? 0 then zr else zr + h).

(** Modelled from the spec: [TMROctant::parent], the coordinates masked to
    the parent's [2h] grid and the level decreased by one. *)
Definition parent (o : TMROctant) : TMROctant :=
  let m := 2 * edge (level o) - 1 in
  mkOctant (Z.ldiff (x o) m) (Z.ldiff (y o) m) (Z.ldiff (z o) m)
           (level o - 1) (tag o).

(** ** Octant arrays, hashes and queues *)

(** Modelled from the spec: Morton sort of an octant array (insertion into a
    sorted list; the order of entries that compare equal is not
    specified). *)
Fixpoint insert (a : TMROctant) (l : list TMROctant) : list TMROctant :=
  match l with
  | [] => [a]
  | b :: t => if compare a b <=? 0 then a :: l else b :: insert a t
  end.

Definition sort (l : list TMROctant) : list TMROctant :=
  fold_right insert [] l.

(** Modelled from the spec: [uniquify] collapses every run of entries that
    compare equal into one representative. *)
Fixpoint uniquify (l : list TMROctant) : list TMROctant :=
  match l with
  | [] => []
  | a :: t =>
      match t with
      | [] => [a]
      | b :: _ => if compare a b =? 0 then uniquify t else a :: uniquify t
      end
  end.

(** Modelled from the spec: [TMROctantArray::sort()].  The class is missing
    from the sources; every call site is described by the spec as a
    sort-unique (and commented in the source as "uniquely sort it"), so the
    method is the Morton sort followed by [uniquify]. *)
Definition TMROctantArray_sort (l : list TMROctant) : list TMROctant :=
  uniquify (sort l).

Definition key_eqb (a b : TMROctant) : bool :=
  (x a =? x b) && (y a =? y b) && (z a =? z b) && (level a =? level b).

(** Modelled from the spec: [TMROctantHash], append-only with deduplication
    on the key [(x, y, z, level)]. *)
Definition addOctant (q : TMROctant) (hash : list TMROctant) : list TMROctant :=
  if existsb (key_eqb q) hash then hash else hash ++ [q].

(** Modelled from the spec: [TMROctantHash::toArray()] yields a fresh sorted
    unique array and clears the hash; the pair is (array, hash afterwards). *)
Definition hash_toArray (hash : list TMROctant)
  : list TMROctant * list TMROctant :=
  (TMROctantArray_sort hash, []).

(** Modelled from the spec: [TMROctantQueue], a FIFO; [push] appends and
    [toArray] lists the entries in the order they were pushed. *)
Definition queue_push (q : TMROctant) (queue : list TMROctant) : list TMROctant :=
  queue ++ [q].

Definition queue_toArray (queue : list TMROctant) : list TMROctant := queue.

(** ** The octree *)

(** The members of [TMROctree] that the functions below touch: the element
    array, the optional node array and the order. *)
Record TMROctree : Type := mkOctree
  { elements : list TMROctant;
    nodes : option (list TMROctant);
    order : Z }.

(** [TMROctree::TMROctree( TMROctantArray *_elements )] *)
Definition TMROctree_of_array (elems : list TMROctant) : TMROctree :=
  mkOctree (TMROctantArray_sort elems) None 2.


(** *** [TMROctree::TMROctree( int refine_level )] *)

(** The entry check of the level-uniform constructor. *)
Definition check_level (refine_level : Z) : Z :=
  if refine_level <? 0 then 0
  else if refine_level - 1 >? TMR_MAX_LEVEL then TMR_MAX_LEVEL - 1
  else refine_level.

(** [for ( x = 0; x < hmax; x += h )]: the values the loop variable takes.
    [None] when the fuel runs out before the loop condition fails. *)
Fixpoint axis_loop (fuel : nat) (h c : Z) : option (list Z) :=
  match fuel with
  | O => None
  | S f =>
      if c <? hmax then option_map (cons c) (axis_loop f h (c + h))
      else Some []
  end.

(** The octants are created with [z] outermost and [x] innermost, then the
    array is sorted; the array holds one octant per iteration ([nocts] of
    the source is that number when [nx*nx*nx] fits an [int]).  A shift by a
    negative count has no defined result: the constructor yields [None]
    there. *)
Definition TMROctree_uniform (refine_level : Z) : option TMROctree :=
  let refine_level := check_level refine_level in
  if TMR_MAX_LEVEL - refine_level <? 0 then None
  else
    let h := edge refine_level in
    let nx := Z.shiftl 1 refine_level in
    match axis_loop (S (Z.to_nat nx)) h 0 with
    | None => None
    | Some cs =>
        let array :=
          flat_map (fun c =>
            flat_map (fun b =>
              map (fun a => mkOctant a b c refine_level 0) cs) cs) cs in
        Some (mkOctree (TMROctantArray_sort array) None 2)
    end.

(** *** [TMROctree::refine] *)

(** What the first loop adds to the hash for the element [o] whose
    refinement entry is [r]. *)
Definition refine_seed (min_level max_level : Z) (o : TMROctant) (r : Z)
  : TMROctant :=
  if r =? 0 then getSibling 0 o
  else if r <? 0 then
    if level o >? min_level
    then let q := getSibling 0 o in set_level q (level q - 1)
    else o
  else
    if level o <? max_level then set_level o (level o + 1) else o.

(** The first loop; [refinement[i]] is read along with [array[i]] (an entry
    missing from a too short [refinement] reads as 0). *)
Fixpoint refine_seed_loop (min_level max_level : Z) (array : list TMROctant)
  (refinement : list Z) (hash : list TMROctant) : list TMROctant :=
  match array with
  | [] => hash
  | o :: rest =>
      refine_seed_loop min_level max_level rest (tl refinement)
        (addOctant (refine_seed min_level max_level o (hd 0 refinement)) hash)
  end.

Definition in_domain (q : TMROctant) : bool :=
  ((0 <=? x q) && (x q <? hmax)) &&
  ((0 <=? y q) && (y q <? hmax)) &&
  ((0 <=? z q) && (z q <? hmax)).

(** The inner loop [for ( int j = 0; j < 8; j++ )] of the second pass. *)
Definition add_siblings (o : TMROctant) (hash : list TMROctant)
  : list TMROctant :=
  fold_left (fun hash j =>
               let q := getSibling j o in
               if in_domain q then addOctant q hash else hash)
            [0; 1; 2; 3; 4; 5; 6; 7] hash.

Definition refine_sibling_loop (array hash : list TMROctant)
  : list TMROctant :=
  fold_left (fun hash o => add_siblings o hash) array hash.

Definition refine (tree : TMROctree) (refinement : list Z)
  (min_level max_level : Z) : TMROctree :=
  let min_level := if min_level <? 0 then 0 else min_level in
  let max_level :=
    if max_level >? TMR_MAX_LEVEL then TMR_MAX_LEVEL else max_level in
  let min_level := if min_level >? max_level then max_level else min_level in
  let hash :=
    refine_seed_loop min_level max_level (elements tree) refinement [] in
  let (child0_elems, hash) := hash_toArray hash in
  let hash := refine_sibling_loop child0_elems hash in
  let (elems, _) := hash_toArray hash in
  mkOctree (TMROctantArray_sort elems) None (order tree).

(** *** [TMROctree::coarsen] *)

(** The scan over [array[i..]]; [skip] counts the entries still to be
    stepped over after [i += offset], [queue] is the queue so far.  The
    result is the queue at the end of the loop. *)
Fixpoint coarsen_scan (skip : nat) (array queue : list TMROctant)
  : list TMROctant :=
  match array with
  | [] => queue
  | a :: rest =>
      match skip with
      | S k => coarsen_scan k rest queue
      | O =>
          let last := nth 7 array a in
          if (level a >? 0) && (childId a =? 0)
             && (7 <? Z.of_nat (length array))
             && (childId last =? 7)
             && (compare a (getSibling 0 last) =? 0)
          then coarsen_scan 7 rest (queue_push (parent a) queue)
          else coarsen_scan 0 rest (queue_push a queue)
      end
  end.

Definition coarsen (tree : TMROctree) : TMROctree :=
  TMROctree_of_array (queue_toArray (coarsen_scan 0 (elements tree) [])).

(** *** [TMROctree::findEnclosing] *)

(** The outcome of a search: a pointer to [elems[i]], the null pointer, a
    read of [elems[i]] with [i] outside the array, or a loop that is still
    running when the fuel is gone. *)
Inductive search_result : Type :=
| Found (i : Z)
| Null
| OutOfBounds (i : Z)
| Diverged.


(** The test "[e] contains the provided octant" that the function repeats
    three times. *)
Definition encloses (e oct : TMROctant) : bool :=
  let hoct := edge (level oct) in
  let h := edge (level e) in
  ((x e <=? x oct) && (x oct + hoct <=? x e + h)) &&
  ((y e <=? y oct) && (y oct + hoct <=? y e + h)) &&
  ((z e <=? z oct) && (z oct + hoct <=? z e + h)).

(** The code after the [while] loop. *)
Definition findEnclosing_exit (elems : list TMROctant) (oct : TMROctant)
  (low mid : Z) : search_result :=
  match read elems mid with
  | None => OutOfBounds mid
  | Some e =>
      if encloses e oct then Found mid
      else match read elems low with
           | None => OutOfBounds low
           | Some e => if encloses e oct then Found low else Null
           end
  end.

(** [while (high != mid)]; the integer divisions truncate. *)
Fixpoint findEnclosing_loop (fuel : nat) (elems : list TMROctant)
  (oct : TMROctant) (low high mid : Z) : search_result :=
  if high =? mid then findEnclosing_exit elems oct low mid
  else
    match fuel with
    | O => Diverged
    | S f =>
        match read elems mid with
        | None => OutOfBounds mid
        | Some e =>
            if encloses e oct then Found mid
            else
              let low' := if compare oct e <? 0 then low else mid + 1 in
              let high' := if compare oct e <? 0 then mid - 1 else high in
              findEnclosing_loop f elems oct low' high'
                                 (high' - Z.quot (high' - low') 2)
        end
    end.

Definition findEnclosing (elems : list TMROctant) (oct : TMROctant)
  : search_result :=
  let size := Z.of_nat (length elems) in
  let low := 0 in
  let high := size - 1 in
  let mid := low + Z.quot (high - low) 2 in
  findEnclosing_loop (S (length elems)) elems oct low high mid.

(** *** [TMROctree::findEnclosingRange] *)

(** [num_elements] is the current element count.  The result is
    [(low, high)]; [None] when a search does not return a pointer or null. *)
Definition findEnclosingRange (elems : list TMROctant) (oct : TMROctant)
  : option (Z * Z) :=
  let num_elements := Z.of_nat (length elems) in
  let h := edge (level oct) in
  let p := set_level oct TMR_MAX_LEVEL in
  match findEnclosing elems p with
  | OutOfBounds _ | Diverged => None
  | elow =>
      let low := match elow with
                 | Found i => tag (nth (Z.to_nat i) elems oct)
                 | _ => 0
                 end in
      let p := set_xyz p (x p + (h - 1)) (y p + (h - 1)) (z p + (h - 1)) in
      match findEnclosing elems p with
      | OutOfBounds _ | Diverged => None
      | Found i => Some (low, tag (nth (Z.to_nat i) elems oct) + 1)
      | Null => Some (low, num_elements)
      end
  end.

(** *** [TMROctree::createNodes] *)

Definition clamp_order (_order : Z) : Z :=
  let order := _order in
  let order := if order <? 2 then 2 else order in
  if order >? 3 then 3 else order.

(** The three nested loops [kk], [jj], [ii] over [0 .. n-1]. *)
Definition node_block (e : TMROctant) (h : Z) (n : list Z) : list TMROctant :=
  flat_map (fun kk =>
    flat_map (fun jj =>
      map (fun ii => mkOctant (x e + ii * h) (y e + jj * h) (z e + kk * h) 0 1)
          n) n) n.

(** [const int32_t h = 1 << count]: a shift by a negative count has no
    defined result. *)
Definition node_step (count : Z) : option Z :=
  if count <? 0 then None else Some (Z.shiftl 1 count).

(** The body of the loop over the elements: the candidates of the element
    [e], with [h = 1 << (TMR_MAX_LEVEL - level)] for order 2 and
    [h = 1 << (TMR_MAX_LEVEL - level - 1)] for order 3; [None] when the
    shift is not defined. *)
Definition element_nodes (order : Z) (e : TMROctant)
  : option (list TMROctant) :=
  if order =? 2 then
    option_map (fun h => node_block e h [0; 1])
               (node_step (TMR_MAX_LEVEL - level e))
  else if order =? 3 then
    option_map (fun h => node_block e h [0; 1; 2])
               (node_step (TMR_MAX_LEVEL - level e - 1))
  else Some [].

(** The loop over the elements fills [all_nodes] element after element. *)
Fixpoint all_element_nodes (order : Z) (array : list TMROctant)
  : option (list TMROctant) :=
  match array with
  | [] => Some []
  | e :: rest =>
      match element_nodes order e with
      | None => None
      | Some block => option_map (app block) (all_element_nodes order rest)
      end
  end.

(** [None] when the step of some element is not defined. *)
Definition createNodes (tree : TMROctree) (_order : Z) : option TMROctree :=
  let order := clamp_order _order in
  match all_element_nodes order (elements tree) with
  | None => None
  | Some all_nodes =>
      Some (mkOctree (elements tree) (Some (TMROctantArray_sort all_nodes))
                     order)
  end.


(** *** [TMROctree::createInterpolation] (reference implementation) *)

(** The weights are [double]s.  The routine only copies them, multiplies
    them by the literals [0.5], [0.25], [0.125] and stores the literal
    [1.0]; the type, the product and the four literals are kept abstract. *)
Section Interpolation.

Variable double : Type.
Variable dmul : double -> double -> double.
Variables d1_0 d0_5 d0_25 d0_125 : double.

Record TMRIndexWeight : Type := mkIndexWeight
  { index : Z; weight : double }.

(** Modelled from the spec: [TMROctantArray::contains(q, use_nodes)] returns
    the stored octant equal to [q], compared by [(x, y, z)] only when
    [use_nodes] is set, and the null pointer when there is none. *)
Definition TMROctantArray_contains (array : list TMROctant) (q : TMROctant)
  (use_nodes : bool) : option TMROctant :=
  find (fun t => if use_nodes
                 then (x t =? x q) && (y t =? y q) && (z t =? z q)
                 else key_eqb t q) array.

(** The dependent-node table of the coarse tree. *)
Variable cdep_ptr : list Z.
Variable cdep_conn : list Z.
Variable cdep_weights : list double.

(** [for ( int jp = cdep_ptr[node]; jp < cdep_ptr[node+1]; jp++ )], with [n]
    iterations left; [f] is what is done to [cdep_weights[jp]]. *)
Fixpoint dep_loop (n : nat) (jp : Z) (f : double -> double)
  : option (list TMRIndexWeight) :=
  match n with
  | O => Some []
  | S m =>
      match read cdep_conn jp, read cdep_weights jp with
      | Some c, Some v =>
          option_map (cons (mkIndexWeight c (f v))) (dep_loop m (jp + 1) f)
      | _, _ => None
      end
  end.

(** The weights a coarse node [t] contributes: itself with weight [w] when it
    is independent, its parents from the dependent table otherwise. *)
Definition node_weights (t : TMROctant) (w : double) (f : double -> double)
  : option (list TMRIndexWeight) :=
  if tag t >=? 0 then Some [mkIndexWeight (tag t) w]
  else
    let node := - tag t - 1 in
    match read cdep_ptr node, read cdep_ptr (node + 1) with
    | Some lo, Some hi => dep_loop (Z.to_nat (hi - lo)) lo f
    | _, _ => None
    end.

(** [t = coarse->nodes->contains(&p, use_nodes)] followed by the use of
    [t->tag]; [None] when [t] is null. *)
Definition corner_weights (coarse_nodes : list TMROctant) (p : TMROctant)
  (w : double) : option (list TMRIndexWeight) :=
  match TMROctantArray_contains coarse_nodes p true with
  | None => None
  | Some t => node_weights t w (dmul w)
  end.

(** The entries are appended to [weights] in the order of the calls. *)
Fixpoint gather (coarse_nodes : list TMROctant) (ps : list TMROctant)
  (w : double) : option (list TMRIndexWeight) :=
  match ps with
  | [] => Some []
  | p :: rest =>
      match corner_weights coarse_nodes p w with
      | None => None
      | Some l => option_map (app l) (gather coarse_nodes rest w)
      end
  end.

(** The body of the loop over the fine nodes for a node [fine_i] with
    [fine_i.tag >= 0], up to the call of [uniqueSort]: the content of
    [weights[0 .. nweights)]. *)
Definition interp_weights (coarse_nodes : list TMROctant)
  (fine_i : TMROctant) : option (list TMRIndexWeight) :=
  match TMROctantArray_contains coarse_nodes fine_i true with
  | Some t => node_weights t d1_0 (fun v => v)
  | None =>
      let id := childId fine_i in
      let h := edge (level fine_i) in
      if (id =? 1) || (id =? 2) || (id =? 4) then
        let n := getSibling 0 fine_i in
        let n' :=
          if id =? 1 then mkOctant (x n + 2 * h) (y n) (z n) (level n) (tag n)
          else if id =? 2
               then mkOctant (x n) (y n + 2 * h) (z n) (level n) (tag n)
          else if id =? 4
               then mkOctant (x n) (y n) (z n + 2 * h) (level n) (tag n)
          else n in
        gather coarse_nodes [n; n'] d0_5
      else if (id =? 3) || (id =? 5) || (id =? 6) then
        let n := getSibling 0 fine_i in
        let ie := if id =? 3 then (1, 0, 0)
                  else if id =? 5 then (1, 0, 0)
                  else if id =? 6 then (0, 1, 0) else (0, 0, 0) in
        let je := if id =? 3 then (0, 1, 0)
                  else if id =? 5 then (0, 0, 1)
                  else if id =? 6 then (0, 0, 1) else (0, 0, 0) in
        let '(ie0, ie1, ie2) := ie in
        let '(je0, je1, je2) := je in
        gather coarse_nodes
          (flat_map (fun jj =>
             map (fun ii =>
                    mkOctant (x n + 2 * h * (ii * ie0 + jj * je0))
                             (y n + 2 * h * (ii * ie1 + jj * je1))
                             (z n + 2 * h * (ii * ie2 + jj * je2))
                             (level n) (tag n))
                 [0; 1]) [0; 1])
          d0_25
      else if id =? 7 then
        let n := getSibling 0 fine_i in
        gather coarse_nodes
          (flat_map (fun kk =>
             flat_map (fun jj =>
               map (fun ii =>
                      mkOctant (x n + 2 * h * ii) (y n + 2 * h * jj)
                               (z n + 2 * h * kk) (level n) (tag n))
                   [0; 1]) [0; 1]) [0; 1])
          d0_125
      else Some []
  end.

End Interpolation.

Arguments mkIndexWeight {double} index weight.
Arguments index {double} t.
Arguments weight {double} t.
Arguments dep_loop {double} cdep_conn cdep_weights n jp f.
Arguments node_weights {double} cdep_ptr cdep_conn cdep_weights t w f.
Arguments corner_weights {double} dmul cdep_ptr cdep_conn cdep_weights
  coarse_nodes p w.
Arguments gather {double} dmul cdep_ptr cdep_conn cdep_weights
  coarse_nodes ps w.
Arguments interp_weights {double} dmul d1_0 d0_5 d0_25 d0_125
  cdep_ptr cdep_conn cdep_weights coarse_nodes fine_i.

(** *** The row of [createInterpolation] *)

Section InterpolationRow.

Variable double : Type.
Variable dadd : double -> double -> double.
Variable dmul : double -> double -> double.
Variables d1_0 d0_5 d0_25 d0_125 : double.
Variable cdep_ptr : list Z.
Variable cdep_conn : list Z.
Variable cdep_weights : list double.

(** Modelled from the spec: [TMRIndexWeight::uniqueSort] sorts the pairs by
    index and coalesces the pairs of equal index, summing their weights
    (insertion into a list sorted by index, then one pass that merges
    neighbours). *)
Fixpoint index_insert (e : TMRIndexWeight double)
  (l : list (TMRIndexWeight double)) : list (TMRIndexWeight double) :=
  match l with
  | [] => [e]
  | b :: t => if index e <=? index b then e :: l else b :: index_insert e t
  end.

Definition index_sort (l : list (TMRIndexWeight double))
  : list (TMRIndexWeight double) :=
  fold_right index_insert [] l.

Fixpoint coalesce (l : list (TMRIndexWeight double))
  : list (TMRIndexWeight double) :=
  match l with
  | [] => []
  | a :: t =>
      match coalesce t with
      | [] => [a]
      | b :: t' =>
          if index a =? index b
          then mkIndexWeight (index a) (dadd (weight a) (weight b)) :: t'
          else a :: b :: t'
      end
  end.

Definition uniqueSort (l : list (TMRIndexWeight double))
  : list (TMRIndexWeight double) :=
  coalesce (index_sort l).

(** The row of a fine node [fine_i] with [fine_i.tag >= 0]: the gathered
    weights after [nweights = TMRIndexWeight::uniqueSort(weights, nweights)],
    which the loop then copies to [interp_conn] and [interp_weights]. *)
Definition interp_row (coarse_nodes : list TMROctant) (fine_i : TMROctant)
  : option (list (TMRIndexWeight double)) :=
  option_map uniqueSort
    (interp_weights dmul d1_0 d0_5 d0_25 d0_125 cdep_ptr cdep_conn
                    cdep_weights coarse_nodes fine_i).

End InterpolationRow.

Arguments index_insert {double} e l.
Arguments index_sort {double} l.
Arguments coalesce {double} dadd l.
Arguments uniqueSort {double} dadd l.
Arguments interp_row {double} dadd dmul d1_0 d0_5 d0_25 d0_125
  cdep_ptr cdep_conn cdep_weights coarse_nodes fine_i.

(** *** [TMROctree::TMROctree( int nrand, int min_level, int max_level )] *)

(** [rand()] is modelled by the values it returns: [rand n] is the result
    of call number [n].  Every iteration of the loop makes four calls; [%]
    truncates. *)
Fixpoint random_octants (rand : nat -> Z) (call nrand : nat)
  (min_level max_level : Z) : list TMROctant :=
  match nrand with
  | O => []
  | S n =>
      let level :=
        min_level + Z.rem (rand call) (max_level - min_level + 1) in
      let h := edge level in
      let a := h * Z.rem (rand (call + 1)%nat) (Z.shiftl 1 level) in
      let b := h * Z.rem (rand (call + 2)%nat) (Z.shiftl 1 level) in
      let c := h * Z.rem (rand (call + 3)%nat) (Z.shiftl 1 level) in
      mkOctant a b c level 0
        :: random_octants rand (call + 4) n min_level max_level
  end.

Definition TMROctree_random (rand : nat -> Z) (nrand min_level max_level : Z)
  : TMROctree :=
  let array := random_octants rand 0 (Z.to_nat nrand) min_level max_level in
  mkOctree (TMROctantArray_sort array) None 2.

(** *** The element-to-node table of [examples/parallel/block_parallel.c] *)

(** Modelled from the spec: the position [t - array] of the octant that
    [TMROctantArray::contains(q, use_nodes = 1)] returns, the first entry
    with the coordinates of [q]; [None] for the null pointer. *)
Fixpoint TMROctantArray_position (array : list TMROctant) (q : TMROctant)
  : option Z :=
  match array with
  | [] => None
  | t :: rest =>
      if (x t =? x q) && (y t =? y q) && (z t =? z q) then Some 0
      else option_map Z.succ (TMROctantArray_position rest q)
  end.

(** The loops [kk], [jj], [ii] over the corners of the element [e]:
    [index[ii + 2*jj + 4*kk] = (t - node_array) + 1].  [None] when a corner
    is not found and the null pointer is subtracted. *)
Definition element_node_indices (node_array : list TMROctant) (e : TMROctant)
  : option (list Z) :=
  let h := edge (level e) in
  fold_right
    (fun oct acc =>
       match TMROctantArray_position node_array oct, acc with
       | Some i, Some l => Some (i + 1 :: l)
       | _, _ => None
       end)
    (Some [])
    (flat_map (fun kk =>
       flat_map (fun jj =>
         map (fun ii => mkOctant (x e + ii * h) (y e + jj * h)
                                 (z e + kk * h) 0 0)
             [0; 1]) [0; 1]) [0; 1]).

(** ** Vocabulary of the statements *)

(** The octant invariants: the level is in [[0, TMR_MAX_LEVEL]], the
    coordinates are multiples of the edge length and the cube lies in
    [[0, HMAX)^3]. *)
Definition valid (o : TMROctant) : bool :=
  let h := edge (level o) in
  ((0 <=? level o) && (level o <=? TMR_MAX_LEVEL)) &&
  ((0 <=? x o) && (x o + h <=? hmax) && (x o mod h =? 0)) &&
  ((0 <=? y o) && (y o + h <=? hmax) && (y o mod h =? 0)) &&
  ((0 <=? z o) && (z o + h <=? hmax) && (z o mod h =? 0)).

(** Sorted in Morton order and free of duplicates: every entry compares
    strictly below its successor. *)
Fixpoint sorted (l : list TMROctant) : bool :=
  match l with
  | [] => true
  | a :: t =>
      match t with
      | [] => true
      | b :: _ => (compare a b <? 0) && sorted t
      end
  end.

(** A leaf set: no cube of the array contains the cube of another entry. *)
Definition leaves (l : list TMROctant) : bool :=
  forallb (fun a => forallb (fun b => key_eqb a b || negb (encloses a b)) l) l.

(** The cubes of the array cover the domain [[0, HMAX)^3]. *)
Definition covers (l : list TMROctant) : Prop :=
  forall a b c, 0 <= a < hmax -> 0 <= b < hmax -> 0 <= c < hmax ->
    exists e, In e l /\
      x e <= a < x e + edge (level e) /\
      y e <= b < y e + edge (level e) /\
      z e <= c < z e + edge (level e).

(** The cubes of [e] and [o] intersect. *)
Definition intersects (e o : TMROctant) : bool :=
  let he := edge (level e) in
  let ho := edge (level o) in
  ((x e <? x o + ho) && (x o <? x e + he)) &&
  ((y e <? y o + ho) && (y o <? y e + he)) &&
  ((z e <? z o + ho) && (z o <? z e + he)).

(** Every element is tagged with its index in the array. *)
Definition tagged_by_index (l : list TMROctant) : Prop :=
  forall i, (i < length l)%nat -> tag (nth i l (mkOctant 0 0 0 0 0)) = Z.of_nat i.

(** With every entry the array holds the siblings of the entry that lie in
    the domain. *)
Definition family_closed (l : list TMROctant) : bool :=
  forallb (fun a =>
    forallb (fun j => let q := getSibling j a in
                      negb (in_domain q) || existsb (key_eqb q) l)
            [0; 1; 2; 3; 4; 5; 6; 7]) l.

(** The eight entries are the children 0..7 of one parent. *)
Definition is_family (l : list TMROctant) : bool :=
  match l with
  | c0 :: _ =>
      (level c0 >? 0) && (Z.of_nat (length l) =? 8) &&
      forallb (fun j => key_eqb (nth (Z.to_nat j) l c0) (getSibling j c0))
              [0; 1; 2; 3; 4; 5; 6; 7] &&
      (childId c0 =? 0)
  | [] => false
  end.

(** The corner of the coarse cell at [n0] selected by the bits of [m], the
    coarse cell having edge [2h]. *)
Definition corner (n0 : TMROctant) (h m : Z) : TMROctant :=
  mkOctant (x n0 + 2 * h * (if Z.testbit m 0 then 1 else 0))
           (y n0 + 2 * h * (if Z.testbit m 1 then 1 else 0))
           (z n0 + 2 * h * (if Z.testbit m 2 then 1 else 0))
           (level n0) (tag n0).

(** The masks [0 .. 7] whose bits are among those of [id], in increasing
    order. *)
Definition submasks (id : Z) : list Z :=
  filter (fun m => Z.land m id =? m) [0; 1; 2; 3; 4; 5; 6; 7].

(** The pair an octant is ordered by, and the order on such pairs. *)
Definition okey (o : TMROctant) : Z * Z := (morton o, level o).

Definition lex_lt (p q : Z * Z) : Prop :=
  fst p < fst q \/ (fst p = fst q /\ snd p < snd q).

Definition olt (a b : TMROctant) : Prop := lex_lt (okey a) (okey b).

Definition ole (a b : TMROctant) : Prop := olt a b \/ okey a = okey b.

(** The number of Morton keys that fall into an octant of level [l]. *)
Definition span (l : Z) : Z := 8 ^ (TMR_MAX_LEVEL - l).

(** The closed cubes of [a] and [b] share a face, an edge or a corner (or
    overlap). *)
Definition adjacent (a b : TMROctant) : bool :=
  let ha := edge (level a) in
  let hb := edge (level b) in
  ((x a <=? x b + hb) && (x b <=? x a + ha)) &&
  ((y a <=? y b + hb) && (y b <=? y a + ha)) &&
  ((z a <=? z b + hb) && (z b <=? z a + ha)).

(** 2:1 balance: the levels of adjacent elements differ by at most one. *)
Definition balanced (l : list TMROctant) : bool :=
  forallb (fun a =>
    forallb (fun b => negb (adjacent a b)
                      || (Z.abs (level a - level b) <=? 1)) l) l.

(** The eight children of an octant, in the order of their child ids. *)
Definition children (o : TMROctant) : list TMROctant :=
  map (fun j => getSibling j (set_level o (level o + 1)))
      [0; 1; 2; 3; 4; 5; 6; 7].

(** One coordinate of a sibling: the bit [h] of [a] is cleared, then set
    again when [s] asks for it. *)
Definition sibling_coordinate (h a : Z) (s : bool) : Z :=
  (if Z.land a h =? 0 then a else a - h) + (if s then h else 0).

(** The level bounds [refine] works with, after its entry checks. *)
Definition refine_max_level (max_level : Z) : Z :=
  if max_level >? TMR_MAX_LEVEL then TMR_MAX_LEVEL else max_level.

Definition refine_min_level (min_level max_level : Z) : Z :=
  let min_level := if min_level <? 0 then 0 else min_level in
  if min_level >? refine_max_level max_level
  then refine_max_level max_level else min_level.

(** The levels for which the step of [createNodes] is defined: an octant
    level, below [TMR_MAX_LEVEL] when the order is 3. *)
Definition levels_fit (order : Z) (l : list TMROctant) : bool :=
  forallb (fun e => (0 <=? level e)
                    && (level e + (order - 2) <=? TMR_MAX_LEVEL)) l.

(** The candidates of an element at such a level: the eight corners at the
    step of the element's edge for order 2, the 27 positions at the step of
    the edge one level below otherwise. *)
Definition candidates (order : Z) (e : TMROctant) : list TMROctant :=
  if order =? 2 then node_block e (edge (level e)) [0; 1]
  else node_block e (edge (level e + 1)) [0; 1; 2].

(** *** The rows of the interpolation, in the words of the specification *)

Section StencilRows.

Variable double : Type.
Variable dmul : double -> double -> double.
Variables d0_5 d0_25 d0_125 : double.
Variable cdep_ptr : list Z.
Variable cdep_conn : list Z.
Variable cdep_weights : list double.

(** The row of the dependent node [d] in the dependent table: the slices
    [dep_conn[dep_ptr[d] .. dep_ptr[d+1])] and
    [dep_weights[dep_ptr[d] .. dep_ptr[d+1])]. *)
Definition dependent_ids (d : Z) : list Z :=
  let lo := nth (Z.to_nat d) cdep_ptr 0 in
  let hi := nth (Z.to_nat (d + 1)) cdep_ptr 0 in
  firstn (Z.to_nat (hi - lo)) (skipn (Z.to_nat lo) cdep_conn).

Definition dependent_weights (d : Z) : list double :=
  let lo := nth (Z.to_nat d) cdep_ptr 0 in
  let hi := nth (Z.to_nat (d + 1)) cdep_ptr 0 in
  firstn (Z.to_nat (hi - lo)) (skipn (Z.to_nat lo) cdep_weights).

(** A coarse node is independent, or it is the dependent node [-(d+1)] and
    the row of [d] lies inside the dependent table. *)
Definition row_in_table (t : TMROctant) : bool :=
  (0 <=? tag t) ||
  ((- tag t <? Z.of_nat (length cdep_ptr))
   && (0 <=? nth (Z.to_nat (- tag t - 1)) cdep_ptr 0)
   && (nth (Z.to_nat (- tag t)) cdep_ptr 0 <=? Z.of_nat (length cdep_conn))
   && (nth (Z.to_nat (- tag t)) cdep_ptr 0
       <=? Z.of_nat (length cdep_weights))).

(** What a coarse corner [t] with stencil weight [w] contributes to the row
    of a fine node: its own id with weight [w] when it is independent; when
    it is the dependent node [-(d+1)], the ids of its row, each with [w]
    times the dependent weight. *)
Definition corner_entries (t : TMROctant) (w : double)
  : list (TMRIndexWeight double) :=
  if 0 <=? tag t then [mkIndexWeight (tag t) w]
  else map (fun cv => mkIndexWeight (fst cv) (dmul w (snd cv)))
           (combine (dependent_ids (- tag t - 1))
                    (dependent_weights (- tag t - 1))).

(** The weight of the stencil of a child id: 0.5 for an edge midpoint, 0.25
    for a face centre, 0.125 for the element centre. *)
Definition stencil_weight (id : Z) : double :=
  if (id =? 1) || (id =? 2) || (id =? 4) then d0_5
  else if (id =? 3) || (id =? 5) || (id =? 6) then d0_25
  else d0_125.

End StencilRows.

Arguments dependent_weights {double} cdep_ptr cdep_weights d.
Arguments corner_entries {double} dmul cdep_ptr cdep_conn cdep_weights t w.
Arguments stencil_weight {double} d0_5 d0_25 d0_125 id.
Arguments row_in_table {double} cdep_ptr cdep_conn cdep_weights t.

(** The sum of rational weights, and of the weights of a row. *)
Definition Qsum (l : list QArith_base.Q) : QArith_base.Q :=
  fold_right QArith_base.Qplus (QArith_base.Qmake 0 1) l.

Definition row_sum (l : list (TMRIndexWeight QArith_base.Q))
  : QArith_base.Q :=
  Qsum (map (@weight QArith_base.Q) l).

(** Sample octants: the root, the eight octants of level 1 and the children
    of the level-1 octant 1. *)
Definition root : TMROctant := mkOctant 0 0 0 0 0.

Definition level1 (k : Z) : TMROctant := getSibling k (mkOctant 0 0 0 1 k).

Definition level2_of_1 (k : Z) : TMROctant :=
  getSibling k (mkOctant (edge 1) 0 0 2 k).

(** Sample arrays: the uniform tree of level 1; the root followed by an
    octant of level 1, and by all of them; the octants 0 and 7 of level 1
    around six octants of level 2; a single octant of level 1; two octants
    of level 1. *)
Definition uniform1 : list TMROctant := map level1 [0; 1; 2; 3; 4; 5; 6; 7].

Definition nested : list TMROctant := [root; level1 1].

Definition nested_full : list TMROctant := root :: uniform1.

Definition gappy : list TMROctant :=
  level1 0 :: map level2_of_1 [0; 1; 2; 3; 4; 5] ++ [level1 7].

Definition lone : list TMROctant := [level1 0].

Definition pair : list TMROctant := [level1 1; level1 2].

(** A sample fine node (an edge midpoint of the root cell, child id 1) and
    two coarse nodes, the second one dependent. *)
Definition sample_fine_node : TMROctant := mkOctant (edge 1) 0 0 1 7.

Definition sample_coarse_nodes : list TMROctant :=
  [mkOctant 0 0 0 0 0; mkOctant (2 * edge 1) 0 0 0 (-1)].

(** ** Powers of two *)

Lemma edge_pow2 (l : Z) : l <= TMR_MAX_LEVEL -> edge l = 2 ^ (TMR_MAX_LEVEL - l).
Proof.
  intros H. unfold edge. rewrite Z.shiftl_1_l. reflexivity.
Qed.

Lemma edge_high (l : Z) : TMR_MAX_LEVEL < l -> edge l = 0.
Proof.
  intros H. unfold edge.
  rewrite <- (Z.opp_involutive (TMR_MAX_LEVEL - l)).
  rewrite Z.shiftl_opp_r, Z.shiftr_div_pow2 by lia.
  apply Z.div_small. split; [lia|]. apply Z.pow_gt_1; lia.
Qed.

Lemma hmax_pow2 : hmax = 2 ^ TMR_MAX_LEVEL.
Proof. unfold hmax. apply Z.shiftl_1_l. Qed.

Lemma hmax_edge0 : hmax = edge 0.
Proof. unfold hmax, edge. now rewrite Z.sub_0_r. Qed.

Lemma edge_pos (l : Z) : l <= TMR_MAX_LEVEL -> 0 < edge l.
Proof.
  intros H. rewrite edge_pow2 by assumption. apply Z.pow_pos_nonneg; lia.
Qed.

Lemma edge_nonneg (l : Z) : 0 <= edge l.
Proof.
  destruct (Z_le_gt_dec l TMR_MAX_LEVEL) as [H|H].
  - apply Z.lt_le_incl, edge_pos, H.
  - rewrite edge_high by lia. lia.
Qed.

Lemma edge_double (l : Z) : l < TMR_MAX_LEVEL -> edge l = 2 * edge (l + 1).
Proof.
  intros H. rewrite !edge_pow2 by lia.
  replace (TMR_MAX_LEVEL - l) with (Z.succ (TMR_MAX_LEVEL - (l + 1))) by lia.
  rewrite Z.pow_succ_r by lia. reflexivity.
Qed.

Lemma edge_half (l : Z) : edge (l + 1) = edge l / 2.
Proof.
  destruct (Z_lt_le_dec l TMR_MAX_LEVEL) as [H|H].
  - rewrite (edge_double l H). symmetry. rewrite Z.mul_comm. apply Z.div_mul. lia.
  - rewrite (@edge_high (l + 1)) by lia.
    destruct (Z.eq_dec l TMR_MAX_LEVEL) as [E|E].
    + subst l. unfold edge. rewrite Z.sub_diag. reflexivity.
    + rewrite edge_high by lia. reflexivity.
Qed.

(** ** The Morton order *)

Lemma compare_lt (a b : TMROctant) : (compare a b <? 0) = true <-> olt a b.
Proof.
  unfold compare, olt, lex_lt, okey; simpl.
  destruct (Z.ltb_spec (morton a) (morton b));
    [|destruct (Z.ltb_spec (morton b) (morton a))];
    rewrite Z.ltb_lt; lia.
Qed.

Lemma compare_eq (a b : TMROctant) : (compare a b =? 0) = true <-> okey a = okey b.
Proof.
  unfold compare, okey.
  destruct (Z.ltb_spec (morton a) (morton b));
    [|destruct (Z.ltb_spec (morton b) (morton a))];
    rewrite Z.eqb_eq; (split; [intros E|intros E; injection E as E1 E2]);
    try lia.
  f_equal; lia.
Qed.

Lemma compare_le (a b : TMROctant) : (compare a b <=? 0) = true <-> ole a b.
Proof.
  unfold ole. rewrite <- compare_lt, <- compare_eq.
  rewrite Z.leb_le, Z.ltb_lt, Z.eqb_eq. lia.
Qed.

Lemma compare_gt (a b : TMROctant) : (compare a b <=? 0) = false -> olt b a.
Proof.
  unfold compare, olt, lex_lt, okey; simpl.
  destruct (Z.ltb_spec (morton a) (morton b));
    [|destruct (Z.ltb_spec (morton b) (morton a))];
    rewrite Z.leb_gt; lia.
Qed.

Lemma olt_trans (a b c : TMROctant) : olt a b -> olt b c -> olt a c.
Proof. unfold olt, lex_lt. lia. Qed.

Lemma olt_irrefl (a : TMROctant) : ~ olt a a.
Proof. unfold olt, lex_lt. lia. Qed.

Lemma ole_olt_trans (a b c : TMROctant) : ole a b -> olt b c -> olt a c.
Proof.
  intros [H|H] H'; [eapply olt_trans; eassumption|].
  unfold olt in *. now rewrite H.
Qed.

Lemma olt_ole_trans (a b c : TMROctant) : olt a b -> ole b c -> olt a c.
Proof.
  intros H [H'|H']; [eapply olt_trans; eassumption|].
  unfold olt in *. now rewrite <- H'.
Qed.

Lemma olt_okey (a b a' b' : TMROctant) :
  okey a = okey a' -> okey b = okey b' -> olt a b -> olt a' b'.
Proof. unfold olt. now intros -> ->. Qed.

Lemma sorted_Sorted (l : list TMROctant) : sorted l = true <-> Sorted olt l.
Proof.
  induction l as [|a [|b t] IH].
  - split; auto.
  - split; auto.
  - change (sorted (a :: b :: t)) with ((compare a b <? 0) && sorted (b :: t)).
    rewrite andb_true_iff, compare_lt, IH. split.
    + intros [H1 H2]. constructor; auto.
    + intros H. inversion H as [|? ? H1 H2]; subst.
      inversion H2; subst. auto.
Qed.

Lemma Sorted_olt_strong (l : list TMROctant) : Sorted olt l -> StronglySorted olt l.
Proof. apply Sorted_StronglySorted. intros a b c. apply olt_trans. Qed.

(** ** Sorting and uniquifying *)

Lemma insert_In (a c : TMROctant) (l : list TMROctant) :
  In c (insert a l) <-> c = a \/ In c l.
Proof.
  induction l as [|b t IH]; simpl.
  - intuition.
  - destruct (compare a b <=? 0); simpl; rewrite ?IH; intuition.
Qed.

Lemma sort_In (c : TMROctant) (l : list TMROctant) : In c (sort l) <-> In c l.
Proof.
  induction l as [|a t IH]; simpl; [tauto|].
  rewrite insert_In, IH. intuition.
Qed.

Lemma insert_Sorted (a : TMROctant) (l : list TMROctant) :
  Sorted ole l -> Sorted ole (insert a l).
Proof.
  induction l as [|b t IH]; intros H; simpl.
  - auto.
  - destruct (compare a b <=? 0) eqn:E.
    + constructor; auto. constructor. now apply compare_le.
    + inversion H as [|? ? H1 H2]; subst.
      constructor; [auto|].
      assert (Hb : ole b a) by (left; now apply compare_gt).
      destruct t as [|c t]; simpl; [auto|].
      destruct (compare a c <=? 0); constructor; auto.
      now inversion H2.
Qed.

Lemma sort_Sorted (l : list TMROctant) : Sorted ole (sort l).
Proof.
  induction l as [|a t IH]; simpl; [constructor|].
  now apply insert_Sorted.
Qed.

Lemma uniquify_hd (b : TMROctant) (t : list TMROctant) :
  exists c rest, uniquify (b :: t) = c :: rest /\ okey c = okey b /\ In c (b :: t).
Proof.
  revert b. induction t as [|d t IH]; intros b.
  - exists b, []. simpl. auto.
  - change (uniquify (b :: d :: t))
      with (if compare b d =? 0 then uniquify (d :: t) else b :: uniquify (d :: t)).
    destruct (compare b d =? 0) eqn:E.
    + destruct (IH d) as (c & rest & H1 & H2 & H3).
      exists c, rest. apply compare_eq in E.
      repeat split; [assumption|congruence|now right].
    + eexists. eexists. repeat split. now left.
Qed.

Lemma uniquify_incl (c : TMROctant) (l : list TMROctant) :
  In c (uniquify l) -> In c l.
Proof.
  induction l as [|a [|b t] IH]; auto.
  change (uniquify (a :: b :: t))
    with (if compare a b =? 0 then uniquify (b :: t) else a :: uniquify (b :: t)).
  destruct (compare a b =? 0); simpl In at 1; intros H.
  - right. now apply IH.
  - destruct H as [H|H]; [now left|right; now apply IH].
Qed.

Lemma uniquify_keeps (a : TMROctant) (l : list TMROctant) :
  In a l -> exists c, In c (uniquify l) /\ okey c = okey a.
Proof.
  induction l as [|b [|d t] IH]; intros H.
  - destruct H.
  - exists a. destruct H as [H|[]]. subst. simpl. auto.
  - change (uniquify (b :: d :: t))
      with (if compare b d =? 0 then uniquify (d :: t) else b :: uniquify (d :: t)).
    destruct (compare b d =? 0) eqn:E.
    + destruct H as [H|H]; [subst b|now apply IH].
      destruct (uniquify_hd d t) as (c & rest & H1 & H2 & _).
      exists c. rewrite H1. split; [now left|].
      apply compare_eq in E. congruence.
    + destruct H as [H|H]; [subst b; exists a; split; [now left|reflexivity]|].
      destruct (IH H) as (c & H1 & H2). exists c. split; [now right|assumption].
Qed.

Lemma uniquify_Sorted (l : list TMROctant) :
  Sorted ole l -> Sorted olt (uniquify l).
Proof.
  induction l as [|a [|b t] IH]; intros H.
  - constructor.
  - simpl. auto.
  - change (uniquify (a :: b :: t))
      with (if compare a b =? 0 then uniquify (b :: t) else a :: uniquify (b :: t)).
    inversion H as [|? ? H1 H2]; subst. inversion H2 as [|? ? H3]; subst.
    destruct (compare a b =? 0) eqn:E; [now apply IH|].
    constructor; [now apply IH|].
    destruct (uniquify_hd b t) as (c & rest & E1 & E2 & _). rewrite E1.
    constructor.
    assert (Hab : olt a b).
    { destruct H3 as [H3|H3]; [assumption|].
      apply compare_eq in H3. congruence. }
    eapply olt_okey; [reflexivity|symmetry; eassumption|assumption].
Qed.

Lemma TMROctantArray_sort_Sorted (l : list TMROctant) :
  Sorted olt (TMROctantArray_sort l).
Proof. apply uniquify_Sorted, sort_Sorted. Qed.

Lemma TMROctantArray_sort_incl (c : TMROctant) (l : list TMROctant) :
  In c (TMROctantArray_sort l) -> In c l.
Proof. intros H. now apply sort_In, uniquify_incl. Qed.

Lemma TMROctantArray_sort_keeps (a : TMROctant) (l : list TMROctant) :
  In a l -> exists c, In c (TMROctantArray_sort l) /\ okey c = okey a.
Proof. intros H. apply uniquify_keeps. now apply sort_In. Qed.

Lemma uniquify_sorted_id (l : list TMROctant) : Sorted olt l -> uniquify l = l.
Proof.
  induction l as [|a [|b t] IH]; intros H; auto.
  change (uniquify (a :: b :: t))
    with (if compare a b =? 0 then uniquify (b :: t) else a :: uniquify (b :: t)).
  inversion H as [|? ? H1 H2]; subst. inversion H2 as [|? ? H3]; subst.
  destruct (compare a b =? 0) eqn:E.
  - apply compare_eq in E. exfalso. apply (@olt_irrefl b).
    eapply olt_okey; [eassumption|reflexivity|assumption].
  - f_equal. now apply IH.
Qed.

Lemma sort_sorted_id (l : list TMROctant) : Sorted olt l -> sort l = l.
Proof.
  induction l as [|a t IH]; intros H; auto.
  inversion H as [|? ? H1 H2]; subst.
  simpl. rewrite IH by assumption.
  destruct t as [|b t]; [reflexivity|].
  inversion H2; subst. simpl.
  assert (E : (compare a b <=? 0) = true) by (apply compare_le; now left).
  now rewrite E.
Qed.

Lemma TMROctantArray_sort_id (l : list TMROctant) :
  Sorted olt l -> TMROctantArray_sort l = l.
Proof.
  intros H. unfold TMROctantArray_sort.
  rewrite sort_sorted_id by assumption. now apply uniquify_sorted_id.
Qed.

(** Two strictly sorted arrays that hold the same ordering pairs list them in
    the same sequence. *)
Lemma Sorted_olt_unique (l1 l2 : list TMROctant) :
  Sorted olt l1 -> Sorted olt l2 ->
  (forall k, In k (map okey l1) <-> In k (map okey l2)) ->
  map okey l1 = map okey l2.
Proof.
  intros H1 H2. apply Sorted_olt_strong in H1. apply Sorted_olt_strong in H2.
  revert l2 H2. induction H1 as [|a t Ht IH Ha]; intros l2 H2 Hk.
  - destruct l2 as [|b t2]; [reflexivity|].
    exfalso. apply (Hk (okey b)). now left.
  - destruct H2 as [|b t2 Ht2 Hb].
    + exfalso. apply (Hk (okey a)). now left.
    + assert (Hab : okey a = okey b).
      { destruct (proj1 (Hk (okey a)) (or_introl eq_refl)) as [E|E]; [now symmetry|].
        destruct (proj2 (Hk (okey b)) (or_introl eq_refl)) as [E'|E']; [assumption|].
        exfalso. apply in_map_iff in E. destruct E as (b' & E1 & E2).
        apply in_map_iff in E'. destruct E' as (a' & E1' & E2').
        rewrite Forall_forall in Ha, Hb.
        apply (@olt_irrefl a). apply olt_trans with a'; [now apply Ha|].
        eapply olt_okey; [symmetry; apply E1'|apply E1|]. now apply Hb. }
      simpl. rewrite Hab. f_equal. apply IH; [assumption|].
      intros k. split; intros Hin.
      * destruct (proj1 (Hk k) (or_intror Hin)) as [E|E]; [|assumption].
        exfalso. apply in_map_iff in Hin. destruct Hin as (a' & E1 & E2).
        rewrite Forall_forall in Ha. apply (@olt_irrefl a).
        eapply olt_okey; [reflexivity| |apply (Ha _ E2)]. congruence.
      * destruct (proj2 (Hk k) (or_intror Hin)) as [E|E]; [|assumption].
        exfalso. apply in_map_iff in Hin. destruct Hin as (b' & E1 & E2).
        rewrite Forall_forall in Hb. apply (@olt_irrefl b).
        eapply olt_okey; [reflexivity| |apply (Hb _ E2)]. congruence.
Qed.

(** ** Bit interleaving *)

Lemma interleave_bound (n : nat) (a b c : Z) :
  0 <= interleave n a b c < 8 ^ Z.of_nat n.
Proof.
  revert a b c. induction n as [|n IH]; intros a b c.
  - simpl. lia.
  - rewrite Nat2Z.inj_succ, Z.pow_succ_r by lia.
    cbn [interleave]. specialize (IH (a / 2) (b / 2) (c / 2)).
    pose proof (Z.mod_pos_bound a 2). pose proof (Z.mod_pos_bound b 2).
    pose proof (Z.mod_pos_bound c 2). lia.
Qed.

Lemma interleave_split (k m : nat) (a b c : Z) :
  interleave (k + m) a b c =
  interleave k a b c
  + 8 ^ Z.of_nat k * interleave m (a / 2 ^ Z.of_nat k) (b / 2 ^ Z.of_nat k)
                                  (c / 2 ^ Z.of_nat k).
Proof.
  revert a b c. induction k as [|k IH]; intros a b c.
  - cbn [interleave Nat.add]. change (Z.of_nat 0) with 0.
    rewrite !Z.pow_0_r, !Z.div_1_r. lia.
  - rewrite Nat2Z.inj_succ, !Z.pow_succ_r by lia.
    cbn [interleave Nat.add]. rewrite IH.
    rewrite !Z.div_div by (try lia; apply Z.pow_pos_nonneg; lia).
    lia.
Qed.

Lemma interleave_aligned (k : nat) (a b c : Z) :
  interleave k (2 ^ Z.of_nat k * a) (2 ^ Z.of_nat k * b) (2 ^ Z.of_nat k * c) = 0.
Proof.
  revert a b c. induction k as [|k IH]; intros a b c.
  - reflexivity.
  - rewrite Nat2Z.inj_succ, !Z.pow_succ_r by lia. cbn [interleave].
    replace (2 * 2 ^ Z.of_nat k * a) with (2 ^ Z.of_nat k * a * 2) by lia.
    replace (2 * 2 ^ Z.of_nat k * b) with (2 ^ Z.of_nat k * b * 2) by lia.
    replace (2 * 2 ^ Z.of_nat k * c) with (2 ^ Z.of_nat k * c * 2) by lia.
    rewrite !Z.mod_mul, !Z.div_mul, IH by lia. reflexivity.
Qed.

Lemma interleave_inj (n : nat) (a b c a' b' c' : Z) :
  0 <= a < 2 ^ Z.of_nat n -> 0 <= b < 2 ^ Z.of_nat n -> 0 <= c < 2 ^ Z.of_nat n ->
  0 <= a' < 2 ^ Z.of_nat n -> 0 <= b' < 2 ^ Z.of_nat n ->
  0 <= c' < 2 ^ Z.of_nat n ->
  interleave n a b c = interleave n a' b' c' ->
  a = a' /\ b = b' /\ c = c'.
Proof.
  revert a b c a' b' c'. induction n as [|n IH]; intros a b c a' b' c'.
  - simpl. lia.
  - rewrite Nat2Z.inj_succ, !Z.pow_succ_r by lia. cbn [interleave].
    intros Ha Hb Hc Ha' Hb' Hc' E.
    pose proof (Z.mod_pos_bound a 2). pose proof (Z.mod_pos_bound b 2).
    pose proof (Z.mod_pos_bound c 2). pose proof (Z.mod_pos_bound a' 2).
    pose proof (Z.mod_pos_bound b' 2). pose proof (Z.mod_pos_bound c' 2).
    pose proof (Z.div_mod a 2). pose proof (Z.div_mod b 2).
    pose proof (Z.div_mod c 2). pose proof (Z.div_mod a' 2).
    pose proof (Z.div_mod b' 2). pose proof (Z.div_mod c' 2).
    destruct (IH (a / 2) (b / 2) (c / 2) (a' / 2) (b' / 2) (c' / 2))
      as (E1 & E2 & E3); try lia.
Qed.

(** The children of a cell take the next three bits of the key. *)
Lemma interleave_child (k m : nat) (a b c da db dc : Z) :
  0 <= da < 2 -> 0 <= db < 2 -> 0 <= dc < 2 ->
  let h := 2 ^ Z.of_nat k in
  interleave (k + S m) (2 * h * a + h * da) (2 * h * b + h * db)
             (2 * h * c + h * dc)
  = interleave (k + S m) (2 * h * a) (2 * h * b) (2 * h * c)
    + 8 ^ Z.of_nat k * (da + 2 * db + 4 * dc).
Proof.
  intros Ha Hb Hc h. subst h.
  assert (P : 0 < 2 ^ Z.of_nat k) by (apply Z.pow_pos_nonneg; lia).
  rewrite !interleave_split.
  replace (2 * 2 ^ Z.of_nat k * a + 2 ^ Z.of_nat k * da)
    with (2 ^ Z.of_nat k * (2 * a + da)) by lia.
  replace (2 * 2 ^ Z.of_nat k * b + 2 ^ Z.of_nat k * db)
    with (2 ^ Z.of_nat k * (2 * b + db)) by lia.
  replace (2 * 2 ^ Z.of_nat k * c + 2 ^ Z.of_nat k * dc)
    with (2 ^ Z.of_nat k * (2 * c + dc)) by lia.
  replace (2 * 2 ^ Z.of_nat k * a) with (2 ^ Z.of_nat k * (2 * a)) by lia.
  replace (2 * 2 ^ Z.of_nat k * b) with (2 ^ Z.of_nat k * (2 * b)) by lia.
  replace (2 * 2 ^ Z.of_nat k * c) with (2 ^ Z.of_nat k * (2 * c)) by lia.
  rewrite !interleave_aligned.
  rewrite !(Z.mul_comm (2 ^ Z.of_nat k)), !Z.div_mul by lia.
  cbn [interleave].
  replace (2 * a + da) with (da + a * 2) by lia.
  replace (2 * b + db) with (db + b * 2) by lia.
  replace (2 * c + dc) with (dc + c * 2) by lia.
  replace (2 * a) with (0 + a * 2) by lia.
  replace (2 * b) with (0 + b * 2) by lia.
  replace (2 * c) with (0 + c * 2) by lia.
  rewrite !Z.mod_add, !Z.div_add by lia.
  rewrite !Z.mod_small, !Z.div_small by lia. lia.
Qed.

(** ** Octants and their Morton intervals *)

Lemma valid_spec (o : TMROctant) :
  valid o = true <->
  0 <= level o <= TMR_MAX_LEVEL /\
  (0 <= x o /\ x o + edge (level o) <= hmax /\ x o mod edge (level o) = 0) /\
  (0 <= y o /\ y o + edge (level o) <= hmax /\ y o mod edge (level o) = 0) /\
  (0 <= z o /\ z o + edge (level o) <= hmax /\ z o mod edge (level o) = 0).
Proof.
  unfold valid. rewrite !andb_true_iff, !Z.leb_le, !Z.eqb_eq. tauto.
Qed.

Lemma valid_decomp (o : TMROctant) :
  valid o = true ->
  exists (k m : nat) (qx qy qz : Z),
    (k + m = Z.to_nat TMR_MAX_LEVEL)%nat /\ Z.of_nat m = level o /\
    edge (level o) = 2 ^ Z.of_nat k /\ span (level o) = 8 ^ Z.of_nat k /\
    hmax = 2 ^ Z.of_nat k * 2 ^ Z.of_nat m /\
    x o = 2 ^ Z.of_nat k * qx /\ 0 <= qx < 2 ^ Z.of_nat m /\
    y o = 2 ^ Z.of_nat k * qy /\ 0 <= qy < 2 ^ Z.of_nat m /\
    z o = 2 ^ Z.of_nat k * qz /\ 0 <= qz < 2 ^ Z.of_nat m /\
    morton o = 8 ^ Z.of_nat k * interleave (S m) qx qy qz.
Proof.
  rewrite valid_spec.
  intros ((Hl0 & Hl1) & (Hx0 & Hx1 & Hx2) & (Hy0 & Hy1 & Hy2) & (Hz0 & Hz1 & Hz2)).
  exists (Z.to_nat (TMR_MAX_LEVEL - level o)), (Z.to_nat (level o)).
  set (k := Z.to_nat (TMR_MAX_LEVEL - level o)).
  set (m := Z.to_nat (level o)).
  assert (Ek : Z.of_nat k = TMR_MAX_LEVEL - level o) by (subst k; lia).
  assert (Em : Z.of_nat m = level o) by (subst m; lia).
  assert (Eh : edge (level o) = 2 ^ Z.of_nat k)
    by (rewrite edge_pow2, Ek by lia; reflexivity).
  assert (Hp : 0 < 2 ^ Z.of_nat k) by (apply Z.pow_pos_nonneg; lia).
  assert (EH : hmax = 2 ^ Z.of_nat k * 2 ^ Z.of_nat m).
  { rewrite hmax_pow2, <- Z.pow_add_r by lia. f_equal. lia. }
  rewrite Eh in *.
  exists (x o / 2 ^ Z.of_nat k), (y o / 2 ^ Z.of_nat k), (z o / 2 ^ Z.of_nat k).
  assert (Ex : x o = 2 ^ Z.of_nat k * (x o / 2 ^ Z.of_nat k))
    by (apply Z.div_exact; lia).
  assert (Ey : y o = 2 ^ Z.of_nat k * (y o / 2 ^ Z.of_nat k))
    by (apply Z.div_exact; lia).
  assert (Ez : z o = 2 ^ Z.of_nat k * (z o / 2 ^ Z.of_nat k))
    by (apply Z.div_exact; lia).
  split; [subst k m; lia|]. split; [assumption|]. split; [reflexivity|].
  split; [unfold span; now rewrite Ek|]. split; [assumption|].
  split; [assumption|]. split; [nia|]. split; [assumption|]. split; [nia|].
  split; [assumption|]. split; [nia|].
  unfold morton.
  replace (S (Z.to_nat TMR_MAX_LEVEL)) with (k + S m)%nat by (subst k m; lia).
  rewrite interleave_split.
  rewrite Ex at 1. rewrite Ey at 1. rewrite Ez at 1.
  rewrite interleave_aligned. lia.
Qed.

(** A point of the doubled domain lies in the cube of a valid octant exactly
    when its key lies in the Morton interval of the octant. *)
Lemma cube_morton (e : TMROctant) (a b c : Z) :
  valid e = true ->
  0 <= a < 2 * hmax -> 0 <= b < 2 * hmax -> 0 <= c < 2 * hmax ->
  (x e <= a < x e + edge (level e) /\ y e <= b < y e + edge (level e) /\
   z e <= c < z e + edge (level e))
  <->
  morton e <= interleave (S (Z.to_nat TMR_MAX_LEVEL)) a b c
           < morton e + span (level e).
Proof.
  intros V Ha Hb Hc.
  destruct (valid_decomp e V)
    as (k & m & qx & qy & qz & Ekm & Em & Eh & Es & EH & Ex & Hx & Ey & Hy
        & Ez & Hz & EM).
  rewrite Eh, Es, EM.
  replace (S (Z.to_nat TMR_MAX_LEVEL)) with (k + S m)%nat by lia.
  rewrite interleave_split.
  assert (Hp : 0 < 2 ^ Z.of_nat k) by (apply Z.pow_pos_nonneg; lia).
  assert (Hp8 : 0 < 8 ^ Z.of_nat k) by (apply Z.pow_pos_nonneg; lia).
  pose proof (interleave_bound k a b c) as Hlow.
  assert (Hm : 2 ^ Z.of_nat (S m) = 2 * 2 ^ Z.of_nat m)
    by (rewrite Nat2Z.inj_succ, Z.pow_succ_r by lia; reflexivity).
  assert (Hq : forall v q, 2 ^ Z.of_nat k * q <= v < 2 ^ Z.of_nat k * q + 2 ^ Z.of_nat k
                           <-> v / 2 ^ Z.of_nat k = q).
  { intros v q. split.
    - intros Hv. symmetry. apply Z.div_unique with (v - 2 ^ Z.of_nat k * q); lia.
    - intros <-. pose proof (Z.div_mod v (2 ^ Z.of_nat k)).
      pose proof (Z.mod_pos_bound v (2 ^ Z.of_nat k)). lia. }
  rewrite Ex, Ey, Ez, !Hq. split.
  - intros (-> & -> & ->). lia.
  - intros HI.
    assert (Hd : forall v, 0 <= v < 2 * hmax ->
                           0 <= v / 2 ^ Z.of_nat k < 2 ^ Z.of_nat (S m)).
    { intros v Hv. split; [apply Z.div_pos; lia|].
      apply Z.div_lt_upper_bound; [lia|]. rewrite Hm. nia. }
    apply (@interleave_inj (S m)); try (apply Hd; assumption); try lia.
    nia.
Qed.

Lemma encloses_spec (e o : TMROctant) :
  encloses e o = true <->
  (x e <= x o /\ x o + edge (level o) <= x e + edge (level e)) /\
  (y e <= y o /\ y o + edge (level o) <= y e + edge (level e)) /\
  (z e <= z o /\ z o + edge (level o) <= z e + edge (level e)).
Proof.
  unfold encloses. rewrite !andb_true_iff, !Z.leb_le. tauto.
Qed.

Lemma valid_range (o : TMROctant) :
  valid o = true ->
  0 <= level o <= TMR_MAX_LEVEL /\ 0 < edge (level o) /\
  0 <= x o /\ x o + edge (level o) <= hmax /\
  0 <= y o /\ y o + edge (level o) <= hmax /\
  0 <= z o /\ z o + edge (level o) <= hmax.
Proof.
  rewrite valid_spec. pose proof (@edge_pos (level o)). lia.
Qed.

(** The key of an octant enclosed by a valid octant lies in the interval of
    the latter. *)
Lemma encloses_morton (e o : TMROctant) :
  valid e = true -> level o <= TMR_MAX_LEVEL -> encloses e o = true ->
  morton e <= morton o < morton e + span (level e).
Proof.
  intros V Hl H. apply encloses_spec in H.
  pose proof (valid_range e V). pose proof (edge_pos _ Hl).
  unfold morton at 2 3. apply cube_morton; [assumption|lia..].
Qed.

Lemma aligned_nested (h c qa qb : Z) :
  0 < h -> 0 < c ->
  h * c * qa <= h * qb < h * c * qa + h * c ->
  h * qb + h <= h * c * qa + h * c.
Proof.
  intros Hh Hc H.
  assert (H1 : qb < c * (qa + 1)).
  { apply Z.mul_lt_mono_pos_l with h; lia. }
  assert (H2 : h * (qb + 1) <= h * (c * (qa + 1))).
  { apply Z.mul_le_mono_nonneg_l; lia. }
  lia.
Qed.

(** Two valid octants neither of which encloses the other have disjoint
    Morton intervals. *)
Lemma disjoint_morton (a b : TMROctant) :
  valid a = true -> valid b = true -> olt a b ->
  encloses a b = false -> encloses b a = false ->
  morton a + span (level a) <= morton b.
Proof.
  intros Va Vb Hab Nab Nba.
  destruct (Z_le_gt_dec (morton a + span (level a)) (morton b)) as [|Hgt];
    [assumption|exfalso].
  assert (Hle : morton a <= morton b) by (unfold olt, lex_lt, okey in Hab; simpl in Hab; lia).
  pose proof (valid_range a Va) as Ra. pose proof (valid_range b Vb) as Rb.
  assert (Hc : x a <= x b < x a + edge (level a) /\
               y a <= y b < y a + edge (level a) /\
               z a <= z b < z a + edge (level a)).
  { apply cube_morton; [assumption|lia..|]. fold (morton b). lia. }
  destruct (valid_decomp a Va)
    as (ka & ma & ax & ay & az & Eka & Ema & Eha & _ & _ & Eax & _ & Eay & _
        & Eaz & _ & _).
  destruct (valid_decomp b Vb)
    as (kb & mb & bx & by_ & bz & Ekb & Emb & Ehb & _ & _ & Ebx & _ & Eby & _
        & Ebz & _ & _).
  assert (Hpa : 0 < 2 ^ Z.of_nat ka) by (apply Z.pow_pos_nonneg; lia).
  assert (Hpb : 0 < 2 ^ Z.of_nat kb) by (apply Z.pow_pos_nonneg; lia).
  destruct (Z_le_gt_dec (level a) (level b)) as [Hlv|Hlv].
  - (* [b] is at least as deep: it lies inside [a] *)
    assert (E : 2 ^ Z.of_nat ka = 2 ^ Z.of_nat kb * 2 ^ Z.of_nat (ka - kb)).
    { rewrite <- Z.pow_add_r by lia. f_equal. lia. }
    assert (Hpc : 0 < 2 ^ Z.of_nat (ka - kb)) by (apply Z.pow_pos_nonneg; lia).
    assert (encloses a b = true); [|congruence].
    apply encloses_spec. rewrite Eha, Ehb in *.
    rewrite Eax, Eay, Eaz, Ebx, Eby, Ebz, E in *.
    repeat split; try lia; apply aligned_nested; lia.
  - (* [b] is shallower: same origin, so [b] encloses [a] *)
    assert (E : 2 ^ Z.of_nat kb = 2 ^ Z.of_nat ka * 2 ^ Z.of_nat (kb - ka)).
    { rewrite <- Z.pow_add_r by lia. f_equal. lia. }
    assert (Hpc : 1 < 2 ^ Z.of_nat (kb - ka)) by (apply Z.pow_gt_1; lia).
    assert (encloses b a = true); [|congruence].
    apply encloses_spec. rewrite Eha, Ehb in *.
    rewrite Eax, Eay, Eaz, Ebx, Eby, Ebz, E in *.
    assert (ax = 2 ^ Z.of_nat (kb - ka) * bx) by nia.
    assert (ay = 2 ^ Z.of_nat (kb - ka) * by_) by nia.
    assert (az = 2 ^ Z.of_nat (kb - ka) * bz) by nia.
    subst ax ay az. repeat split; nia.
Qed.

(** ** [findEnclosing] *)

Lemma read_Some {A : Type} (l : list A) (i : Z) (a : A) :
  read l i = Some a <->
  0 <= i < Z.of_nat (length l) /\ nth_error l (Z.to_nat i) = Some a.
Proof.
  unfold read.
  destruct (Z.leb_spec 0 i); destruct (Z.ltb_spec i (Z.of_nat (length l)));
    simpl; split; try discriminate; try lia; intuition.
Qed.

Lemma read_nat {A : Type} (l : list A) (k : nat) (a : A) :
  nth_error l k = Some a -> read l (Z.of_nat k) = Some a.
Proof.
  intros H. apply read_Some. rewrite Nat2Z.id. split; [|assumption].
  assert (k < length l)%nat by (apply nth_error_Some; congruence). lia.
Qed.

(** Whatever index the search returns, the element there encloses the
    octant. *)
Lemma findEnclosing_exit_sound (elems : list TMROctant) (oct : TMROctant)
  (low mid i : Z) :
  findEnclosing_exit elems oct low mid = Found i ->
  exists e, read elems i = Some e /\ encloses e oct = true.
Proof.
  unfold findEnclosing_exit.
  destruct (read elems mid) as [e|] eqn:E; [|discriminate].
  destruct (encloses e oct) eqn:C.
  - intros [= <-]. eauto.
  - destruct (read elems low) as [e'|] eqn:E'; [|discriminate].
    destruct (encloses e' oct) eqn:C'; [|discriminate].
    intros [= <-]. eauto.
Qed.

Lemma findEnclosing_loop_sound (fuel : nat) (elems : list TMROctant)
  (oct : TMROctant) (low high mid i : Z) :
  findEnclosing_loop fuel elems oct low high mid = Found i ->
  exists e, read elems i = Some e /\ encloses e oct = true.
Proof.
  revert low high mid. induction fuel as [|f IH]; intros low high mid; simpl.
  - destruct (high =? mid); [apply findEnclosing_exit_sound|discriminate].
  - destruct (high =? mid); [apply findEnclosing_exit_sound|].
    destruct (read elems mid) as [e|] eqn:E; [|discriminate].
    destruct (encloses e oct) eqn:C.
    + intros [= <-]. eauto.
    + apply IH.
Qed.

Lemma Sorted_olt_nth (l : list TMROctant) (i j : nat) (a b : TMROctant) :
  Sorted olt l ->
  (i < j)%nat -> nth_error l i = Some a -> nth_error l j = Some b -> olt a b.
Proof.
  intros S. apply Sorted_olt_strong in S.
  revert i j. induction S as [|c t St IH Hc]; intros i j Hij Ha Hb.
  - destruct i; discriminate.
  - destruct j as [|j]; [lia|]. simpl in Hb. destruct i as [|i].
    + simpl in Ha. injection Ha as ->. rewrite Forall_forall in Hc.
      apply Hc. eapply nth_error_In; eassumption.
    + simpl in Ha. apply (IH i j); [lia|assumption..].
Qed.

Lemma span_pos (l : Z) : l <= TMR_MAX_LEVEL -> 0 < span l.
Proof. intros H. unfold span. apply Z.pow_pos_nonneg; lia. Qed.

Lemma key_eqb_okey (a b : TMROctant) : key_eqb a b = true -> okey a = okey b.
Proof.
  unfold key_eqb, okey, morton. rewrite !andb_true_iff, !Z.eqb_eq.
  intros (((-> & ->) & ->) & ->). reflexivity.
Qed.

Section Search.

Variable elems : list TMROctant.
Variable oct : TMROctant.
Hypothesis elems_sorted : sorted elems = true.
Hypothesis elems_valid : forallb valid elems = true.
Hypothesis elems_leaves : leaves elems = true.
Hypothesis oct_level : level oct <= TMR_MAX_LEVEL.

Lemma elems_nth_valid (j : nat) (e : TMROctant) :
  nth_error elems j = Some e -> valid e = true.
Proof.
  intros H. apply nth_error_In in H.
  rewrite forallb_forall in elems_valid. now apply elems_valid.
Qed.

Lemma elems_nth_olt (i j : nat) (a b : TMROctant) :
  (i < j)%nat -> nth_error elems i = Some a -> nth_error elems j = Some b ->
  olt a b.
Proof.
  apply Sorted_olt_nth. now apply sorted_Sorted.
Qed.

Lemma elems_disjoint (i j : nat) (a b : TMROctant) :
  (i < j)%nat -> nth_error elems i = Some a -> nth_error elems j = Some b ->
  morton a + span (level a) <= morton b.
Proof.
  intros Hij Ha Hb. pose proof (elems_nth_olt _ _ _ _ Hij Ha Hb) as Hlt.
  assert (N : forall c d, In c elems -> In d elems -> okey c <> okey d ->
                          encloses c d = false).
  { intros c d Hc Hd Hne. unfold leaves in elems_leaves.
    rewrite forallb_forall in elems_leaves. specialize (elems_leaves c Hc).
    rewrite forallb_forall in elems_leaves. specialize (elems_leaves d Hd).
    apply orb_true_iff in elems_leaves. destruct elems_leaves as [E|E].
    - apply key_eqb_okey in E. contradiction.
    - now apply negb_true_iff in E. }
  assert (Hne : okey a <> okey b).
  { intros E. apply (@olt_irrefl b). eapply olt_okey; [apply E|reflexivity|assumption]. }
  apply disjoint_morton; try (eapply elems_nth_valid; eassumption); try assumption.
  - apply N; try (eapply nth_error_In; eassumption). assumption.
  - apply N; try (eapply nth_error_In; eassumption). congruence.
Qed.

Variable k : nat.
Variable ek : TMROctant.
Hypothesis ek_at : nth_error elems k = Some ek.
Hypothesis ek_encloses : encloses ek oct = true.

Lemma oct_in_ek : morton ek <= morton oct < morton ek + span (level ek).
Proof.
  apply encloses_morton; [eapply elems_nth_valid; eassumption|assumption..].
Qed.

Lemma below_k (j : nat) (e : TMROctant) :
  (j < k)%nat -> nth_error elems j = Some e ->
  encloses e oct = false /\ (compare oct e <? 0) = false.
Proof.
  intros Hj He. pose proof (elems_disjoint _ _ _ _ Hj He ek_at) as D.
  pose proof oct_in_ek as I.
  pose proof (elems_nth_valid _ _ He) as V.
  pose proof (span_pos _ (proj2 (proj1 (valid_range e V)))) as P.
  split.
  - destruct (encloses e oct) eqn:C; [|reflexivity].
    pose proof (encloses_morton _ _ V oct_level C). lia.
  - unfold compare.
    destruct (Z.ltb_spec (morton oct) (morton e)); [lia|].
    destruct (Z.ltb_spec (morton e) (morton oct)); [reflexivity|lia].
Qed.

Lemma above_k (j : nat) (e : TMROctant) :
  (k < j)%nat -> nth_error elems j = Some e ->
  encloses e oct = false /\ (compare oct e <? 0) = true.
Proof.
  intros Hj He. pose proof (elems_disjoint _ _ _ _ Hj ek_at He) as D.
  pose proof oct_in_ek as I.
  pose proof (elems_nth_valid _ _ He) as V.
  split.
  - destruct (encloses e oct) eqn:C; [|reflexivity].
    pose proof (encloses_morton _ _ V oct_level C). lia.
  - unfold compare.
    destruct (Z.ltb_spec (morton oct) (morton e)); [reflexivity|lia].
Qed.

Lemma findEnclosing_loop_finds (fuel : nat) (low high mid : Z) :
  0 <= low <= Z.of_nat k -> Z.of_nat k <= high < Z.of_nat (length elems) ->
  low <= mid <= high -> (mid = high -> high - low <= 1) ->
  high - low <= Z.of_nat fuel ->
  findEnclosing_loop fuel elems oct low high mid = Found (Z.of_nat k).
Proof.
  revert low high mid.
  assert (Hexit : forall low mid, 0 <= low <= Z.of_nat k ->
            Z.of_nat k <= mid < Z.of_nat (length elems) -> mid - low <= 1 ->
            findEnclosing_exit elems oct low mid = Found (Z.of_nat k)).
  { intros low mid Hl Hm Hd. unfold findEnclosing_exit.
    destruct (read elems mid) as [e|] eqn:E.
    2:{ unfold read in E.
        destruct (Z.leb_spec 0 mid); destruct (Z.ltb_spec mid (Z.of_nat (length elems)));
          try lia. simpl in E. apply nth_error_None in E. lia. }
    apply read_Some in E. destruct E as [_ E].
    destruct (Z.eq_dec mid (Z.of_nat k)) as [->|Hne].
    - rewrite Nat2Z.id in E. rewrite ek_at in E. injection E as <-.
      now rewrite ek_encloses.
    - assert (Hk : (k < Z.to_nat mid)%nat) by lia.
      destruct (above_k _ _ Hk E) as [-> _].
      assert (low = Z.of_nat k) by lia. subst low.
      rewrite (read_nat _ _ _ ek_at). now rewrite ek_encloses. }
  induction fuel as [|f IH]; intros low high mid Hl Hh Hm Hx Hf.
  - simpl. assert (high = mid) by lia. subst high. rewrite Z.eqb_refl.
    apply Hexit; lia.
  - simpl. destruct (Z.eqb_spec high mid) as [->|Hne].
    + apply Hexit; try lia. 
    + destruct (read elems mid) as [e|] eqn:E.
      2:{ unfold read in E.
          destruct (Z.leb_spec 0 mid); destruct (Z.ltb_spec mid (Z.of_nat (length elems)));
            try lia. simpl in E. apply nth_error_None in E. lia. }
      apply read_Some in E. destruct E as [_ E].
      destruct (Z_dec mid (Z.of_nat k)) as [[Hlt|Hgt]|Heq].
      * assert (Hk : (Z.to_nat mid < k)%nat) by lia.
        destruct (below_k _ _ Hk E) as [-> ->].
        assert (Q : 0 <= high - (mid + 1)) by lia.
        pose proof (Z.quot_pos _ 2 Q ltac:(lia)).
        pose proof (Z.quot_le_upper_bound (high - (mid + 1)) 2 (high - (mid + 1))
                      ltac:(lia) ltac:(lia)).
        apply IH; try lia.
        intros Hq. 
        assert (Z.quot (high - (mid + 1)) 2 = 0) by lia.
        apply Z.quot_small_iff in H1; lia.
      * assert (Hk : (k < Z.to_nat mid)%nat) by lia.
        destruct (above_k _ _ Hk E) as [-> ->].
        assert (Q : 0 <= mid - 1 - low) by lia.
        pose proof (Z.quot_pos _ 2 Q ltac:(lia)).
        pose proof (Z.quot_le_upper_bound (mid - 1 - low) 2 (mid - 1 - low)
                      ltac:(lia) ltac:(lia)).
        apply IH; try lia.
        intros Hq. 
        assert (Z.quot (mid - 1 - low) 2 = 0) by lia.
        apply Z.quot_small_iff in H1; lia.
      * subst mid. rewrite Nat2Z.id in E. rewrite ek_at in E. injection E as <-.
        now rewrite ek_encloses.
Qed.

Lemma findEnclosing_complete : findEnclosing elems oct = Found (Z.of_nat k).
Proof.
  unfold findEnclosing.
  assert (Hk : (k < length elems)%nat) by (apply nth_error_Some; congruence).
  assert (Q : 0 <= Z.of_nat (length elems) - 1 - 0) by lia.
  pose proof (Z.quot_pos _ 2 Q ltac:(lia)).
  pose proof (Z.quot_le_upper_bound (Z.of_nat (length elems) - 1 - 0) 2
                (Z.of_nat (length elems) - 1 - 0) ltac:(lia) ltac:(lia)).
  apply findEnclosing_loop_finds; try lia.
  intros Hq.
  assert (2 * Z.quot (Z.of_nat (length elems) - 1 - 0) 2
          <= Z.of_nat (length elems) - 1 - 0); [|lia].
  apply Z.mul_quot_le; lia.
Qed.

End Search.

(** C3 (amended).  On a sorted array of valid octants none of which encloses
    another (in particular on a sorted partition of the domain), an octant
    enclosed by the element of index [k] is found: the search returns a
    pointer to [elems[k]].  And on every array, a non-null result points to
    an element whose cube contains the cube of the octant. *)
Theorem findEnclosing_finds_enclosing_element
  (elems : list TMROctant) (oct : TMROctant) :
  (sorted elems = true -> forallb valid elems = true -> leaves elems = true ->
   level oct <= TMR_MAX_LEVEL ->
   forall (k : nat) (ek : TMROctant),
     nth_error elems k = Some ek -> encloses ek oct = true ->
     findEnclosing elems oct = Found (Z.of_nat k)) /\
  (forall i : Z, findEnclosing elems oct = Found i ->
     exists e, read elems i = Some e /\ encloses e oct = true).
Proof.
  split.
  - intros Hs Hv Hl Ho k ek Hk He.
    now apply findEnclosing_complete with ek.
  - intros i. apply findEnclosing_loop_sound.
Qed.

(** The search always comes to an end: the loop variable [mid] reaches
    [high] before the fuel of the model is used up. *)
Lemma findEnclosing_loop_terminates (fuel : nat) (elems : list TMROctant)
  (oct : TMROctant) (low high mid : Z) :
  low <= mid <= high \/ mid = high ->
  high - low < Z.of_nat fuel \/ mid = high ->
  findEnclosing_loop fuel elems oct low high mid <> Diverged.
Proof.
  assert (Hexit : forall low mid, findEnclosing_exit elems oct low mid <> Diverged).
  { intros l m. unfold findEnclosing_exit.
    destruct (read elems m); [|discriminate].
    destruct (encloses t oct); [discriminate|].
    destruct (read elems l); [|discriminate].
    destruct (encloses t0 oct); discriminate. }
  revert low high mid. induction fuel as [|f IH]; intros low high mid Hm Hf.
  - simpl. destruct (Z.eqb_spec high mid); [apply Hexit|lia].
  - simpl. destruct (Z.eqb_spec high mid) as [->|Hne]; [apply Hexit|].
    destruct (read elems mid) as [e|]; [|discriminate].
    destruct (encloses e oct); [discriminate|].
    destruct (compare oct e <? 0).
    + destruct (Z.eq_dec mid low) as [->|Hml].
      * apply IH; right.
        -- replace (low - 1 - low) with (-1) by lia.
           change (Z.quot (-1) 2) with 0. lia.
        -- replace (low - 1 - low) with (-1) by lia.
           change (Z.quot (-1) 2) with 0. lia.
      * assert (Q : 0 <= mid - 1 - low) by lia.
        pose proof (Z.quot_pos _ 2 Q ltac:(lia)).
        pose proof (Z.quot_le_upper_bound (mid - 1 - low) 2 (mid - 1 - low)
                      ltac:(lia) ltac:(lia)).
        apply IH; left; lia.
    + assert (Q : 0 <= high - (mid + 1)) by lia.
      pose proof (Z.quot_pos _ 2 Q ltac:(lia)).
      pose proof (Z.quot_le_upper_bound (high - (mid + 1)) 2 (high - (mid + 1))
                    ltac:(lia) ltac:(lia)).
      apply IH; left; lia.
Qed.

(** The fuel of the model is never used up; on the empty array this says
    nothing of the source, the model stopping at the read of [elems[0]]. *)
Lemma findEnclosing_fuel_enough (elems : list TMROctant) (oct : TMROctant) :
  findEnclosing elems oct <> Diverged.
Proof.
  destruct elems as [|e t]; [discriminate|].
  unfold findEnclosing.
  assert (Q : 0 <= Z.of_nat (length (e :: t)) - 1 - 0) by (simpl length; lia).
  pose proof (Z.quot_pos _ 2 Q ltac:(lia)).
  pose proof (Z.quot_le_upper_bound (Z.of_nat (length (e :: t)) - 1 - 0) 2
                (Z.of_nat (length (e :: t)) - 1 - 0) ltac:(lia) ltac:(lia)).
  apply findEnclosing_loop_terminates; left; lia.
Qed.

(** Unless the array has exactly two elements, every read of the search is
    inside the array. *)
Lemma findEnclosing_loop_in_bounds (fuel : nat) (elems : list TMROctant)
  (oct : TMROctant) (low high mid i : Z) :
  0 <= low -> high < Z.of_nat (length elems) ->
  low <= mid <= high -> mid = high \/ low < mid ->
  findEnclosing_loop fuel elems oct low high mid <> OutOfBounds i.
Proof.
  assert (Hread : forall j, 0 <= j < Z.of_nat (length elems) ->
                            exists e, read elems j = Some e).
  { intros j Hj. unfold read.
    destruct (Z.leb_spec 0 j); destruct (Z.ltb_spec j (Z.of_nat (length elems)));
      try lia. simpl.
    destruct (nth_error elems (Z.to_nat j)) eqn:E; [eauto|].
    apply nth_error_None in E. lia. }
  assert (Hexit : forall low mid, 0 <= low <= mid ->
            mid < Z.of_nat (length elems) ->
            findEnclosing_exit elems oct low mid <> OutOfBounds i).
  { intros l m Hl Hm. unfold findEnclosing_exit.
    destruct (Hread m ltac:(lia)) as [e ->].
    destruct (encloses e oct); [discriminate|].
    destruct (Hread l ltac:(lia)) as [e' ->].
    destruct (encloses e' oct); discriminate. }
  revert low high mid. induction fuel as [|f IH]; intros low high mid Hl Hh Hm Hx.
  - simpl. destruct (Z.eqb_spec high mid); [apply Hexit; lia|discriminate].
  - simpl. destruct (Z.eqb_spec high mid) as [->|Hne]; [apply Hexit; lia|].
    destruct (Hread mid ltac:(lia)) as [e ->].
    destruct (encloses e oct); [discriminate|].
    destruct (compare oct e <? 0).
    + assert (Q : 0 <= mid - 1 - low) by lia.
      pose proof (Z.quot_pos _ 2 Q ltac:(lia)).
      pose proof (Z.quot_le_upper_bound (mid - 1 - low) 2 (mid - 1 - low)
                    ltac:(lia) ltac:(lia)).
      pose proof (Z.mul_quot_le (mid - 1 - low) 2 Q ltac:(lia)).
      apply IH; try lia;
        destruct (Z.eq_dec (Z.quot (mid - 1 - low) 2) 0); lia.
    + assert (Q : 0 <= high - (mid + 1)) by lia.
      pose proof (Z.quot_pos _ 2 Q ltac:(lia)).
      pose proof (Z.quot_le_upper_bound (high - (mid + 1)) 2 (high - (mid + 1))
                    ltac:(lia) ltac:(lia)).
      pose proof (Z.mul_quot_le (high - (mid + 1)) 2 Q ltac:(lia)).
      apply IH; try lia;
        destruct (Z.eq_dec (Z.quot (high - (mid + 1)) 2) 0); lia.
Qed.

(** X2. On an array of one element, or of three and more, [findEnclosing]
    reads inside the array only, whatever the elements and the octant are;
    the empty array and the arrays of two elements are the only ones on
    which an index can leave the array. *)
Lemma findEnclosing_in_bounds (elems : list TMROctant) (oct : TMROctant)
  (i : Z) :
  (1 <= length elems)%nat -> length elems <> 2%nat ->
  findEnclosing elems oct <> OutOfBounds i.
Proof.
  intros H1 H2. unfold findEnclosing.
  assert (Q : 0 <= Z.of_nat (length elems) - 1 - 0) by lia.
  pose proof (Z.quot_pos _ 2 Q ltac:(lia)).
  pose proof (Z.quot_le_upper_bound (Z.of_nat (length elems) - 1 - 0) 2
                (Z.of_nat (length elems) - 1 - 0) ltac:(lia) ltac:(lia)).
  apply findEnclosing_loop_in_bounds; try lia.
  destruct (Nat.eq_dec (length elems) 1) as [E|E].
  - left. rewrite E. reflexivity.
  - right.
    assert (1 <= Z.quot (Z.of_nat (length elems) - 1 - 0) 2); [|lia].
    apply Z.quot_le_lower_bound; lia.
Qed.

(** ** [findEnclosingRange] *)

Lemma interleave_mono (n : nat) (a b c a' b' c' : Z) :
  0 <= a <= a' -> a' < 2 ^ Z.of_nat n ->
  0 <= b <= b' -> b' < 2 ^ Z.of_nat n ->
  0 <= c <= c' -> c' < 2 ^ Z.of_nat n ->
  interleave n a b c <= interleave n a' b' c'.
Proof.
  revert a b c a' b' c'. induction n as [|n IH]; intros a b c a' b' c'.
  - simpl. lia.
  - rewrite Nat2Z.inj_succ, !Z.pow_succ_r by lia. cbn [interleave].
    intros Ha Ha' Hb Hb' Hc Hc'.
    pose proof (Z.mod_pos_bound a 2). pose proof (Z.mod_pos_bound b 2).
    pose proof (Z.mod_pos_bound c 2). pose proof (Z.mod_pos_bound a' 2).
    pose proof (Z.mod_pos_bound b' 2). pose proof (Z.mod_pos_bound c' 2).
    pose proof (Z.div_mod a 2). pose proof (Z.div_mod b 2).
    pose proof (Z.div_mod c 2). pose proof (Z.div_mod a' 2).
    pose proof (Z.div_mod b' 2). pose proof (Z.div_mod c' 2).
    assert (L : interleave n (a / 2) (b / 2) (c / 2)
                <= interleave n (a' / 2) (b' / 2) (c' / 2)).
    { apply IH; lia. }
    destruct (Z.eq_dec (interleave n (a / 2) (b / 2) (c / 2))
                       (interleave n (a' / 2) (b' / 2) (c' / 2))) as [E|E].
    + apply interleave_inj in E; lia.
    + lia.
Qed.

Lemma intersects_spec (e o : TMROctant) :
  intersects e o = true <->
  (x e < x o + edge (level o) /\ x o < x e + edge (level e)) /\
  (y e < y o + edge (level o) /\ y o < y e + edge (level e)) /\
  (z e < z o + edge (level o) /\ z o < z e + edge (level e)).
Proof.
  unfold intersects. rewrite !andb_true_iff, !Z.ltb_lt. tauto.
Qed.

Lemma edge_LMAX : edge TMR_MAX_LEVEL = 1.
Proof. unfold edge. now rewrite Z.sub_diag. Qed.

Lemma covers_nth (elems : list TMROctant) (a b c : Z) :
  covers elems -> 0 <= a < hmax -> 0 <= b < hmax -> 0 <= c < hmax ->
  exists k e, nth_error elems k = Some e /\
    encloses e (mkOctant a b c TMR_MAX_LEVEL 0) = true.
Proof.
  intros C Ha Hb Hc. destruct (C a b c Ha Hb Hc) as (e & Hin & Hx & Hy & Hz).
  apply In_nth_error in Hin. destruct Hin as [k Hk].
  exists k, e. split; [assumption|].
  apply encloses_spec. simpl. rewrite edge_LMAX. lia.
Qed.

(** C9. On a sorted array of valid octants that partitions the domain (no
    cube encloses another, the cubes cover [[0, HMAX)^3]) and whose tags are
    the array indices, [findEnclosingRange] returns for a valid octant the
    range [[low, high)] with [low] the index of the element enclosing the
    first descendant at [TMR_MAX_LEVEL] and [high - 1] the index of the
    element enclosing the last one; the indices in the range are exactly
    those of the elements whose cubes intersect the cube of the octant. *)
Theorem findEnclosingRange_exact (elems : list TMROctant) (oct : TMROctant) :
  sorted elems = true -> forallb valid elems = true -> leaves elems = true ->
  covers elems -> tagged_by_index elems -> valid oct = true ->
  let h := edge (level oct) in
  let first := set_level oct TMR_MAX_LEVEL in
  let last := mkOctant (x oct + (h - 1)) (y oct + (h - 1)) (z oct + (h - 1))
                       TMR_MAX_LEVEL (tag oct) in
  exists low high,
    findEnclosingRange elems oct = Some (low, high) /\
    findEnclosing elems first = Found low /\
    findEnclosing elems last = Found (high - 1) /\
    forall (i : nat) (e : TMROctant), nth_error elems i = Some e ->
      (low <= Z.of_nat i < high <-> intersects e oct = true).
Proof.
  intros Hs Hv Hl Hc Ht Vo h first last.
  pose proof (valid_range oct Vo) as Ro. fold h in Ro.
  destruct (covers_nth elems (x oct) (y oct) (z oct) Hc) as (k1 & e1 & K1 & E1);
    try lia.
  destruct (covers_nth elems (x oct + (h - 1)) (y oct + (h - 1)) (z oct + (h - 1)) Hc)
    as (k2 & e2 & K2 & E2); try lia.
  assert (F1 : findEnclosing elems first = Found (Z.of_nat k1)).
  { apply findEnclosing_complete with e1; try assumption; try exact E1.
    simpl; lia. }
  assert (F2 : findEnclosing elems last = Found (Z.of_nat k2)).
  { apply findEnclosing_complete with e2; try assumption; try exact E2.
    simpl; lia. }
  assert (T1 : tag (nth (Z.to_nat (Z.of_nat k1)) elems oct) = Z.of_nat k1).
  { rewrite Nat2Z.id. rewrite (nth_indep _ oct (mkOctant 0 0 0 0 0)).
    - apply Ht. apply nth_error_Some. congruence.
    - apply nth_error_Some. congruence. }
  assert (T2 : tag (nth (Z.to_nat (Z.of_nat k2)) elems oct) = Z.of_nat k2).
  { rewrite Nat2Z.id. rewrite (nth_indep _ oct (mkOctant 0 0 0 0 0)).
    - apply Ht. apply nth_error_Some. congruence.
    - apply nth_error_Some. congruence. }
  exists (Z.of_nat k1), (Z.of_nat k2 + 1).
  split; [|split; [assumption|split]].
  - unfold findEnclosingRange. fold h. fold first. rewrite F1.
    change (set_xyz first (x first + (h - 1)) (y first + (h - 1)) (z first + (h - 1)))
      with last.
    rewrite F2, T1, T2. reflexivity.
  - rewrite F2. f_equal. lia.
  - intros i e Hi.
    pose proof (elems_nth_valid elems Hv _ _ Hi) as Ve.
    pose proof (elems_nth_valid elems Hv _ _ K1) as V1.
    pose proof (elems_nth_valid elems Hv _ _ K2) as V2.
    pose proof (valid_range e Ve) as Re.
    pose proof (valid_range e1 V1) as R1.
    pose proof (valid_range e2 V2) as R2.
    apply encloses_spec in E1. simpl in E1. rewrite edge_LMAX in E1.
    apply encloses_spec in E2. simpl in E2. rewrite edge_LMAX in E2.
    (* the keys of the first and of the last point of [oct] *)
    set (W := S (Z.to_nat TMR_MAX_LEVEL)).
    set (mo := interleave W (x oct) (y oct) (z oct)).
    set (ml := interleave W (x oct + (h - 1)) (y oct + (h - 1)) (z oct + (h - 1))).
    assert (M1 : morton e1 <= mo < morton e1 + span (level e1))
      by (apply cube_morton; [assumption|lia..]).
    assert (M2 : morton e2 <= ml < morton e2 + span (level e2))
      by (apply cube_morton; [assumption|lia..]).
    assert (Mo : morton oct <= ml < morton oct + span (level oct))
      by (apply cube_morton; [assumption|lia..|fold h; lia]).
    change (morton oct) with mo in Mo.
    rewrite intersects_spec. fold h. split.
    + intros [Hlo Hhi].
      destruct (Nat.eq_dec i k1) as [->|N1].
      { rewrite K1 in Hi. injection Hi as <-. lia. }
      destruct (Nat.eq_dec i k2) as [->|N2].
      { rewrite K2 in Hi. injection Hi as <-. lia. }
      assert (D1 : morton e1 + span (level e1) <= morton e)
        by (apply (elems_disjoint elems Hs Hv Hl k1 i); [lia|assumption..]).
      assert (D2 : morton e + span (level e) <= morton e2)
        by (apply (elems_disjoint elems Hs Hv Hl i k2); [lia|assumption..]).
      pose proof (span_pos (level e) ltac:(lia)).
      assert (Hin : x oct <= x e < x oct + edge (level oct) /\
                    y oct <= y e < y oct + edge (level oct) /\
                    z oct <= z e < z oct + edge (level oct)).
      { apply cube_morton; [assumption|lia..|].
        change (morton oct) with mo.
        change (mo <= morton e < mo + span (level oct)). lia. }
      fold h in Hin. lia.
    + intros Hint.
      set (px := Z.max (x e) (x oct)). set (py := Z.max (y e) (y oct)).
      set (pz := Z.max (z e) (z oct)).
      assert (Pe : morton e <= interleave W px py pz < morton e + span (level e))
        by (apply cube_morton; [assumption|lia..]).
      assert (Po : mo <= interleave W px py pz)
        by (apply cube_morton; [assumption|lia..|fold h; lia]).
      assert (Pl : interleave W px py pz <= ml).
      { apply interleave_mono; try lia;
          (unfold W; rewrite Nat2Z.inj_succ, Z.pow_succ_r, Z2Nat.id,
             <- hmax_pow2 by lia; lia). }
      destruct (lt_dec i k1) as [L1|L1].
      { assert (D1 : morton e + span (level e) <= morton e1)
          by (apply (elems_disjoint elems Hs Hv Hl i k1); [lia|assumption..]).
        lia. }
      destruct (lt_dec k2 i) as [L2|L2].
      { assert (D2 : morton e2 + span (level e2) <= morton e)
          by (apply (elems_disjoint elems Hs Hv Hl k2 i); [lia|assumption..]).
        lia. }
      lia.
Qed.

(** ** Keys, ordering pairs and the hash *)

Lemma pow2_W : 2 ^ Z.of_nat (S (Z.to_nat TMR_MAX_LEVEL)) = 2 * hmax.
Proof.
  rewrite Nat2Z.inj_succ, Z.pow_succ_r, Z2Nat.id, hmax_pow2 by lia. reflexivity.
Qed.

(** On coordinates of the doubled domain the Morton key determines the
    coordinates. *)
Lemma morton_inj (a b : TMROctant) :
  0 <= x a < 2 * hmax -> 0 <= y a < 2 * hmax -> 0 <= z a < 2 * hmax ->
  0 <= x b < 2 * hmax -> 0 <= y b < 2 * hmax -> 0 <= z b < 2 * hmax ->
  morton a = morton b -> x a = x b /\ y a = y b /\ z a = z b.
Proof.
  intros. apply (interleave_inj (S (Z.to_nat TMR_MAX_LEVEL)));
    rewrite ?pow2_W; assumption.
Qed.

Lemma in_domain_spec (q : TMROctant) :
  in_domain q = true <->
  0 <= x q < hmax /\ 0 <= y q < hmax /\ 0 <= z q < hmax.
Proof.
  unfold in_domain. rewrite !andb_true_iff, !Z.leb_le, !Z.ltb_lt. tauto.
Qed.

Lemma okey_key (a b : TMROctant) :
  in_domain a = true -> in_domain b = true -> okey a = okey b -> key a = key b.
Proof.
  rewrite !in_domain_spec. intros Ha Hb E. unfold okey in E.
  injection E as Em El.
  destruct (morton_inj a b) as (Ex & Ey & Ez); try lia.
  unfold key. congruence.
Qed.

Lemma key_okey (a b : TMROctant) : key a = key b -> okey a = okey b.
Proof.
  unfold key, okey, morton. intros [= -> -> -> ->]. reflexivity.
Qed.

Lemma key_eqb_spec (a b : TMROctant) : key_eqb a b = true <-> key a = key b.
Proof.
  unfold key_eqb, key. rewrite !andb_true_iff, !Z.eqb_eq. split.
  - intros (((-> & ->) & ->) & ->). reflexivity.
  - intros [= -> -> -> ->]. auto.
Qed.

Lemma map_okey_key (l1 l2 : list TMROctant) :
  forallb in_domain l1 = true -> forallb in_domain l2 = true ->
  map okey l1 = map okey l2 -> map key l1 = map key l2.
Proof.
  revert l2. induction l1 as [|a t IH]; intros [|b t2]; cbn [map forallb];
    try discriminate; auto.
  rewrite !andb_true_iff. intros [Ha Ht] [Hb Ht2] E.
  assert (E1 : okey a = okey b) by congruence.
  assert (E2 : map okey t = map okey t2) by congruence.
  f_equal; [now apply okey_key|now apply IH].
Qed.

Lemma valid_in_domain (o : TMROctant) : valid o = true -> in_domain o = true.
Proof.
  intros V. pose proof (valid_range o V). apply in_domain_spec. lia.
Qed.

Lemma addOctant_okey (q : TMROctant) (hash : list TMROctant) (k : Z * Z) :
  In k (map okey (addOctant q hash)) <-> In k (map okey hash) \/ k = okey q.
Proof.
  unfold addOctant. destruct (existsb (key_eqb q) hash) eqn:E.
  - split; [auto|]. intros [H| ->]; [assumption|].
    apply existsb_exists in E. destruct E as (c & Hc & E).
    apply key_eqb_okey in E. rewrite E. now apply in_map.
  - rewrite map_app, in_app_iff. simpl. intuition.
Qed.

Lemma addOctant_incl (c q : TMROctant) (hash : list TMROctant) :
  In c (addOctant q hash) -> In c hash \/ c = q.
Proof.
  unfold addOctant. destruct (existsb (key_eqb q) hash); [auto|].
  rewrite in_app_iff. simpl. intuition.
Qed.

Lemma sibling_fold_okey (o : TMROctant) (js : list Z) (hash : list TMROctant)
  (k : Z * Z) :
  In k (map okey (fold_left (fun hash j =>
                               let q := getSibling j o in
                               if in_domain q then addOctant q hash else hash)
                            js hash)) <->
  In k (map okey hash) \/
  exists j, In j js /\ in_domain (getSibling j o) = true /\
            k = okey (getSibling j o).
Proof.
  revert hash. induction js as [|j js IH]; intros hash; simpl.
  - split; [auto|]. intros [H|(j & [] & _)]. assumption.
  - rewrite IH. destruct (in_domain (getSibling j o)) eqn:D.
    + rewrite addOctant_okey. split.
      * intros [[H| ->]|(j' & H1 & H2 & H3)]; eauto 6.
      * intros [H|(j' & [<-|H1] & H2 & H3)]; eauto 6.
    + split.
      * intros [H|(j' & H1 & H2 & H3)]; eauto 6.
      * intros [H|(j' & [<-|H1] & H2 & H3)]; eauto 6. congruence.
Qed.

Lemma sibling_fold_incl (o : TMROctant) (js : list Z) (hash : list TMROctant)
  (c : TMROctant) :
  In c (fold_left (fun hash j =>
                     let q := getSibling j o in
                     if in_domain q then addOctant q hash else hash)
                  js hash) ->
  In c hash \/ exists j, In j js /\ in_domain c = true /\ c = getSibling j o.
Proof.
  revert hash. induction js as [|j js IH]; intros hash; simpl; [auto|].
  intros H. apply IH in H. destruct H as [H|(j' & H1 & H2 & H3)]; [|eauto 6].
  destruct (in_domain (getSibling j o)) eqn:D; [|auto].
  apply addOctant_incl in H. destruct H as [H| ->]; [auto|]. eauto 6.
Qed.

Lemma refine_sibling_loop_okey (array hash : list TMROctant) (k : Z * Z) :
  In k (map okey (refine_sibling_loop array hash)) <->
  In k (map okey hash) \/
  exists o j, In o array /\ In j [0; 1; 2; 3; 4; 5; 6; 7] /\
              in_domain (getSibling j o) = true /\ k = okey (getSibling j o).
Proof.
  unfold refine_sibling_loop. revert hash.
  induction array as [|o array IH]; intros hash; cbn [fold_left].
  - split; [auto|]. intros [H|(o & j & [] & _)]. assumption.
  - rewrite IH. unfold add_siblings. rewrite sibling_fold_okey. split.
    + intros [[H|(j & H1 & H2 & H3)]|(o' & j & H0 & H1 & H2 & H3)].
      * auto.
      * right. exists o, j. simpl. auto.
      * right. exists o', j. simpl. auto.
    + intros [H|(o' & j & [<-|H0] & H1 & H2 & H3)].
      * auto.
      * left. right. eauto.
      * right. eauto 6.
Qed.

Lemma refine_sibling_loop_incl (array hash : list TMROctant) (c : TMROctant) :
  In c (refine_sibling_loop array hash) ->
  In c hash \/ in_domain c = true.
Proof.
  unfold refine_sibling_loop. revert hash.
  induction array as [|o array IH]; intros hash; cbn [fold_left]; [auto|].
  intros H. apply IH in H. destruct H as [H|H]; [|auto].
  unfold add_siblings in H. apply sibling_fold_incl in H.
  destruct H as [H|(j & _ & H & _)]; auto.
Qed.

Lemma TMROctantArray_sort_okey (l : list TMROctant) (k : Z * Z) :
  In k (map okey (TMROctantArray_sort l)) <-> In k (map okey l).
Proof.
  rewrite !in_map_iff. split.
  - intros (c & E & H). exists c. split; [assumption|].
    now apply TMROctantArray_sort_incl.
  - intros (c & E & H). destruct (TMROctantArray_sort_keeps c l H) as (d & Hd & Ed).
    exists d. split; [congruence|assumption].
Qed.

(** A strictly sorted sequence of octants goes into the hash unchanged. *)
Lemma hash_of_sorted (l hash : list TMROctant) :
  StronglySorted olt (hash ++ l) ->
  fold_left (fun hash o => addOctant o hash) l hash = hash ++ l.
Proof.
  revert hash. induction l as [|a t IH]; intros hash S; simpl.
  - now rewrite app_nil_r.
  - assert (E : existsb (key_eqb a) hash = false).
    { apply not_true_is_false. intros E. apply existsb_exists in E.
      destruct E as (c & Hc & E). apply key_eqb_okey in E.
      clear IH. induction hash as [|d hash IHh]; [destruct Hc|].
      simpl in S. inversion S as [|? ? S1 S2]; subst.
      destruct Hc as [->|Hc]; [|now apply IHh].
      rewrite Forall_forall in S2. specialize (S2 a).
      apply (olt_irrefl a). eapply olt_okey; [symmetry; apply E|reflexivity|].
      apply S2. rewrite in_app_iff. right. now left. }
    unfold addOctant at 2. rewrite E. rewrite IH.
    + now rewrite <- app_assoc.
    + now rewrite <- app_assoc.
Qed.

Lemma refine_seed_loop_positive (min_level max_level : Z)
  (array : list TMROctant) (refinement : list Z) (hash : list TMROctant) :
  length refinement = length array ->
  forallb (fun v => 0 <? v) refinement = true ->
  refine_seed_loop min_level max_level array refinement hash
  = fold_left (fun hash o => addOctant o hash)
      (map (fun o => if level o <? max_level
                     then set_level o (level o + 1) else o) array) hash.
Proof.
  revert refinement hash.
  induction array as [|o array IH]; intros [|r refinement] hash; simpl;
    try discriminate; auto.
  intros [= L]. rewrite andb_true_iff, Z.ltb_lt. intros [Hr Hp].
  rewrite IH by assumption. unfold refine_seed.
  destruct (Z.eqb_spec r 0); [lia|]. destruct (Z.ltb_spec r 0); [lia|].
  reflexivity.
Qed.

(** ** [refine] *)

(** A valid octant is one of its own siblings. *)
Lemma getSibling_self (o : TMROctant) :
  exists j, In j [0; 1; 2; 3; 4; 5; 6; 7] /\ key (getSibling j o) = key o.
Proof.
  unfold getSibling. destruct (level o <=? 0); [exists 0; simpl; auto|].
  destruct (Z.land (x o) (edge (level o)) =? 0) eqn:Ex;
    destruct (Z.land (y o) (edge (level o)) =? 0) eqn:Ey;
    destruct (Z.land (z o) (edge (level o)) =? 0) eqn:Ez.
  - exists 0. split; [simpl; tauto|]. reflexivity.
  - exists 4. split; [simpl; tauto|]. unfold key; simpl. repeat f_equal; lia.
  - exists 2. split; [simpl; tauto|]. unfold key; simpl. repeat f_equal; lia.
  - exists 6. split; [simpl; tauto|]. unfold key; simpl. repeat f_equal; lia.
  - exists 1. split; [simpl; tauto|]. unfold key; simpl. repeat f_equal; lia.
  - exists 5. split; [simpl; tauto|]. unfold key; simpl. repeat f_equal; lia.
  - exists 3. split; [simpl; tauto|]. unfold key; simpl. repeat f_equal; lia.
  - exists 7. split; [simpl; tauto|]. unfold key; simpl. repeat f_equal; lia.
Qed.

Lemma in_domain_key (a b : TMROctant) :
  key a = key b -> in_domain a = in_domain b.
Proof. unfold key, in_domain. intros [= -> -> -> _]. reflexivity. Qed.

Lemma sorted_map_okey (l1 l2 : list TMROctant) :
  map okey l1 = map okey l2 -> Sorted olt l1 -> Sorted olt l2.
Proof.
  revert l2. induction l1 as [|a t IH]; intros [|b t2] E S;
    try discriminate; [constructor|].
  assert (E1 : okey a = okey b) by (cbn [map] in E; congruence).
  assert (E2 : map okey t = map okey t2) by (cbn [map] in E; congruence).
  inversion S as [|? ? S1 S2]; subst. constructor; [now apply IH|].
  destruct t as [|c t]; destruct t2 as [|d t2]; try discriminate; constructor.
  inversion S2; subst.
  assert (E3 : okey c = okey d) by (cbn [map] in E2; congruence).
  eapply olt_okey; eassumption.
Qed.

(** C4 (amended).  Let the element array be sorted, duplicate-free, made of
    valid octants that are all at [max_level], and let it hold with every
    element the siblings of that element lying in the domain.  Then [refine]
    with a refinement array of positive entries, one per element, returns
    the same sequence of elements. *)
Theorem refine_at_max_level_unchanged (tree : TMROctree) (refinement : list Z)
  (min_level max_level : Z) :
  sorted (elements tree) = true ->
  forallb valid (elements tree) = true ->
  family_closed (elements tree) = true ->
  forallb (fun e => level e =? max_level) (elements tree) = true ->
  length refinement = length (elements tree) ->
  forallb (fun v => 0 <? v) refinement = true ->
  map key (elements (refine tree refinement min_level max_level))
  = map key (elements tree).
Proof.
  intros Hs Hv Hf Hl Hlen Hr. unfold refine.
  set (mn := if (if min_level <? 0 then 0 else min_level) >?
                (if max_level >? TMR_MAX_LEVEL then TMR_MAX_LEVEL else max_level)
             then (if max_level >? TMR_MAX_LEVEL then TMR_MAX_LEVEL else max_level)
             else (if min_level <? 0 then 0 else min_level)).
  set (mx := if max_level >? TMR_MAX_LEVEL then TMR_MAX_LEVEL else max_level).
  unfold hash_toArray. cbn [elements].
  rewrite refine_seed_loop_positive by assumption.
  assert (Hid : map (fun o => if level o <? mx then set_level o (level o + 1) else o)
                    (elements tree) = elements tree).
  { rewrite <- (map_id (elements tree)) at 2. apply map_ext_in.
    intros o Ho. rewrite forallb_forall in Hl, Hv.
    specialize (Hl o Ho). specialize (Hv o Ho). apply Z.eqb_eq in Hl.
    pose proof (valid_range o Hv). subst mx.
    destruct (Z.gtb_spec max_level TMR_MAX_LEVEL); [lia|].
    destruct (Z.ltb_spec (level o) max_level); [lia|reflexivity]. }
  rewrite Hid.
  pose proof (proj1 (sorted_Sorted _) Hs) as S.
  rewrite (hash_of_sorted (elements tree) []) by (now apply Sorted_olt_strong).
  cbn [app]. rewrite (TMROctantArray_sort_id (elements tree)) by assumption.
  set (hash2 := refine_sibling_loop (elements tree) []).
  assert (D2 : forallb in_domain hash2 = true).
  { apply forallb_forall. intros c Hc. subst hash2.
    apply refine_sibling_loop_incl in Hc. destruct Hc as [[]|Hc]. assumption. }
  assert (Hin : forall c, In c (TMROctantArray_sort (TMROctantArray_sort hash2)) ->
                          In c hash2).
  { intros c Hc. now apply TMROctantArray_sort_incl, TMROctantArray_sort_incl. }
  apply map_okey_key.
  - apply forallb_forall. intros c Hc. rewrite forallb_forall in D2.
    apply D2. now apply Hin.
  - apply forallb_forall. intros c Hc. rewrite forallb_forall in Hv.
    apply valid_in_domain. now apply Hv.
  - apply Sorted_olt_unique; [apply TMROctantArray_sort_Sorted|assumption|].
    intros k. rewrite !TMROctantArray_sort_okey. subst hash2.
    rewrite refine_sibling_loop_okey. split.
    + intros [[]|(o & j & Ho & Hj & Hd & ->)].
      unfold family_closed in Hf. rewrite forallb_forall in Hf.
      specialize (Hf o Ho). rewrite forallb_forall in Hf.
      specialize (Hf j Hj). cbv zeta in Hf. rewrite Hd in Hf. simpl in Hf.
      apply existsb_exists in Hf. destruct Hf as (c & Hc & E).
      apply key_eqb_okey in E. rewrite E. now apply in_map.
    + intros Hk. apply in_map_iff in Hk. destruct Hk as (o & <- & Ho).
      right. destruct (getSibling_self o) as (j & Hj & E).
      exists o, j. split; [assumption|]. split; [assumption|]. split.
      * rewrite (in_domain_key _ _ E). apply valid_in_domain.
        rewrite forallb_forall in Hv. now apply Hv.
      * symmetry. now apply key_okey.
Qed.

(** ** Families of children *)

Lemma land_pow2_mul (k m : Z) :
  0 <= k -> Z.land (2 ^ k * m) (2 ^ k) = 2 ^ k * (m mod 2).
Proof.
  intros Hk. rewrite !(Z.mul_comm (2 ^ k)), <- !Z.shiftl_mul_pow2 by lia.
  rewrite <- (Z.shiftl_1_l k) at 1.
  rewrite <- Z.shiftl_land. f_equal.
  change 1 with (Z.ones 1). rewrite Z.land_ones by lia. reflexivity.
Qed.

Lemma ldiff_aligned (k q : Z) :
  0 <= k -> Z.ldiff (2 ^ k * q) (2 ^ k - 1) = 2 ^ k * q.
Proof.
  intros Hk. replace (2 ^ k - 1) with (Z.ones k) by (rewrite Z.ones_equiv; lia).
  rewrite Z.ldiff_ones_r by lia.
  rewrite Z.shiftr_div_pow2, Z.shiftl_mul_pow2 by lia.
  rewrite (Z.mul_comm (2 ^ k) q), Z.div_mul; [reflexivity|].
  apply Z.pow_nonzero; lia.
Qed.

(** The shape of an octant below the deepest level: its edge is twice the
    edge [2^k] of its children and its coordinates are even multiples of
    [2^k]. *)
Lemma parent_decomp (o : TMROctant) :
  valid o = true -> level o < TMR_MAX_LEVEL ->
  exists (k m : nat) (qx qy qz : Z),
    (S k + m = Z.to_nat TMR_MAX_LEVEL)%nat /\ Z.of_nat m = level o /\
    edge (level o + 1) = 2 ^ Z.of_nat k /\
    edge (level o) = 2 * 2 ^ Z.of_nat k /\
    span (level o + 1) = 8 ^ Z.of_nat k /\
    span (level o) = 8 * 8 ^ Z.of_nat k /\
    x o = 2 * 2 ^ Z.of_nat k * qx /\ y o = 2 * 2 ^ Z.of_nat k * qy /\
    z o = 2 * 2 ^ Z.of_nat k * qz.
Proof.
  intros V L.
  destruct (valid_decomp o V)
    as (k & m & qx & qy & qz & Ekm & Em & Eh & Es & EH & Ex & Hx & Ey & Hy
        & Ez & Hz & EM).
  pose proof (valid_range o V) as R.
  destruct k as [|k]; [lia|].
  exists k, m, qx, qy, qz.
  rewrite Nat2Z.inj_succ, Z.pow_succ_r in * by lia.
  assert (Ek : Z.of_nat k = TMR_MAX_LEVEL - (level o + 1)) by lia.
  repeat split; try assumption.
  - rewrite edge_pow2 by lia. now rewrite Ek.
  - unfold span. now rewrite Ek.
Qed.

Section Family.

Variable o : TMROctant.
Hypothesis o_valid : valid o = true.
Hypothesis o_level : level o < TMR_MAX_LEVEL.

Let c0 : TMROctant := set_level o (level o + 1).
Let h' : Z := edge (level o + 1).

Lemma child_land0 :
  Z.land (x o) h' = 0 /\ Z.land (y o) h' = 0 /\ Z.land (z o) h' = 0.
Proof.
  destruct (parent_decomp o o_valid o_level)
    as (k & m & qx & qy & qz & _ & _ & Eh & _ & _ & _ & Ex & Ey & Ez).
  unfold h'. rewrite Eh, Ex, Ey, Ez.
  replace (2 * 2 ^ Z.of_nat k * qx) with (2 ^ Z.of_nat k * (qx * 2)) by lia.
  replace (2 * 2 ^ Z.of_nat k * qy) with (2 ^ Z.of_nat k * (qy * 2)) by lia.
  replace (2 * 2 ^ Z.of_nat k * qz) with (2 ^ Z.of_nat k * (qz * 2)) by lia.
  rewrite !land_pow2_mul, !Z.mod_mul by lia. lia.
Qed.

Lemma child_land1 :
  Z.land (x o + h') h' = h' /\ Z.land (y o + h') h' = h' /\
  Z.land (z o + h') h' = h'.
Proof.
  destruct (parent_decomp o o_valid o_level)
    as (k & m & qx & qy & qz & _ & _ & Eh & _ & _ & _ & Ex & Ey & Ez).
  unfold h'. rewrite Eh, Ex, Ey, Ez.
  replace (2 * 2 ^ Z.of_nat k * qx + 2 ^ Z.of_nat k)
    with (2 ^ Z.of_nat k * (1 + qx * 2)) by lia.
  replace (2 * 2 ^ Z.of_nat k * qy + 2 ^ Z.of_nat k)
    with (2 ^ Z.of_nat k * (1 + qy * 2)) by lia.
  replace (2 * 2 ^ Z.of_nat k * qz + 2 ^ Z.of_nat k)
    with (2 ^ Z.of_nat k * (1 + qz * 2)) by lia.
  rewrite !land_pow2_mul, !Z.mod_add by lia.
  change (1 mod 2) with 1. lia.
Qed.

Lemma h'_pos : 0 < h'.
Proof.
  unfold h'. apply edge_pos. lia.
Qed.

(** The [j]-th child, coordinate by coordinate. *)
Lemma child_key (j : Z) :
  In j [0; 1; 2; 3; 4; 5; 6; 7] ->
  key (getSibling j c0) =
  (x o + h' * (j mod 2), y o + h' * (j / 2 mod 2), z o + h' * (j / 4 mod 2),
   level o + 1).
Proof.
  intros Hj. pose proof (valid_range o o_valid) as R.
  destruct child_land0 as (Lx & Ly & Lz).
  unfold getSibling, c0. cbn [level set_level x y z].
  destruct (Z.leb_spec (level o + 1) 0); [lia|].
  fold h'. rewrite Lx, Ly, Lz. cbn [Z.eqb].
  simpl in Hj.
  destruct Hj as [<-|[<-|[<-|[<-|[<-|[<-|[<-|[<-|[]]]]]]]]];
    unfold key; cbn; repeat f_equal; lia.
Qed.

Lemma child_morton (j : Z) :
  In j [0; 1; 2; 3; 4; 5; 6; 7] ->
  morton (getSibling j c0) = morton o + span (level o + 1) * j.
Proof.
  intros Hj. pose proof (child_key j Hj) as K.
  unfold key in K. injection K as Kx Ky Kz Kl.
  destruct (parent_decomp o o_valid o_level)
    as (k & m & qx & qy & qz & Ekm & _ & Eh & _ & Es & _ & Ex & Ey & Ez).
  unfold morton. rewrite Kx, Ky, Kz. unfold h'. rewrite Eh, Es, Ex, Ey, Ez.
  replace (S (Z.to_nat TMR_MAX_LEVEL)) with (k + S (S m))%nat by lia.
  assert (B : 0 <= j mod 2 < 2 /\ 0 <= j / 2 mod 2 < 2 /\ 0 <= j / 4 mod 2 < 2).
  { repeat split; try (apply Z.mod_pos_bound; lia). }
  rewrite interleave_child by lia. f_equal. f_equal.
  simpl in Hj.
  destruct Hj as [<-|[<-|[<-|[<-|[<-|[<-|[<-|[<-|[]]]]]]]]]; reflexivity.
Qed.

Lemma child_valid (j : Z) :
  In j [0; 1; 2; 3; 4; 5; 6; 7] -> valid (getSibling j c0) = true.
Proof.
  intros Hj. pose proof (child_key j Hj) as K.
  unfold key in K. injection K as Kx Ky Kz Kl.
  pose proof (valid_range o o_valid) as R.
  pose proof (edge_double (level o) o_level) as D. fold h' in D.
  pose proof h'_pos as P.
  destruct (parent_decomp o o_valid o_level)
    as (k & m & qx & qy & qz & _ & _ & Eh & _ & _ & _ & Ex & Ey & Ez).
  assert (B : 0 <= j mod 2 < 2 /\ 0 <= j / 2 mod 2 < 2 /\ 0 <= j / 4 mod 2 < 2).
  { repeat split; try (apply Z.mod_pos_bound; lia). }
  apply valid_spec. rewrite Kx, Ky, Kz, Kl. fold h'.
  assert (M : forall q b, (2 * h' * q + h' * b) mod h' = 0).
  { intros q b. replace (2 * h' * q + h' * b) with ((2 * q + b) * h') by lia.
    apply Z.mod_mul. lia. }
  fold h' in Eh. rewrite <- Eh in Ex, Ey, Ez.
  split; [lia|]. rewrite Ex, Ey, Ez, !M.
  rewrite <- Ex, <- Ey, <- Ez. nia.
Qed.

Lemma child_in_domain (j : Z) :
  In j [0; 1; 2; 3; 4; 5; 6; 7] -> in_domain (getSibling j c0) = true.
Proof. intros Hj. apply valid_in_domain, child_valid, Hj. Qed.

Lemma child_childId (j : Z) :
  In j [0; 1; 2; 3; 4; 5; 6; 7] -> childId (getSibling j c0) = j.
Proof.
  intros Hj. pose proof (child_key j Hj) as K.
  unfold key in K. injection K as Kx Ky Kz Kl.
  destruct child_land0 as (Lx & Ly & Lz).
  destruct child_land1 as (Lx1 & Ly1 & Lz1).
  pose proof h'_pos as P.
  unfold childId. rewrite Kx, Ky, Kz, Kl. fold h'.
  simpl in Hj.
  destruct Hj as [<-|[<-|[<-|[<-|[<-|[<-|[<-|[<-|[]]]]]]]]];
    cbn [Z.modulo Z.div Z.div_eucl Z.pos_div_eucl Z.mul Z.leb Z.compare Z.ltb
         Z.sub Z.add Z.opp Z.pos_sub Z.succ_double Z.pred_double Z.double
         Pos.compare Pos.compare_cont Pos.mul Pos.add Pos.succ fst snd];
    rewrite ?Z.mul_0_r, ?Z.mul_1_r, ?Z.add_0_r, ?Lx, ?Ly, ?Lz, ?Lx1, ?Ly1, ?Lz1;
    rewrite ?Z.eqb_refl;
    destruct (Z.eqb_spec h' 0); try lia; reflexivity.
Qed.

Lemma child_sibling0 (j : Z) :
  In j [0; 1; 2; 3; 4; 5; 6; 7] ->
  key (getSibling 0 (getSibling j c0)) = key (getSibling 0 c0).
Proof.
  intros Hj. pose proof (child_key j Hj) as K.
  pose proof (child_key 0 ltac:(simpl; tauto)) as K0.
  unfold key in K. injection K as Kx Ky Kz Kl.
  destruct child_land0 as (Lx & Ly & Lz).
  destruct child_land1 as (Lx1 & Ly1 & Lz1).
  pose proof h'_pos as P. pose proof (valid_range o o_valid) as R.
  rewrite K0.
  unfold getSibling at 1. rewrite Kl.
  destruct (Z.leb_spec (level o + 1) 0); [lia|].
  unfold key. cbn [x y z level set_xyz]. rewrite Kx, Ky, Kz, Kl. fold h'.
  change (Z.land 0 1 =? 0) with true. change (Z.land 0 2 =? 0) with true.
  change (Z.land 0 4 =? 0) with true. cbv iota.
  simpl in Hj.
  destruct Hj as [<-|[<-|[<-|[<-|[<-|[<-|[<-|[<-|[]]]]]]]]];
    cbn [Z.modulo Z.div Z.div_eucl Z.pos_div_eucl Z.mul Z.leb Z.compare Z.ltb
         Z.sub Z.add Z.opp Z.pos_sub Z.succ_double Z.pred_double Z.double
         Pos.compare Pos.compare_cont Pos.mul Pos.add Pos.succ fst snd];
    rewrite ?Z.mul_0_r, ?Z.mul_1_r, ?Z.add_0_r, ?Lx, ?Ly, ?Lz, ?Lx1, ?Ly1, ?Lz1;
    rewrite ?Z.eqb_refl;
    destruct (Z.eqb_spec h' 0); try lia; repeat f_equal; lia.
Qed.

Lemma child_parent : key (parent (getSibling 0 c0)) = key o.
Proof.
  pose proof (child_key 0 ltac:(simpl; tauto)) as K.
  unfold key in K. injection K as Kx Ky Kz Kl.
  change (0 mod 2) with 0 in *. change (0 / 2 mod 2) with 0 in *.
  change (0 / 4 mod 2) with 0 in *. rewrite Z.mul_0_r, Z.add_0_r in *.
  destruct (parent_decomp o o_valid o_level)
    as (k & m & qx & qy & qz & _ & _ & Eh & _ & _ & _ & Ex & Ey & Ez).
  unfold parent, key. cbn [x y z level]. rewrite Kx, Ky, Kz, Kl, Eh.
  rewrite Ex, Ey, Ez.
  replace (2 * 2 ^ Z.of_nat k) with (2 ^ (Z.of_nat k + 1))
    by (rewrite Z.pow_add_r by lia; lia).
  rewrite !ldiff_aligned by lia. repeat f_equal. lia.
Qed.

End Family.

(** ** [coarsen] after [refine] *)

Lemma StronglySorted_app (l1 l2 : list TMROctant) :
  StronglySorted olt l1 -> StronglySorted olt l2 ->
  (forall a b, In a l1 -> In b l2 -> olt a b) ->
  StronglySorted olt (l1 ++ l2).
Proof.
  intros S1 S2 H. induction S1 as [|a t St IH Ha]; simpl; [assumption|].
  constructor.
  - apply IH. intros c d Hc Hd. apply H; [now right|assumption].
  - apply Forall_app. split; [assumption|].
    apply Forall_forall. intros d Hd. apply H; [now left|assumption].
Qed.

Lemma children_In (o c : TMROctant) :
  In c (children o) <->
  exists j, In j [0; 1; 2; 3; 4; 5; 6; 7] /\
            c = getSibling j (set_level o (level o + 1)).
Proof.
  unfold children. rewrite in_map_iff. split; intros (j & H1 & H2); eauto.
Qed.

Lemma children_sorted (o : TMROctant) :
  valid o = true -> level o < TMR_MAX_LEVEL ->
  StronglySorted olt (children o).
Proof.
  intros V L. apply Sorted_olt_strong. unfold children. cbn [map].
  pose proof (span_pos (level o + 1) ltac:(lia)) as P.
  assert (K : forall j, In j [0; 1; 2; 3; 4; 5; 6; 7] ->
    morton (getSibling j (set_level o (level o + 1)))
    = morton o + span (level o + 1) * j) by (apply child_morton; assumption).
  assert (Hlt : forall i j, In i [0; 1; 2; 3; 4; 5; 6; 7] ->
    In j [0; 1; 2; 3; 4; 5; 6; 7] -> i < j ->
    olt (getSibling i (set_level o (level o + 1)))
        (getSibling j (set_level o (level o + 1)))).
  { intros i j Hi Hj Hij. left. cbn [okey fst]. rewrite !K by assumption. nia. }
  repeat (constructor; [|try (constructor; apply Hlt; simpl; try tauto; lia)]).
  constructor.
Qed.

Lemma children_bounds (o c : TMROctant) :
  valid o = true -> level o < TMR_MAX_LEVEL -> In c (children o) ->
  morton o <= morton c < morton o + span (level o).
Proof.
  intros V L Hc. apply children_In in Hc. destruct Hc as (j & Hj & ->).
  rewrite (child_morton o V L j Hj).
  destruct (parent_decomp o V L)
    as (k & m & qx & qy & qz & _ & _ & _ & _ & Es & Es2 & _).
  rewrite Es, Es2.
  assert (0 < 8 ^ Z.of_nat k) by (apply Z.pow_pos_nonneg; lia).
  simpl in Hj.
  destruct Hj as [<-|[<-|[<-|[<-|[<-|[<-|[<-|[<-|[]]]]]]]]]; lia.
Qed.

(** The children of the elements of a sorted leaf set, family after family,
    are in Morton order. *)
Lemma flat_children_sorted (l : list TMROctant) :
  sorted l = true -> forallb valid l = true -> leaves l = true ->
  forallb (fun e => level e <? TMR_MAX_LEVEL) l = true ->
  StronglySorted olt (flat_map children l).
Proof.
  intros Hs Hv Hl Hd.
  assert (Hnth : forall i j a b, (i < j)%nat -> nth_error l i = Some a ->
            nth_error l j = Some b -> morton a + span (level a) <= morton b).
  { intros i j a b. now apply elems_disjoint. }
  rewrite forallb_forall in Hv, Hd. clear Hs Hl.
  induction l as [|o t IH]; [constructor|].
  cbn [flat_map].
  assert (Vo : valid o = true) by (apply Hv; now left).
  assert (Lo : level o < TMR_MAX_LEVEL) by (apply Z.ltb_lt, Hd; now left).
  apply StronglySorted_app.
  - now apply children_sorted.
  - apply IH.
    + intros e He. apply Hv. now right.
    + intros e He. apply Hd. now right.
    + intros i j a b Hij Ha Hb. apply (Hnth (S i) (S j)); [lia|assumption..].
  - intros c d Hc Hd'. apply in_flat_map in Hd'. destruct Hd' as (o' & Ho' & Hd').
    apply In_nth_error in Ho'. destruct Ho' as [n Hn].
    assert (Vo' : valid o' = true) by (apply Hv; right; eapply nth_error_In; eassumption).
    assert (Lo' : level o' < TMR_MAX_LEVEL)
      by (apply Z.ltb_lt, Hd; right; eapply nth_error_In; eassumption).
    pose proof (Hnth 0%nat (S n) o o' ltac:(lia) eq_refl Hn) as D.
    pose proof (children_bounds o c Vo Lo Hc).
    pose proof (children_bounds o' d Vo' Lo' Hd').
    left. cbn [okey fst]. lia.
Qed.

Lemma refine_sibling_loop_children (l : list TMROctant) (k : Z * Z) :
  forallb valid l = true ->
  forallb (fun e => level e <? TMR_MAX_LEVEL) l = true ->
  In k (map okey (refine_sibling_loop
                    (map (fun o => set_level o (level o + 1)) l) [])) <->
  In k (map okey (flat_map children l)).
Proof.
  intros Hv Hd. rewrite forallb_forall in Hv, Hd.
  rewrite refine_sibling_loop_okey. split.
  - intros [[]|(c & j & Hc & Hj & _ & ->)].
    apply in_map_iff in Hc. destruct Hc as (o & <- & Ho).
    apply in_map. apply in_flat_map. exists o. split; [assumption|].
    apply children_In. eauto.
  - intros Hk. apply in_map_iff in Hk. destruct Hk as (c & <- & Hc).
    apply in_flat_map in Hc. destruct Hc as (o & Ho & Hc).
    apply children_In in Hc. destruct Hc as (j & Hj & ->).
    right. exists (set_level o (level o + 1)), j.
    split; [apply in_map_iff; exists o; auto|]. split; [assumption|].
    split; [|reflexivity].
    apply child_in_domain; [now apply Hv|apply Z.ltb_lt; now apply Hd|assumption].
Qed.

(** What [refine] makes of a sorted leaf set all of whose elements are
    refined: the children of the elements, family after family. *)
Lemma refine_all_children (tree : TMROctree) (refinement : list Z) :
  sorted (elements tree) = true -> forallb valid (elements tree) = true ->
  leaves (elements tree) = true ->
  forallb (fun e => level e <? TMR_MAX_LEVEL) (elements tree) = true ->
  length refinement = length (elements tree) ->
  forallb (fun v => 0 <? v) refinement = true ->
  map key (elements (refine tree refinement 0 TMR_MAX_LEVEL))
  = map key (flat_map children (elements tree)).
Proof.
  intros Hs Hv Hl Hd Hlen Hr. unfold refine.
  change (0 <? 0) with false. cbv iota.
  destruct (Z.gtb_spec TMR_MAX_LEVEL TMR_MAX_LEVEL) as [|_]; [lia|].
  destruct (Z.gtb_spec 0 TMR_MAX_LEVEL) as [|_]; [lia|].
  unfold hash_toArray. cbn [elements].
  rewrite refine_seed_loop_positive by assumption.
  assert (Hid : map (fun o => if level o <? TMR_MAX_LEVEL
                              then set_level o (level o + 1) else o)
                    (elements tree)
                = map (fun o => set_level o (level o + 1)) (elements tree)).
  { apply map_ext_in. intros o Ho. rewrite forallb_forall in Hd.
    now rewrite (Hd o Ho). }
  rewrite Hid.
  assert (S0 : Sorted olt (map (fun o => set_level o (level o + 1)) (elements tree))).
  { apply sorted_Sorted in Hs. clear - Hs.
    induction Hs as [|a t St IH Ha]; cbn [map]; constructor; [assumption|].
    destruct Ha as [|b t Hab]; cbn [map]; constructor.
    unfold olt, lex_lt, okey, morton in *. cbn [fst snd x y z level set_level] in *.
    lia. }
  rewrite (hash_of_sorted _ []) by (now apply Sorted_olt_strong).
  cbn [app]. rewrite (TMROctantArray_sort_id _ S0).
  set (hash2 := refine_sibling_loop
                  (map (fun o => set_level o (level o + 1)) (elements tree)) []).
  assert (D2 : forallb in_domain hash2 = true).
  { apply forallb_forall. intros c Hc. subst hash2.
    apply refine_sibling_loop_incl in Hc. destruct Hc as [[]|Hc]. assumption. }
  apply map_okey_key.
  - apply forallb_forall. intros c Hc. rewrite forallb_forall in D2.
    apply D2. now apply TMROctantArray_sort_incl, TMROctantArray_sort_incl.
  - apply forallb_forall. intros c Hc. apply in_flat_map in Hc.
    destruct Hc as (o & Ho & Hc). apply children_In in Hc.
    destruct Hc as (j & Hj & ->). rewrite forallb_forall in Hv, Hd.
    apply child_in_domain; [now apply Hv|apply Z.ltb_lt; now apply Hd|assumption].
  - apply Sorted_olt_unique.
    + apply TMROctantArray_sort_Sorted.
    + apply StronglySorted_Sorted. now apply flat_children_sorted.
    + intros k. rewrite !TMROctantArray_sort_okey. subst hash2.
      now apply refine_sibling_loop_children.
Qed.

(** The operations of the scan read the key of an octant only. *)
Lemma childId_key (a b : TMROctant) : key a = key b -> childId a = childId b.
Proof. unfold key, childId. intros [= -> -> -> ->]. reflexivity. Qed.

Lemma getSibling_key (j : Z) (a b : TMROctant) :
  key a = key b -> key (getSibling j a) = key (getSibling j b).
Proof.
  unfold key at 1 2. intros [= Ex Ey Ez El]. unfold getSibling.
  rewrite Ex, Ey, Ez, El. destruct (level b <=? 0); unfold key; cbn;
    now rewrite ?Ex, ?Ey, ?Ez, ?El.
Qed.

Lemma parent_key (a b : TMROctant) :
  key a = key b -> key (parent a) = key (parent b).
Proof.
  unfold key at 1 2. intros [= Ex Ey Ez El]. unfold parent, key; cbn.
  now rewrite Ex, Ey, Ez, El.
Qed.

Lemma compare_key (a b a' b' : TMROctant) :
  key a = key a' -> key b = key b' -> compare a b = compare a' b'.
Proof.
  intros Ha Hb. apply key_okey in Ha, Hb. unfold okey in Ha, Hb.
  injection Ha as Ha1 Ha2. injection Hb as Hb1 Hb2.
  unfold compare. now rewrite Ha1, Ha2, Hb1, Hb2.
Qed.

Lemma coarsen_scan_queue (skip : nat) (array queue : list TMROctant) :
  coarsen_scan skip array queue = queue ++ coarsen_scan skip array [].
Proof.
  revert skip queue. induction array as [|a rest IH]; intros skip queue.
  - simpl. now rewrite app_nil_r.
  - cbn [coarsen_scan]. destruct skip as [|k]; [|apply IH].
    unfold queue_push.
    match goal with |- context [if ?c then _ else _] => destruct c end;
      rewrite (IH _ (queue ++ _)), (IH _ ([] ++ _)), <- app_assoc; reflexivity.
Qed.

Lemma coarsen_scan_here (a : TMROctant) (rest : list TMROctant) :
  coarsen_scan 0 (a :: rest) [] =
  if (level a >? 0) && (childId a =? 0)
     && (7 <? Z.of_nat (length (a :: rest)))
     && (childId (nth 7 (a :: rest) a) =? 7)
     && (compare a (getSibling 0 (nth 7 (a :: rest) a)) =? 0)
  then parent a :: coarsen_scan 7 rest []
  else a :: coarsen_scan 0 rest [].
Proof.
  cbn [coarsen_scan]. unfold queue_push.
  match goal with |- context [if ?c then _ else _] => destruct c end;
    now rewrite coarsen_scan_queue.
Qed.

Lemma coarsen_scan_skip (k : nat) (a : TMROctant)
  (rest queue : list TMROctant) :
  coarsen_scan (S k) (a :: rest) queue = coarsen_scan k rest queue.
Proof. reflexivity. Qed.

Lemma coarsen_scan_key (skip : nat) (l1 l2 : list TMROctant) :
  map key l1 = map key l2 ->
  map key (coarsen_scan skip l1 []) = map key (coarsen_scan skip l2 []).
Proof.
  revert skip l2. induction l1 as [|a t IH]; intros skip [|b t2] E;
    try discriminate; [reflexivity|].
  assert (E1 : key a = key b) by (cbn [map] in E; congruence).
  assert (E2 : map key t = map key t2) by (cbn [map] in E; congruence).
  destruct skip as [|k]; [|rewrite !coarsen_scan_skip; now apply IH].
  rewrite !coarsen_scan_here.
  assert (El : level a = level b) by (unfold key in E1; congruence).
  assert (En : key (nth 7 (a :: t) a) = key (nth 7 (b :: t2) b)).
  { rewrite <- !(map_nth key). now rewrite E, E1. }
  assert (Elen : length (a :: t) = length (b :: t2)).
  { rewrite <- (length_map key (a :: t)), E. apply length_map. }
  rewrite El, (childId_key _ _ E1), Elen, (childId_key _ _ En).
  rewrite (compare_key a (getSibling 0 (nth 7 (a :: t) a))
                       b (getSibling 0 (nth 7 (b :: t2) b)))
    by (try assumption; now apply getSibling_key).
  match goal with |- context [if ?c then _ else _] => destruct c end;
    cbn [map]; f_equal; try (now apply IH); try assumption.
  now apply parent_key.
Qed.

(** The scan turns a family of eight children back into the parent. *)
Lemma coarsen_scan_family (o : TMROctant) (rest : list TMROctant) :
  valid o = true -> level o < TMR_MAX_LEVEL ->
  coarsen_scan 0 (children o ++ rest) []
  = parent (getSibling 0 (set_level o (level o + 1)))
    :: coarsen_scan 0 rest [].
Proof.
  intros Vo Lo. unfold children. cbn [map app].
  rewrite coarsen_scan_here. cbn [nth].
  pose proof (valid_range o Vo) as R.
  pose proof (child_key o Vo Lo 0 ltac:(simpl; tauto)) as K0.
  assert (L0 : level (getSibling 0 (set_level o (level o + 1))) = level o + 1)
    by (unfold key in K0; congruence).
  assert (C : compare (getSibling 0 (set_level o (level o + 1)))
                (getSibling 0 (getSibling 7 (set_level o (level o + 1)))) = 0).
  { apply Z.eqb_eq, compare_eq, key_okey. symmetry.
    apply child_sibling0; [assumption..|simpl; tauto]. }
  rewrite L0, C.
  rewrite (child_childId o Vo Lo 0), (child_childId o Vo Lo 7)
    by (simpl; tauto).
  destruct (Z.gtb_spec (level o + 1) 0) as [_|]; [|lia].
  match goal with
  | |- context [7 <? ?n] =>
      destruct (Z.ltb_spec 7 n) as [_|Hbad]; [|cbn [length] in Hbad; lia]
  end.
  change (0 =? 0) with true. change (7 =? 7) with true. cbn [andb].
  now rewrite !coarsen_scan_skip.
Qed.

Lemma coarsen_scan_children (l : list TMROctant) :
  forallb valid l = true ->
  forallb (fun e => level e <? TMR_MAX_LEVEL) l = true ->
  map key (coarsen_scan 0 (flat_map children l) []) = map key l.
Proof.
  intros Hv Hd. induction l as [|o t IH]; [reflexivity|].
  cbn [forallb] in Hv, Hd. apply andb_true_iff in Hv, Hd.
  destruct Hv as [Vo Hv]. destruct Hd as [Lo Hd]. apply Z.ltb_lt in Lo.
  cbn [flat_map]. rewrite coarsen_scan_family by assumption.
  cbn [map]. f_equal.
  - now apply child_parent.
  - now apply IH.
Qed.

(** C1 (amended).  Let the element array be sorted, duplicate-free, made of
    valid octants of level below [TMR_MAX_LEVEL], and let no cube of the
    array contain the cube of another entry.  Refining every element (a
    positive refinement entry per element, bounds 0 and [TMR_MAX_LEVEL]) and
    coarsening the result returns the sequence of elements one started
    from. *)
Theorem coarsen_refine_roundtrip (tree : TMROctree) (refinement : list Z) :
  sorted (elements tree) = true ->
  forallb valid (elements tree) = true ->
  leaves (elements tree) = true ->
  forallb (fun e => level e <? TMR_MAX_LEVEL) (elements tree) = true ->
  length refinement = length (elements tree) ->
  forallb (fun v => 0 <? v) refinement = true ->
  map key (elements (coarsen (refine tree refinement 0 TMR_MAX_LEVEL)))
  = map key (elements tree).
Proof.
  intros Hs Hv Hl Hd Hlen Hr.
  pose proof (refine_all_children tree refinement Hs Hv Hl Hd Hlen Hr) as R.
  unfold coarsen, TMROctree_of_array, queue_toArray. cbn [elements].
  assert (Q : map key (coarsen_scan 0
                (elements (refine tree refinement 0 TMR_MAX_LEVEL)) [])
              = map key (elements tree)).
  { rewrite (coarsen_scan_key 0 _ _ R). now apply coarsen_scan_children. }
  rewrite TMROctantArray_sort_id; [assumption|].
  apply sorted_map_okey with (elements tree); [|now apply sorted_Sorted].
  symmetry. clear - Q.
  revert Q. generalize (elements tree).
  generalize (coarsen_scan 0 (elements (refine tree refinement 0 TMR_MAX_LEVEL)) []).
  induction l as [|a t IH]; intros [|b t2] E; try discriminate; [reflexivity|].
  cbn [map] in *. f_equal; [apply key_okey; congruence|apply IH; congruence].
Qed.

(** ** [createNodes] *)

Lemma clamp_order_spec (_order : Z) :
  clamp_order _order = Z.max 2 (Z.min 3 _order) /\
  (clamp_order _order = 2 \/ clamp_order _order = 3).
Proof.
  unfold clamp_order.
  destruct (Z.ltb_spec _order 2); destruct (Z.gtb_spec 2 3);
    destruct (Z.gtb_spec _order 3); lia.
Qed.

Lemma node_block_In (e : TMROctant) (h : Z) (n : list Z) (p : TMROctant) :
  In p (node_block e h n) <->
  exists ii jj kk, In ii n /\ In jj n /\ In kk n /\
    p = mkOctant (x e + ii * h) (y e + jj * h) (z e + kk * h) 0 1.
Proof.
  unfold node_block. rewrite in_flat_map. split.
  - intros (kk & Hk & H). rewrite in_flat_map in H. destruct H as (jj & Hj & H).
    rewrite in_map_iff in H. destruct H as (ii & H & Hi).
    exists ii, jj, kk. auto.
  - intros (ii & jj & kk & Hi & Hj & Hk & ->).
    exists kk. split; [assumption|]. rewrite in_flat_map.
    exists jj. split; [assumption|]. rewrite in_map_iff. exists ii. auto.
Qed.

Lemma node_block_length (e : TMROctant) (h : Z) (n : list Z) :
  length (node_block e h n) = (length n * (length n * length n))%nat.
Proof.
  unfold node_block.
  apply flat_map_constant_length. intros kk _.
  apply flat_map_constant_length. intros jj _.
  apply length_map.
Qed.

Lemma Sorted_olt_level0_NoDup (l : list TMROctant) :
  Sorted olt l -> Forall (fun p => level p = 0) l ->
  NoDup (map (fun p => (x p, y p, z p)) l).
Proof.
  intros H. apply Sorted_olt_strong in H.
  induction H as [|a t Ht IH Ha]; intros Hl; simpl; constructor.
  - intros Hin. apply in_map_iff in Hin. destruct Hin as (b & E & Hb).
    rewrite Forall_forall in Ha. specialize (Ha b Hb).
    inversion Hl as [|? ? La Lt]; subst.
    rewrite Forall_forall in Lt. specialize (Lt b Hb).
    injection E as E1 E2 E3.
    unfold olt, lex_lt, okey, morton in Ha. simpl in Ha.
    rewrite E1, E2, E3, La, Lt in Ha. lia.
  - apply IH. now inversion Hl.
Qed.

Lemma element_nodes_defined (n : Z) (e : TMROctant) :
  n = 2 \/ n = 3 -> level e + (n - 2) <= TMR_MAX_LEVEL ->
  element_nodes n e = Some (candidates n e).
Proof.
  intros Hn Hl. unfold element_nodes, candidates, node_step, edge.
  destruct Hn as [-> | ->];
    change (2 =? 2) with true; change (3 =? 2) with false;
    change (3 =? 3) with true; cbv iota.
  - destruct (Z.ltb_spec (TMR_MAX_LEVEL - level e) 0); [lia|reflexivity].
  - destruct (Z.ltb_spec (TMR_MAX_LEVEL - level e - 1) 0); [lia|].
    cbn [option_map]. do 3 f_equal. lia.
Qed.

Lemma all_element_nodes_defined (n : Z) (l : list TMROctant) :
  n = 2 \/ n = 3 -> levels_fit n l = true ->
  all_element_nodes n l = Some (flat_map (candidates n) l).
Proof.
  intros Hn. unfold levels_fit.
  induction l as [|e l IH]; cbn [forallb all_element_nodes flat_map];
    [reflexivity|].
  rewrite !andb_true_iff, Z.leb_le, Z.leb_le. intros [[_ He] Hl].
  rewrite (element_nodes_defined n e Hn He), (IH Hl). reflexivity.
Qed.

Lemma candidates_In (n : Z) (e p : TMROctant) :
  n = 2 \/ n = 3 ->
  In p (candidates n e) <->
  exists ii jj kk, 0 <= ii < n /\ 0 <= jj < n /\ 0 <= kk < n /\
    p = mkOctant
          (x e + ii * (if n =? 2 then edge (level e) else edge (level e) / 2))
          (y e + jj * (if n =? 2 then edge (level e) else edge (level e) / 2))
          (z e + kk * (if n =? 2 then edge (level e) else edge (level e) / 2))
          0 1.
Proof.
  intros Hn. unfold candidates.
  destruct Hn as [Hn|Hn]; rewrite Hn;
    change (2 =? 2) with true; change (3 =? 2) with false; cbv iota.
  - rewrite node_block_In. split.
    + intros (ii & jj & kk & Hi & Hj & Hk & ->). exists ii, jj, kk.
      simpl in Hi, Hj, Hk. repeat split; try lia.
    + intros (ii & jj & kk & Hi & Hj & Hk & ->). exists ii, jj, kk.
      simpl. repeat split; try lia.
  - rewrite node_block_In, edge_half. split.
    + intros (ii & jj & kk & Hi & Hj & Hk & ->). exists ii, jj, kk.
      simpl in Hi, Hj, Hk. repeat split; try lia.
    + intros (ii & jj & kk & Hi & Hj & Hk & ->). exists ii, jj, kk.
      simpl. repeat split; try lia.
Qed.

Lemma candidates_length (n : Z) (e : TMROctant) :
  n = 2 \/ n = 3 -> Z.of_nat (length (candidates n e)) = n * n * n.
Proof.
  intros Hn. unfold candidates.
  destruct Hn as [Hn|Hn]; rewrite Hn;
    change (2 =? 2) with true; change (3 =? 2) with false; cbv iota;
    rewrite node_block_length; reflexivity.
Qed.

(** The candidates of a valid octant lie in the doubled domain. *)
Lemma candidates_range (n : Z) (e p : TMROctant) :
  n = 2 \/ n = 3 -> valid e = true -> In p (candidates n e) ->
  0 <= x p < 2 * hmax /\ 0 <= y p < 2 * hmax /\ 0 <= z p < 2 * hmax.
Proof.
  intros Hn V Hp. apply (candidates_In n e p Hn) in Hp.
  destruct Hp as (ii & jj & kk & Hi & Hj & Hk & ->).
  pose proof (valid_range e V) as R. cbn [x y z].
  assert (S : forall i, 0 <= i < n ->
            0 <= i * (if n =? 2 then edge (level e) else edge (level e) / 2)
              <= edge (level e)).
  { intros i Hi'. destruct Hn as [Hn|Hn]; rewrite Hn in *;
      change (2 =? 2) with true; change (3 =? 2) with false; cbv iota.
    - nia.
    - pose proof (Z.mul_div_le (edge (level e)) 2 ltac:(lia)).
      assert (0 <= edge (level e) / 2) by (apply Z.div_pos; lia). nia. }
  pose proof (S ii Hi). pose proof (S jj Hj). pose proof (S kk Hk). lia.
Qed.

(** C7 (amended).  Let every element have a level in [[0, TMR_MAX_LEVEL]],
    and below [TMR_MAX_LEVEL] when the clamped order is 3, so that the step
    of every element is defined.  [createNodes] clamps the order into
    {2, 3}; for every element it emits order^3 candidates, at the positions
    [(x + ii*s, y + jj*s, z + kk*s)] with [0 <= ii, jj, kk < order], where
    the step [s] is the edge length [h] of the element for order 2 and [h/2]
    for order 3, each with level 0 and tag 1; the stored node array consists
    of candidates, holds the position of every candidate, is sorted in
    Morton order and has no two nodes with the same [(x, y, z)]; the element
    array is untouched. *)
Theorem createNodes_candidates_sorted_unique (tree : TMROctree) (_order : Z) :
  let n := clamp_order _order in
  let step e := if n =? 2 then edge (level e) else edge (level e) / 2 in
  levels_fit n (elements tree) = true ->
  n = Z.max 2 (Z.min 3 _order) /\ (n = 2 \/ n = 3) /\
  (forall e, In e (elements tree) ->
     exists cs, element_nodes n e = Some cs /\
       Z.of_nat (length cs) = n * n * n /\
       forall p, In p cs <->
         exists ii jj kk, 0 <= ii < n /\ 0 <= jj < n /\ 0 <= kk < n /\
           p = mkOctant (x e + ii * step e) (y e + jj * step e)
                        (z e + kk * step e) 0 1) /\
  exists tree' ns,
    createNodes tree _order = Some tree' /\
    order tree' = n /\ elements tree' = elements tree /\
    nodes tree' = Some ns /\
    Sorted olt ns /\
    NoDup (map (fun p => (x p, y p, z p)) ns) /\
    (forall p, In p ns ->
       exists e cs, In e (elements tree) /\ element_nodes n e = Some cs /\
                    In p cs) /\
    (forall e cs p, In e (elements tree) -> element_nodes n e = Some cs ->
       In p cs -> exists q, In q ns /\ morton q = morton p) /\
    (forallb valid (elements tree) = true ->
     forall e cs p, In e (elements tree) -> element_nodes n e = Some cs ->
       In p cs ->
       exists q, In q ns /\ (x q, y q, z q) = (x p, y p, z p)).
Proof.
  intros n step Hfit. destruct (clamp_order_spec _order) as [Hc Hn].
  fold n in Hc, Hn.
  split; [assumption|]. split; [assumption|].
  assert (Hel : forall e, In e (elements tree) ->
            element_nodes n e = Some (candidates n e)).
  { intros e He. apply element_nodes_defined; [assumption|].
    unfold levels_fit in Hfit. rewrite forallb_forall in Hfit.
    specialize (Hfit e He). rewrite andb_true_iff, Z.leb_le, Z.leb_le in Hfit.
    tauto. }
  split.
  - intros e He. exists (candidates n e). split; [now apply Hel|].
    split; [now apply candidates_length|]. intros p. now apply candidates_In.
  - unfold createNodes. fold n.
    rewrite (all_element_nodes_defined n (elements tree) Hn Hfit).
    set (all_nodes := flat_map (candidates n) (elements tree)).
    assert (Hall : forall e cs p, In e (elements tree) ->
              element_nodes n e = Some cs -> In p cs -> In p all_nodes).
    { intros e cs p He Hcs Hp. rewrite (Hel e He) in Hcs. injection Hcs as <-.
      apply in_flat_map. eauto. }
    do 2 eexists. split; [reflexivity|]. cbn [order elements nodes].
    split; [reflexivity|]. split; [reflexivity|]. split; [reflexivity|].
    split; [apply TMROctantArray_sort_Sorted|].
    split; [|split; [|split]].
    + apply Sorted_olt_level0_NoDup; [apply TMROctantArray_sort_Sorted|].
      apply Forall_forall. intros p Hp. apply TMROctantArray_sort_incl in Hp.
      apply in_flat_map in Hp. destruct Hp as (e & _ & Hp).
      apply (candidates_In n e p Hn) in Hp.
      destruct Hp as (ii & jj & kk & _ & _ & _ & ->). reflexivity.
    + intros p Hp. apply TMROctantArray_sort_incl in Hp.
      apply in_flat_map in Hp. destruct Hp as (e & He & Hp).
      exists e, (candidates n e). auto.
    + intros e cs p He Hcs Hp.
      destruct (TMROctantArray_sort_keeps _ _ (Hall e cs p He Hcs Hp))
        as (q & Hq & E).
      exists q. split; [assumption|]. unfold okey in E. congruence.
    + intros Hv e cs p He Hcs Hp. rewrite forallb_forall in Hv.
      destruct (TMROctantArray_sort_keeps _ _ (Hall e cs p He Hcs Hp))
        as (q & Hq & E).
      exists q. split; [assumption|].
      rewrite (Hel e He) in Hcs. injection Hcs as <-.
      destruct (candidates_range n e p Hn (Hv e He) Hp) as (Px & Py & Pz).
      pose proof Hq as Hq'. apply TMROctantArray_sort_incl in Hq'.
      apply in_flat_map in Hq'. destruct Hq' as (e' & He' & Hq').
      destruct (candidates_range n e' q Hn (Hv e' He') Hq') as (Qx & Qy & Qz).
      unfold okey in E. injection E as E _.
      destruct (morton_inj q p Qx Qy Qz Px Py Pz E) as (-> & -> & ->).
      reflexivity.
Qed.

(** ** [createInterpolation] *)

Lemma childId_cases (o : TMROctant) :
  In (childId o) [0; 1; 2; 3; 4; 5; 6; 7].
Proof.
  unfold childId.
  destruct (Z.land (x o) (edge (level o)) =? 0),
    (Z.land (y o) (edge (level o)) =? 0),
    (Z.land (z o) (edge (level o)) =? 0); simpl; tauto.
Qed.

Section InterpolationFacts.

Variable double : Type.
Variable dmul : double -> double -> double.
Variables d1_0 d0_5 d0_25 d0_125 : double.
Variable cdep_ptr : list Z.
Variable cdep_conn : list Z.
Variable cdep_weights : list double.

Ltac eq_keys :=
  repeat match goal with
         | |- (_ :: _) = (_ :: _) => f_equal
         | |- (_, _) = (_, _) => f_equal
         end; try reflexivity; lia.

(** The lookups of [gather] read the coordinates of the corners only. *)
Lemma gather_key (coarse_nodes ps qs : list TMROctant) (w : double) :
  map key ps = map key qs ->
  gather dmul cdep_ptr cdep_conn cdep_weights coarse_nodes ps w
  = gather dmul cdep_ptr cdep_conn cdep_weights coarse_nodes qs w.
Proof.
  revert qs. induction ps as [|p ps IH]; intros [|q qs] K;
    try discriminate; [reflexivity|].
  cbn [map] in K. injection K as Kx Ky Kz Kl K. cbn [gather].
  unfold corner_weights, TMROctantArray_contains.
  rewrite Kx, Ky, Kz. now rewrite (IH qs K).
Qed.

(** The corners that the three branches of the stencil look up. *)
Lemma interp_weights_gathers (coarse_nodes : list TMROctant)
  (fine_i : TMROctant) :
  TMROctantArray_contains coarse_nodes fine_i true = None ->
  let id := childId fine_i in
  let h := edge (level fine_i) in
  let n0 := getSibling 0 fine_i in
  let row :=
    interp_weights dmul d1_0 d0_5 d0_25 d0_125 cdep_ptr cdep_conn cdep_weights
                   coarse_nodes fine_i in
  let gathered :=
    gather dmul cdep_ptr cdep_conn cdep_weights coarse_nodes in
  ((id = 1 \/ id = 2 \/ id = 4) ->
     submasks id = [0; id] /\
     row = gathered [n0; corner n0 h id] d0_5) /\
  ((id = 3 \/ id = 5 \/ id = 6) ->
     length (submasks id) = 4%nat /\
     row = gathered (map (corner n0 h) (submasks id)) d0_25) /\
  (id = 7 ->
     submasks id = [0; 1; 2; 3; 4; 5; 6; 7] /\
     row = gathered (map (corner n0 h) (submasks id)) d0_125).
Proof.
  intros E id h n0 row gathered. subst row gathered.
  pose proof (gather_key coarse_nodes) as G.
  unfold interp_weights. rewrite E. fold id h n0.
  split; [|split].
  - intros [I|[I|I]]; rewrite I; (split; [reflexivity|]);
      cbn [Z.eqb Pos.eqb orb]; apply G; unfold corner, key;
      simpl (Z.testbit _ _); cbn [map x y z level]; eq_keys.
  - intros [I|[I|I]]; rewrite I; (split; [reflexivity|]);
      cbn [Z.eqb Pos.eqb orb]; apply G;
      match goal with
      | |- context [submasks ?m] =>
          let v := eval vm_compute in (submasks m) in
          change (submasks m) with v
      end;
      unfold corner, key; simpl (Z.testbit _ _);
      cbn [map flat_map app x y z level]; eq_keys.
  - intros I; rewrite I; (split; [reflexivity|]).
    cbn [Z.eqb Pos.eqb orb]. apply G.
    change (submasks 7) with [0; 1; 2; 3; 4; 5; 6; 7].
    unfold corner, key; simpl (Z.testbit _ _);
      cbn [map flat_map app x y z level]; eq_keys.
Qed.


(** Whatever the child id, the corners looked up are the corners of the
    coarse cell at the 0-sibling that the bits of the id select, and the
    weight is the weight of the stencil. *)
Lemma interp_weights_gather_submasks (coarse_nodes : list TMROctant)
  (fine_i : TMROctant) :
  TMROctantArray_contains coarse_nodes fine_i true = None ->
  childId fine_i <> 0 ->
  interp_weights dmul d1_0 d0_5 d0_25 d0_125 cdep_ptr cdep_conn cdep_weights
                 coarse_nodes fine_i
  = gather dmul cdep_ptr cdep_conn cdep_weights coarse_nodes
      (map (corner (getSibling 0 fine_i) (edge (level fine_i)))
           (submasks (childId fine_i)))
      (stencil_weight d0_5 d0_25 d0_125 (childId fine_i)).
Proof.
  intros E N.
  destruct (interp_weights_gathers coarse_nodes fine_i E) as (H1 & H2 & H3).
  cbv zeta in H1, H2, H3.
  pose proof (childId_cases fine_i) as C. simpl in C.
  destruct C as [C|[C|[C|[C|[C|[C|[C|[C|[]]]]]]]]]; [congruence|..];
    symmetry in C.
  1, 2, 4: destruct (H1 ltac:(tauto)) as [S R]; rewrite R, S, C;
    apply gather_key; unfold corner, key; cbn [map x y z level];
    repeat match goal with
           | |- context [Z.testbit ?a ?b] =>
               let v := eval vm_compute in (Z.testbit a b) in
               change (Z.testbit a b) with v
           end; cbv iota; eq_keys.
  1, 2, 3: destruct (H2 ltac:(tauto)) as [_ R]; rewrite R, C; reflexivity.
  destruct (H3 C) as [_ R]. rewrite R, C. reflexivity.
Qed.

Lemma skipn_nth_error {A : Type} (l : list A) (k : nat) (a : A) :
  nth_error l k = Some a -> skipn k l = a :: skipn (S k) l.
Proof.
  revert l. induction k as [|k IH]; intros [|b t] H; try discriminate.
  - injection H as ->. reflexivity.
  - cbn [nth_error] in H. now apply IH.
Qed.

Lemma read_in_range {A : Type} (l : list A) (i : Z) :
  0 <= i < Z.of_nat (length l) ->
  exists a, read l i = Some a /\ nth_error l (Z.to_nat i) = Some a /\
            nth (Z.to_nat i) l a = a.
Proof.
  intros H. destruct (nth_error l (Z.to_nat i)) as [a|] eqn:E.
  - exists a. unfold read.
    destruct (Z.leb_spec 0 i); [|lia].
    destruct (Z.ltb_spec i (Z.of_nat (length l))); [|lia].
    cbn [andb]. split; [exact E|]. split; [reflexivity|].
    now apply nth_error_nth.
  - apply nth_error_None in E. lia.
Qed.

(** The loop over a row of the dependent table that lies inside the table
    yields the entries of the row, in order. *)
Lemma dep_loop_entries (n : nat) (jp : Z) (f : double -> double) :
  (n <> 0%nat ->
   0 <= jp /\ jp + Z.of_nat n <= Z.of_nat (length cdep_conn) /\
   jp + Z.of_nat n <= Z.of_nat (length cdep_weights)) ->
  dep_loop cdep_conn cdep_weights n jp f
  = Some (map (fun cv => mkIndexWeight (fst cv) (f (snd cv)))
              (combine (firstn n (skipn (Z.to_nat jp) cdep_conn))
                       (firstn n (skipn (Z.to_nat jp) cdep_weights)))).
Proof.
  revert jp. induction n as [|n IH]; intros jp H; cbn [dep_loop].
  - reflexivity.
  - destruct (H ltac:(lia)) as (H0 & H1 & H2).
    destruct (read_in_range cdep_conn jp ltac:(lia)) as (c & Rc & Nc & _).
    destruct (read_in_range cdep_weights jp ltac:(lia)) as (v & Rv & Nv & _).
    rewrite Rc, Rv, (IH (jp + 1)) by (intros _; lia).
    rewrite (skipn_nth_error _ _ _ Nc), (skipn_nth_error _ _ _ Nv).
    replace (Z.to_nat (jp + 1)) with (S (Z.to_nat jp)) by lia.
    reflexivity.
Qed.

(** The weights a coarse node contributes when its row lies in the table. *)
Lemma node_weights_row (t : TMROctant) (w : double) (f : double -> double) :
  row_in_table cdep_ptr cdep_conn cdep_weights t = true ->
  node_weights cdep_ptr cdep_conn cdep_weights t w f
  = Some (if 0 <=? tag t then [mkIndexWeight (tag t) w]
          else map (fun cv => mkIndexWeight (fst cv) (f (snd cv)))
                   (combine (dependent_ids cdep_ptr cdep_conn (- tag t - 1))
                            (dependent_weights cdep_ptr cdep_weights
                                               (- tag t - 1)))).
Proof.
  unfold row_in_table, node_weights. intros H.
  destruct (Z.geb_spec (tag t) 0) as [G|G];
    destruct (Z.leb_spec 0 (tag t)) as [L|L]; try lia; [reflexivity|].
  cbn [orb] in H. rewrite !andb_true_iff, Z.ltb_lt, !Z.leb_le in H.
  destruct H as (((Hp & Hlo) & Hc) & Hw).
  destruct (read_in_range cdep_ptr (- tag t - 1) ltac:(lia))
    as (lo & Rlo & _ & Nlo).
  destruct (read_in_range cdep_ptr (- tag t - 1 + 1) ltac:(lia))
    as (hi & Rhi & _ & Nhi).
  assert (Elo : nth (Z.to_nat (- tag t - 1)) cdep_ptr 0 = lo)
    by (rewrite (nth_indep cdep_ptr 0 lo) by lia; exact Nlo).
  assert (Ehi : nth (Z.to_nat (- tag t - 1 + 1)) cdep_ptr 0 = hi)
    by (rewrite (nth_indep cdep_ptr 0 hi) by lia; exact Nhi).
  replace (Z.to_nat (- tag t)) with (Z.to_nat (- tag t - 1 + 1)) in Hc, Hw
    by lia.
  rewrite Elo in Hlo. rewrite Ehi in Hc, Hw.
  rewrite Rlo, Rhi. unfold dependent_ids, dependent_weights. cbv zeta.
  rewrite Elo, Ehi.
  apply dep_loop_entries. intros Hn. lia.
Qed.

Lemma corner_weights_entries (coarse_nodes : list TMROctant)
  (p t : TMROctant) (w : double) :
  TMROctantArray_contains coarse_nodes p true = Some t ->
  row_in_table cdep_ptr cdep_conn cdep_weights t = true ->
  corner_weights dmul cdep_ptr cdep_conn cdep_weights coarse_nodes p w
  = Some (corner_entries dmul cdep_ptr cdep_conn cdep_weights t w).
Proof.
  intros E R. unfold corner_weights. rewrite E.
  now rewrite node_weights_row.
Qed.

Lemma gather_entries (coarse_nodes ps ts : list TMROctant) (w : double) :
  Forall2 (fun p t => TMROctantArray_contains coarse_nodes p true = Some t)
          ps ts ->
  forallb (row_in_table cdep_ptr cdep_conn cdep_weights) ts = true ->
  gather dmul cdep_ptr cdep_conn cdep_weights coarse_nodes ps w
  = Some (flat_map
            (fun t => corner_entries dmul cdep_ptr cdep_conn cdep_weights t w)
            ts).
Proof.
  induction 1 as [|p t ps ts E F IH]; intros R; [reflexivity|].
  cbn [forallb] in R. apply andb_true_iff in R. destruct R as [Rt Rs].
  cbn [gather flat_map].
  rewrite (corner_weights_entries coarse_nodes p t w E Rt), (IH Rs).
  reflexivity.
Qed.

(** The entries of the row of a fine node without a coincident coarse node
    whose corners are all in the coarse node array. *)
Lemma interp_weights_entries (coarse_nodes : list TMROctant)
  (fine_i : TMROctant) (ts : list TMROctant) :
  TMROctantArray_contains coarse_nodes fine_i true = None ->
  childId fine_i <> 0 ->
  Forall2 (fun m t =>
             TMROctantArray_contains coarse_nodes
               (corner (getSibling 0 fine_i) (edge (level fine_i)) m) true
             = Some t)
          (submasks (childId fine_i)) ts ->
  forallb (row_in_table cdep_ptr cdep_conn cdep_weights) ts = true ->
  interp_weights dmul d1_0 d0_5 d0_25 d0_125 cdep_ptr cdep_conn cdep_weights
                 coarse_nodes fine_i
  = Some (flat_map
            (fun t => corner_entries dmul cdep_ptr cdep_conn cdep_weights t
                        (stencil_weight d0_5 d0_25 d0_125 (childId fine_i)))
            ts).
Proof.
  intros E N F R. rewrite interp_weights_gather_submasks by assumption.
  apply gather_entries; [|assumption].
  clear - F. induction F; cbn [map]; constructor; assumption.
Qed.


End InterpolationFacts.

(** ** The sum of a row, in rational arithmetic *)

Section InterpolationSums.

Import QArith.
Local Open Scope Z_scope.

Variable cdep_ptr : list Z.
Variable cdep_conn : list Z.
Variable cdep_weights : list Q.

Lemma Qsum_app (l1 l2 : list Q) :
  (Qsum (l1 ++ l2) == Qsum l1 + Qsum l2)%Q.
Proof.
  induction l1 as [|a l1 IH]; cbn [app Qsum fold_right].
  - change (fold_right Qplus (0 # 1) l2) with (Qsum l2). ring.
  - change (fold_right Qplus (0 # 1) (l1 ++ l2)) with (Qsum (l1 ++ l2)).
    change (fold_right Qplus (0 # 1) l1) with (Qsum l1).
    rewrite IH. ring.
Qed.

Lemma row_sum_cons (e : TMRIndexWeight Q) (l : list (TMRIndexWeight Q)) :
  row_sum (e :: l) = (weight e + row_sum l)%Q.
Proof. reflexivity. Qed.

Lemma row_sum_app (l1 l2 : list (TMRIndexWeight Q)) :
  (row_sum (l1 ++ l2) == row_sum l1 + row_sum l2)%Q.
Proof. unfold row_sum. rewrite map_app. apply Qsum_app. Qed.

Lemma row_sum_index_insert (e : TMRIndexWeight Q)
  (l : list (TMRIndexWeight Q)) :
  (row_sum (index_insert e l) == weight e + row_sum l)%Q.
Proof.
  induction l as [|b t IH]; cbn [index_insert].
  - reflexivity.
  - destruct (index e <=? index b); [reflexivity|].
    rewrite !row_sum_cons, IH. ring.
Qed.

Lemma row_sum_index_sort (l : list (TMRIndexWeight Q)) :
  (row_sum (index_sort l) == row_sum l)%Q.
Proof.
  induction l as [|a t IH]; [reflexivity|].
  change (index_sort (a :: t)) with (index_insert a (index_sort t)).
  rewrite row_sum_index_insert, row_sum_cons, IH. reflexivity.
Qed.

Lemma row_sum_coalesce (l : list (TMRIndexWeight Q)) :
  (row_sum (coalesce Qplus l) == row_sum l)%Q.
Proof.
  induction l as [|a t IH]; [reflexivity|]. cbn [coalesce].
  rewrite row_sum_cons, <- IH.
  destruct (coalesce Qplus t) as [|b t']; [reflexivity|].
  destruct (index a =? index b); rewrite !row_sum_cons; cbn [weight]; ring.
Qed.

(** Sorting and coalescing keep the sum of a row. *)
Lemma row_sum_uniqueSort (l : list (TMRIndexWeight Q)) :
  (row_sum (uniqueSort Qplus l) == row_sum l)%Q.
Proof.
  unfold uniqueSort. now rewrite row_sum_coalesce, row_sum_index_sort.
Qed.

Lemma row_sum_scaled (f : Q -> Q) (w : Q) (ids : list Z) (ws : list Q) :
  (forall v, f v == w * v)%Q -> length ids = length ws ->
  (row_sum (map (fun cv => mkIndexWeight (fst cv) (f (snd cv)))
                (combine ids ws)) == w * Qsum ws)%Q.
Proof.
  intros Hf. revert ws. induction ids as [|i ids IH]; intros [|v ws] L;
    try discriminate.
  - cbn. ring.
  - cbn [combine map]. rewrite row_sum_cons. cbn [weight fst snd].
    rewrite IH by (cbn [length] in L; lia).
    change (Qsum (v :: ws)) with (v + Qsum ws)%Q. rewrite Hf. ring.
Qed.

Lemma dependent_row_lengths (t : TMROctant) :
  row_in_table cdep_ptr cdep_conn cdep_weights t = true -> tag t < 0 ->
  length (dependent_ids cdep_ptr cdep_conn (- tag t - 1))
  = length (dependent_weights cdep_ptr cdep_weights (- tag t - 1)).
Proof.
  unfold row_in_table. intros H L.
  destruct (Z.leb_spec 0 (tag t)); [lia|]. cbn [orb] in H.
  rewrite !andb_true_iff, Z.ltb_lt, !Z.leb_le in H.
  destruct H as (((Hp & Hlo) & Hc) & Hw).
  unfold dependent_ids, dependent_weights. cbv zeta.
  replace (Z.to_nat (- tag t - 1 + 1)) with (Z.to_nat (- tag t)) by lia.
  rewrite !length_firstn, !length_skipn. lia.
Qed.

Hypothesis rows_sum_to_one : forall d,
  0 <= d -> d + 1 < Z.of_nat (length cdep_ptr) ->
  (Qsum (dependent_weights cdep_ptr cdep_weights d) == 1)%Q.

(** A coarse node passes its weight on, whether it is independent or
    expanded through the dependent table. *)
Lemma row_sum_node (t : TMROctant) (w : Q) (f : Q -> Q) :
  (forall v, f v == w * v)%Q ->
  row_in_table cdep_ptr cdep_conn cdep_weights t = true ->
  (row_sum (if 0 <=? tag t then [mkIndexWeight (tag t) w]
            else map (fun cv => mkIndexWeight (fst cv) (f (snd cv)))
                     (combine (dependent_ids cdep_ptr cdep_conn (- tag t - 1))
                              (dependent_weights cdep_ptr cdep_weights
                                                 (- tag t - 1))))
   == w)%Q.
Proof.
  intros Hf R. destruct (Z.leb_spec 0 (tag t)) as [L|L].
  - cbn. ring.
  - rewrite (row_sum_scaled f w) by
      (try assumption; now apply dependent_row_lengths).
    rewrite rows_sum_to_one; [ring|lia|].
    unfold row_in_table in R. destruct (Z.leb_spec 0 (tag t)); [lia|].
    cbn [orb] in R. rewrite !andb_true_iff, Z.ltb_lt in R. lia.
Qed.

Lemma row_sum_corners (ts : list TMROctant) (w : Q) :
  forallb (row_in_table cdep_ptr cdep_conn cdep_weights) ts = true ->
  (row_sum (flat_map (fun t => corner_entries Qmult cdep_ptr cdep_conn
                                 cdep_weights t w) ts)
   == inject_Z (Z.of_nat (length ts)) * w)%Q.
Proof.
  induction ts as [|t ts IH]; intros R.
  - cbn. ring.
  - cbn [forallb] in R. apply andb_true_iff in R. destruct R as [Rt Rs].
    cbn [flat_map]. rewrite row_sum_app, (IH Rs).
    unfold corner_entries at 1.
    rewrite (row_sum_node t w (Qmult w)) by (try assumption; reflexivity).
    cbn [length]. rewrite Nat2Z.inj_succ. unfold Z.succ.
    rewrite inject_Z_plus. ring.
Qed.


End InterpolationSums.



(** ** The level-uniform constructor *)

(** C8. The entry check lets [TMR_MAX_LEVEL + 1] through: the level is not
    brought into [[0, TMR_MAX_LEVEL]], the edge length is a shift by -1 and
    the constructor has no defined result; and every larger argument is set
    to [TMR_MAX_LEVEL - 1], not to [TMR_MAX_LEVEL]. *)
Theorem check_level_misses_bound :
  check_level (TMR_MAX_LEVEL + 1) = TMR_MAX_LEVEL + 1 /\
  ~ (0 <= check_level (TMR_MAX_LEVEL + 1) <= TMR_MAX_LEVEL) /\
  TMROctree_uniform (TMR_MAX_LEVEL + 1) = None /\
  (forall refine_level, TMR_MAX_LEVEL + 1 < refine_level ->
     check_level refine_level = TMR_MAX_LEVEL - 1).
Proof.
  assert (E : check_level (TMR_MAX_LEVEL + 1) = TMR_MAX_LEVEL + 1).
  { unfold check_level.
    destruct (Z.ltb_spec (TMR_MAX_LEVEL + 1) 0); [lia|].
    destruct (Z.gtb_spec (TMR_MAX_LEVEL + 1 - 1) TMR_MAX_LEVEL); [lia|].
    reflexivity. }
  split; [assumption|]. split; [lia|]. split.
  - unfold TMROctree_uniform. rewrite E.
    destruct (Z.ltb_spec (TMR_MAX_LEVEL - (TMR_MAX_LEVEL + 1)) 0); [reflexivity|lia].
  - intros r Hr. unfold check_level.
    destruct (Z.ltb_spec r 0); [lia|].
    destruct (Z.gtb_spec (r - 1) TMR_MAX_LEVEL); [reflexivity|lia].
Qed.

(** * Further properties of the code *)

(** ** [findEnclosing] on small arrays, reads, and the enclosing element *)

(** X1. On a non-empty array the [while] loop of [findEnclosing] ends,
    whatever the elements and the octant are, sorted or not: [size + 1]
    iterations are enough.  No read leaves the array on the way, except on
    an array of exactly two elements. *)
Theorem findEnclosing_terminates (elems : list TMROctant) (oct : TMROctant) :
  elems <> [] ->
  findEnclosing elems oct <> Diverged /\
  (forall i, findEnclosing elems oct = OutOfBounds i ->
             length elems = 2%nat).
Proof.
  intros Hne. split; [apply findEnclosing_fuel_enough|].
  intros i Hi.
  destruct (Nat.eq_dec (length elems) 2) as [E|E]; [assumption|exfalso].
  assert (H1 : (1 <= length elems)%nat).
  { destruct elems; [congruence|cbn [length]; lia]. }
  revert Hi. unfold findEnclosing.
  assert (Q : 0 <= Z.of_nat (length elems) - 1 - 0) by lia.
  pose proof (Z.quot_pos _ 2 Q ltac:(lia)).
  pose proof (Z.quot_le_upper_bound (Z.of_nat (length elems) - 1 - 0) 2
                (Z.of_nat (length elems) - 1 - 0) ltac:(lia) ltac:(lia)).
  apply findEnclosing_loop_in_bounds; try lia.
  destruct (Nat.eq_dec (length elems) 1) as [E1|E1].
  - left. rewrite E1. reflexivity.
  - right.
    assert (1 <= Z.quot (Z.of_nat (length elems) - 1 - 0) 2); [|lia].
    apply Z.quot_le_lower_bound; lia.
Qed.

(** X3. The search on arrays of at most two elements, whatever the octants are:
    the empty array is read at index 0; a single element is tested and the
    result is that element or null; with two elements, a query that the
    first element does not enclose and that sorts before it sends [mid] to
    -1 and [elems[-1]] is read. *)
Theorem findEnclosing_small_arrays (e0 e1 oct : TMROctant) :
  findEnclosing [] oct = OutOfBounds 0 /\
  findEnclosing [e0] oct = (if encloses e0 oct then Found 0 else Null) /\
  findEnclosing [e0; e1] oct =
    (if encloses e0 oct then Found 0
     else if compare oct e0 <? 0 then OutOfBounds (-1)
     else if encloses e1 oct then Found 1 else Null).
Proof.
  assert (R0 : read [e0; e1] 0 = Some e0) by reflexivity.
  assert (R1 : read [e0; e1] 1 = Some e1) by reflexivity.
  assert (Rm : read [e0; e1] (-1) = None) by reflexivity.
  assert (S0 : read [e0] 0 = Some e0) by reflexivity.
  split; [reflexivity|]. split.
  - unfold findEnclosing.
    change (findEnclosing_loop (S (length [e0])) [e0] oct 0
              (Z.of_nat (length [e0]) - 1)
              (0 + Z.quot (Z.of_nat (length [e0]) - 1 - 0) 2))
      with (findEnclosing_exit [e0] oct 0 0).
    unfold findEnclosing_exit. rewrite S0.
    destruct (encloses e0 oct); reflexivity.
  - unfold findEnclosing.
    change (findEnclosing_loop (S (length [e0; e1])) [e0; e1] oct 0
              (Z.of_nat (length [e0; e1]) - 1)
              (0 + Z.quot (Z.of_nat (length [e0; e1]) - 1 - 0) 2))
      with (match read [e0; e1] 0 with
            | None => OutOfBounds 0
            | Some e =>
                if encloses e oct then Found 0
                else findEnclosing_loop 2 [e0; e1] oct
                       (if compare oct e <? 0 then 0 else 0 + 1)
                       (if compare oct e <? 0 then 0 - 1 else 1)
                       ((if compare oct e <? 0 then 0 - 1 else 1)
                        - Z.quot ((if compare oct e <? 0 then 0 - 1 else 1)
                                  - (if compare oct e <? 0 then 0 else 0 + 1))
                                 2)
            end).
    rewrite R0. destruct (encloses e0 oct); [reflexivity|].
    destruct (compare oct e0 <? 0).
    + change (findEnclosing_loop 2 [e0; e1] oct 0 (0 - 1)
                (0 - 1 - Z.quot (0 - 1 - 0) 2))
        with (findEnclosing_exit [e0; e1] oct 0 (-1)).
      unfold findEnclosing_exit. now rewrite Rm.
    + change (findEnclosing_loop 2 [e0; e1] oct (0 + 1) 1
                (1 - Z.quot (1 - (0 + 1)) 2))
        with (findEnclosing_exit [e0; e1] oct 1 1).
      unfold findEnclosing_exit. rewrite R1.
      destruct (encloses e1 oct); reflexivity.
Qed.

(** The index a search returns lies in the array. *)
Lemma findEnclosing_Found_range (elems : list TMROctant) (oct : TMROctant)
  (i : Z) :
  findEnclosing elems oct = Found i -> 0 <= i < Z.of_nat (length elems).
Proof.
  intros F. apply findEnclosing_loop_sound in F. destruct F as (e & R & _).
  now apply read_Some in R.
Qed.

(** X4. In a sorted array of valid octants none of which encloses another,
    with one element or with three and more, the search returns a pointer
    exactly when some element encloses the query, and the null pointer
    when none does; at most one element encloses the query. *)
Theorem findEnclosing_decides_enclosure (elems : list TMROctant)
  (oct : TMROctant) :
  sorted elems = true -> forallb valid elems = true -> leaves elems = true ->
  level oct <= TMR_MAX_LEVEL ->
  (1 <= length elems)%nat -> length elems <> 2%nat ->
  ((exists e, In e elems /\ encloses e oct = true) <->
   (exists i, findEnclosing elems oct = Found i)) /\
  ((forall e, In e elems -> encloses e oct = false) ->
   findEnclosing elems oct = Null) /\
  (forall i j ei ej,
     nth_error elems i = Some ei -> nth_error elems j = Some ej ->
     encloses ei oct = true -> encloses ej oct = true -> i = j).
Proof.
  intros Hs Hv Hl Ho H1 H2.
  assert (Hsound : forall i, findEnclosing elems oct = Found i ->
            exists e, In e elems /\ encloses e oct = true).
  { intros i F. apply findEnclosing_loop_sound in F.
    destruct F as (e & R & He). apply read_Some in R. destruct R as [_ R].
    exists e. split; [eapply nth_error_In; eassumption|assumption]. }
  assert (Hin : forall i, findEnclosing elems oct <> OutOfBounds i).
  { intros i. unfold findEnclosing.
    assert (Q : 0 <= Z.of_nat (length elems) - 1 - 0) by lia.
    pose proof (Z.quot_pos _ 2 Q ltac:(lia)).
    pose proof (Z.quot_le_upper_bound (Z.of_nat (length elems) - 1 - 0) 2
                  (Z.of_nat (length elems) - 1 - 0) ltac:(lia) ltac:(lia)).
    apply findEnclosing_loop_in_bounds; try lia.
    destruct (Nat.eq_dec (length elems) 1) as [E1|E1].
    - left. rewrite E1. reflexivity.
    - right.
      assert (1 <= Z.quot (Z.of_nat (length elems) - 1 - 0) 2); [|lia].
      apply Z.quot_le_lower_bound; lia. }
  split; [|split].
  - split.
    + intros (e & Hin' & He). apply In_nth_error in Hin'.
      destruct Hin' as [k Hk].
      exists (Z.of_nat k). now apply findEnclosing_complete with e.
    + intros (i & F). now apply Hsound with i.
  - intros Hnone. destruct (findEnclosing elems oct) as [i| |i|] eqn:F.
    + destruct (Hsound i eq_refl) as (e & He & Ee).
      rewrite (Hnone e He) in Ee. discriminate.
    + reflexivity.
    + exfalso. now apply (Hin i).
    + exfalso. now apply (findEnclosing_fuel_enough elems oct).
  - intros i j ei ej Hi Hj Ei Ej.
    pose proof (findEnclosing_complete elems oct Hs Hv Hl Ho i ei Hi Ei) as Fi.
    pose proof (findEnclosing_complete elems oct Hs Hv Hl Ho j ej Hj Ej) as Fj.
    rewrite Fi in Fj. injection Fj as Fj. lia.
Qed.

(** ** [findEnclosingRange]: the bounds it returns *)

(** X5. On an array tagged by index, a returned range lies within the array:
    [0 <= low < size] and [0 < high <= size]. *)
Theorem findEnclosingRange_within_array (elems : list TMROctant)
  (oct : TMROctant) (low high : Z) :
  tagged_by_index elems ->
  findEnclosingRange elems oct = Some (low, high) ->
  0 <= low < Z.of_nat (length elems) /\ 0 < high <= Z.of_nat (length elems).
Proof.
  intros Ht. unfold findEnclosingRange.
  assert (Htag : forall p i, findEnclosing elems p = Found i ->
            tag (nth (Z.to_nat i) elems oct) = i /\
            0 <= i < Z.of_nat (length elems)).
  { intros p i F. pose proof (findEnclosing_Found_range elems p i F) as R.
    split; [|assumption].
    rewrite (nth_indep _ oct (mkOctant 0 0 0 0 0)) by lia.
    rewrite Ht by lia. lia. }
  assert (Hne : forall p, findEnclosing elems p = Null ->
                          0 < Z.of_nat (length elems)).
  { intros p F. destruct elems; [discriminate|]. simpl length. lia. }
  set (p1 := set_level oct TMR_MAX_LEVEL).
  set (p2 := set_xyz p1 _ _ _).
  destruct (findEnclosing elems p1) as [i1| | |] eqn:F1; try discriminate;
    destruct (findEnclosing elems p2) as [i2| | |] eqn:F2; try discriminate;
    intros [= <- <-].
  - destruct (Htag _ _ F1), (Htag _ _ F2). lia.
  - destruct (Htag _ _ F1). lia.
  - destruct (Htag _ _ F2). pose proof (Hne _ F1). lia.
  - pose proof (Hne _ F1). lia.
Qed.

(** X6. For an octant enclosed by the element of index [k] of a sorted array of
    valid, pairwise non-nested octants tagged by index, the range is
    [[k, k+1)], whether or not the array covers the domain. *)
Theorem findEnclosingRange_of_enclosed (elems : list TMROctant)
  (oct : TMROctant) (k : nat) (ek : TMROctant) :
  sorted elems = true -> forallb valid elems = true -> leaves elems = true ->
  tagged_by_index elems -> level oct <= TMR_MAX_LEVEL ->
  nth_error elems k = Some ek -> encloses ek oct = true ->
  findEnclosingRange elems oct = Some (Z.of_nat k, Z.of_nat k + 1).
Proof.
  intros Hs Hv Hl Ht Ho Hk He.
  pose proof (edge_pos _ Ho) as P. apply encloses_spec in He.
  assert (Hlen : (k < length elems)%nat) by (apply nth_error_Some; congruence).
  assert (T : tag (nth (Z.to_nat (Z.of_nat k)) elems oct) = Z.of_nat k).
  { rewrite Nat2Z.id, (nth_indep _ oct (mkOctant 0 0 0 0 0)) by lia.
    now apply Ht. }
  unfold findEnclosingRange.
  rewrite (findEnclosing_complete elems (set_level oct TMR_MAX_LEVEL)
             Hs Hv Hl ltac:(simpl; lia) k ek Hk).
  2:{ apply encloses_spec. simpl. rewrite edge_LMAX. lia. }
  set (p1 := set_level oct TMR_MAX_LEVEL).
  set (h := edge (level oct)) in *.
  rewrite (findEnclosing_complete elems
             (set_xyz p1 (x p1 + (h - 1)) (y p1 + (h - 1)) (z p1 + (h - 1)))
             Hs Hv Hl ltac:(simpl; lia) k ek Hk).
  2:{ apply encloses_spec. simpl. rewrite edge_LMAX. lia. }
  now rewrite T.
Qed.

(** ** Siblings *)

Lemma land_pow2_bit (a k : Z) :
  0 <= k -> Z.land a (2 ^ k) = 2 ^ k * ((a / 2 ^ k) mod 2).
Proof.
  intros Hk. rewrite <- Z.testbit_spec' by assumption.
  apply Z.bits_inj'. intros n Hn.
  rewrite Z.land_spec, Z.pow2_bits_eqb by assumption.
  destruct (Z.eqb_spec k n) as [->|Hne].
  - destruct (Z.testbit a n) eqn:E; cbn [Z.b2z andb].
    + now rewrite Z.mul_1_r, Z.pow2_bits_true.
    + now rewrite Z.mul_0_r, Z.bits_0.
  - rewrite andb_false_r.
    destruct (Z.testbit a k); cbn [Z.b2z].
    + rewrite Z.mul_1_r, Z.pow2_bits_false; [reflexivity|assumption].
    + now rewrite Z.mul_0_r, Z.bits_0.
Qed.

Lemma sibling_coordinate_again (h a : Z) (s s' : bool) :
  h = 0 \/ (exists k, 0 <= k /\ h = 2 ^ k) ->
  sibling_coordinate h (sibling_coordinate h a s) s' = sibling_coordinate h a s'.
Proof.
  intros [->|(k & Hk & ->)]; unfold sibling_coordinate.
  - rewrite !Z.land_0_r. cbn. destruct s, s'; lia.
  - assert (P : 0 < 2 ^ k) by (apply Z.pow_pos_nonneg; lia).
    rewrite !land_pow2_bit by assumption.
    pose proof (Z.mod_pos_bound (a / 2 ^ k) 2 ltac:(lia)) as B.
    pose proof (Z.div_mod (a / 2 ^ k) 2 ltac:(lia)) as D.
    set (q := a / 2 ^ k) in *. set (r := q mod 2) in *.
    assert (E : forall t, (a - 2 ^ k * r + 2 ^ k * t) / 2 ^ k = q - r + t).
    { intros t. replace (a - 2 ^ k * r + 2 ^ k * t)
        with (a + (t - r) * 2 ^ k) by lia.
      rewrite Z.div_add by lia. fold q. lia. }
    assert (M : forall t, 0 <= t < 2 -> (q - r + t) mod 2 = t).
    { intros t Ht. replace (q - r + t) with (t + (q / 2) * 2) by lia.
      rewrite Z.mod_add by lia. apply Z.mod_small. lia. }
    assert (C : (if 2 ^ k * r =? 0 then a else a - 2 ^ k) = a - 2 ^ k * r).
    { destruct (Z.eqb_spec (2 ^ k * r) 0) as [Z0|Z0].
      - assert (r = 0) by nia. subst r. lia.
      - assert (r = 1) by nia. lia. }
    rewrite C.
    assert (E' : (a - 2 ^ k * r + (if s then 2 ^ k else 0)) / 2 ^ k
                 = q - r + (if s then 1 else 0)).
    { rewrite <- E. f_equal. destruct s; lia. }
    rewrite E', M by (destruct s; lia).
    destruct s; cbn [Z.b2z].
    + rewrite Z.mul_1_r. destruct (Z.eqb_spec (2 ^ k) 0); [lia|].
      destruct s'; lia.
    + rewrite Z.mul_0_r. cbn. destruct s'; lia.
Qed.

Lemma edge_cases (l : Z) : edge l = 0 \/ (exists k, 0 <= k /\ edge l = 2 ^ k).
Proof.
  destruct (Z_le_gt_dec l TMR_MAX_LEVEL) as [H|H].
  - right. exists (TMR_MAX_LEVEL - l). split; [lia|now apply edge_pow2].
  - left. apply edge_high. lia.
Qed.

Lemma getSibling_coordinates (j : Z) (o : TMROctant) :
  0 < level o ->
  key (getSibling j o) =
  (sibling_coordinate (edge (level o)) (x o) (negb (Z.land j 1 =? 0)),
   sibling_coordinate (edge (level o)) (y o) (negb (Z.land j 2 =? 0)),
   sibling_coordinate (edge (level o)) (z o) (negb (Z.land j 4 =? 0)),
   level o).
Proof.
  intros L. unfold getSibling. destruct (Z.leb_spec (level o) 0); [lia|].
  unfold key, sibling_coordinate. cbn [x y z level set_xyz].
  destruct (Z.land j 1 =? 0), (Z.land j 2 =? 0), (Z.land j 4 =? 0);
    cbn [negb]; rewrite ?Z.add_0_r; reflexivity.
Qed.

Lemma getSibling_level (j : Z) (o : TMROctant) :
  level (getSibling j o) = level o.
Proof.
  unfold getSibling. destruct (level o <=? 0); reflexivity.
Qed.

(** The siblings of a sibling are the siblings of the octant. *)
Lemma getSibling_getSibling (i j : Z) (o : TMROctant) :
  key (getSibling i (getSibling j o)) = key (getSibling i o).
Proof.
  destruct (Z_le_gt_dec (level o) 0) as [L|L].
  - unfold getSibling at 2.
    destruct (Z.leb_spec (level o) 0); [reflexivity|lia].
  - pose proof (getSibling_coordinates j o ltac:(lia)) as Kj.
    unfold key in Kj. injection Kj as Kx Ky Kz Kl.
    rewrite (getSibling_coordinates i (getSibling j o)) by lia.
    rewrite (getSibling_coordinates i o) by lia.
    rewrite Kx, Ky, Kz, Kl.
    rewrite !sibling_coordinate_again by apply edge_cases. reflexivity.
Qed.

Lemma sibling_coordinate_aligned (k q : Z) (s : bool) :
  0 <= k ->
  sibling_coordinate (2 ^ k) (2 ^ k * q) s = 2 ^ k * (2 * (q / 2) + Z.b2z s).
Proof.
  intros Hk. unfold sibling_coordinate. rewrite land_pow2_mul by assumption.
  assert (P : 0 < 2 ^ k) by (apply Z.pow_pos_nonneg; lia).
  pose proof (Z.mod_pos_bound q 2 ltac:(lia)) as B.
  pose proof (Z.div_mod q 2 ltac:(lia)) as D.
  destruct (Z.eqb_spec (2 ^ k * (q mod 2)) 0) as [E|E].
  - assert (q mod 2 = 0) by nia. destruct s; cbn [Z.b2z]; nia.
  - assert (q mod 2 = 1) by nia. destruct s; cbn [Z.b2z]; nia.
Qed.

Lemma sibling_coordinate_valid (k m q : Z) (s : bool) :
  0 <= k -> 0 < m -> 0 <= q < 2 ^ m ->
  let c := sibling_coordinate (2 ^ k) (2 ^ k * q) s in
  0 <= c /\ c + 2 ^ k <= 2 ^ k * 2 ^ m /\ c mod 2 ^ k = 0 /\
  (s = false ->
   c mod (2 * 2 ^ k) = 0 /\ c + 2 * 2 ^ k <= 2 ^ k * 2 ^ m /\
   c <= 2 ^ k * q /\ 2 ^ k * q + 2 ^ k <= c + 2 * 2 ^ k).
Proof.
  intros Hk Hm Hq c. subst c. rewrite sibling_coordinate_aligned by assumption.
  assert (P : 0 < 2 ^ k) by (apply Z.pow_pos_nonneg; lia).
  assert (E : 2 ^ m = 2 * 2 ^ (m - 1)).
  { rewrite <- Z.pow_succ_r by lia. f_equal. lia. }
  pose proof (Z.mod_pos_bound q 2 ltac:(lia)) as B.
  pose proof (Z.div_mod q 2 ltac:(lia)) as D.
  assert (Q : 0 <= q / 2 < 2 ^ (m - 1)) by lia.
  assert (S : 0 <= Z.b2z s <= 1) by (destruct s; cbn; lia).
  split; [nia|]. split; [nia|]. split.
  - rewrite Z.mul_comm. apply Z.mod_mul. lia.
  - intros ->. cbn [Z.b2z]. rewrite Z.add_0_r. split; [|nia].
    replace (2 ^ k * (2 * (q / 2))) with (q / 2 * (2 * 2 ^ k)) by lia.
    apply Z.mod_mul. lia.
Qed.

Lemma getSibling_valid (j : Z) (o : TMROctant) :
  valid o = true -> valid (getSibling j o) = true.
Proof.
  intros V. destruct (Z_le_gt_dec (level o) 0) as [L|L].
  - unfold getSibling. destruct (Z.leb_spec (level o) 0); [assumption|lia].
  - pose proof (getSibling_coordinates j o ltac:(lia)) as K.
    unfold key in K. injection K as Kx Ky Kz Kl.
    destruct (valid_decomp o V)
      as (k & m & qx & qy & qz & Ekm & Em & Eh & Es & EH & Ex & Hx & Ey & Hy
          & Ez & Hz & EM).
    apply valid_spec. rewrite Kx, Ky, Kz, Kl, Eh, EH, Ex, Ey, Ez.
    pose proof (valid_range o V) as R.
    split; [lia|].
    repeat split;
      apply (sibling_coordinate_valid (Z.of_nat k) (Z.of_nat m)); lia.
Qed.

(** The octant one level up that the coarsening branch of [refine] adds. *)
Lemma coarse_seed_valid (o : TMROctant) :
  valid o = true -> 0 < level o ->
  let s := set_level (getSibling 0 o) (level (getSibling 0 o) - 1) in
  valid s = true /\ level s = level o - 1 /\ encloses s o = true.
Proof.
  intros V L s.
  pose proof (getSibling_coordinates 0 o L) as K.
  change (negb (Z.land 0 1 =? 0)) with false in K.
  change (negb (Z.land 0 2 =? 0)) with false in K.
  change (negb (Z.land 0 4 =? 0)) with false in K.
  unfold key in K. injection K as Kx Ky Kz Kl.
  destruct (valid_decomp o V)
    as (k & m & qx & qy & qz & Ekm & Em & Eh & Es & EH & Ex & Hx & Ey & Hy
        & Ez & Hz & EM).
  pose proof (valid_range o V) as R.
  assert (Ls : level s = level o - 1) by (subst s; cbn [level set_level]; lia).
  assert (Ed : edge (level o - 1) = 2 * 2 ^ Z.of_nat k).
  { rewrite (edge_double (level o - 1)) by lia.
    replace (level o - 1 + 1) with (level o) by lia. now rewrite Eh. }
  rewrite Eh in Kx, Ky, Kz. rewrite Ex in Kx. rewrite Ey in Ky. rewrite Ez in Kz.
  pose proof (sibling_coordinate_valid (Z.of_nat k) (Z.of_nat m) qx false
                ltac:(lia) ltac:(lia) Hx) as X0.
  pose proof (sibling_coordinate_valid (Z.of_nat k) (Z.of_nat m) qy false
                ltac:(lia) ltac:(lia) Hy) as Y0.
  pose proof (sibling_coordinate_valid (Z.of_nat k) (Z.of_nat m) qz false
                ltac:(lia) ltac:(lia) Hz) as Z0.
  cbv zeta in X0, Y0, Z0. rewrite <- Kx in X0. rewrite <- Ky in Y0.
  rewrite <- Kz in Z0.
  destruct X0 as (X1 & X2 & X3 & X4). destruct Y0 as (Y1 & Y2 & Y3 & Y4).
  destruct Z0 as (Z1 & Z2 & Z3 & Z4).
  specialize (X4 eq_refl). specialize (Y4 eq_refl). specialize (Z4 eq_refl).
  split; [|split; [assumption|]].
  - apply valid_spec. rewrite Ls.
    change (x s) with (x (getSibling 0 o)).
    change (y s) with (y (getSibling 0 o)).
    change (z s) with (z (getSibling 0 o)).
    rewrite Ed, EH. repeat split; try lia; tauto.
  - apply encloses_spec. rewrite Ls.
    change (x s) with (x (getSibling 0 o)).
    change (y s) with (y (getSibling 0 o)).
    change (z s) with (z (getSibling 0 o)).
    rewrite Ed, Eh, Ex, Ey, Ez. lia.
Qed.

(** The octant one level down that the refining branch of [refine] adds. *)
Lemma fine_seed_valid (o : TMROctant) :
  valid o = true -> level o < TMR_MAX_LEVEL ->
  valid (set_level o (level o + 1)) = true.
Proof.
  intros V L. pose proof (child_valid o V L 0 ltac:(simpl; tauto)) as V0.
  pose proof (child_key o V L 0 ltac:(simpl; tauto)) as K.
  change (0 mod 2) with 0 in K. change (0 / 2 mod 2) with 0 in K.
  change (0 / 4 mod 2) with 0 in K. rewrite !Z.mul_0_r, !Z.add_0_r in K.
  unfold key in K. injection K as Kx Ky Kz Kl.
  apply valid_spec in V0. apply valid_spec. cbn [x y z level set_level].
  rewrite Kx, Ky, Kz, Kl in V0. exact V0.
Qed.

Lemma refine_seed_valid (mn mx : Z) (o : TMROctant) (r : Z) :
  valid o = true -> 0 <= mn -> mx <= TMR_MAX_LEVEL ->
  valid (refine_seed mn mx o r) = true.
Proof.
  intros V Hmn Hmx. unfold refine_seed.
  destruct (Z.eqb_spec r 0); [now apply getSibling_valid|].
  destruct (Z.ltb_spec r 0).
  - destruct (Z.gtb_spec (level o) mn); [|assumption].
    apply coarse_seed_valid; [assumption|lia].
  - destruct (Z.ltb_spec (level o) mx); [|assumption].
    apply fine_seed_valid; [assumption|lia].
Qed.

(** ** What [refine] puts into the hash *)

Lemma refine_elements (tree : TMROctree) (refinement : list Z)
  (min_level max_level : Z) :
  elements (refine tree refinement min_level max_level)
  = TMROctantArray_sort (TMROctantArray_sort
      (refine_sibling_loop
         (TMROctantArray_sort
            (refine_seed_loop (refine_min_level min_level max_level)
               (refine_max_level max_level) (elements tree) refinement []))
         [])).
Proof. reflexivity. Qed.

Lemma refine_level_bounds (min_level max_level : Z) :
  refine_min_level min_level max_level <= refine_max_level max_level /\
  refine_max_level max_level <= TMR_MAX_LEVEL /\
  (0 <= max_level -> 0 <= refine_min_level min_level max_level).
Proof.
  unfold refine_min_level, refine_max_level.
  destruct (Z.ltb_spec min_level 0), (Z.gtb_spec max_level TMR_MAX_LEVEL);
    repeat match goal with |- context [?a >? ?b] => destruct (Z.gtb_spec a b) end;
    lia.
Qed.

Lemma refine_sibling_loop_from (array hash : list TMROctant) (c : TMROctant) :
  In c (refine_sibling_loop array hash) ->
  In c hash \/
  exists o j, In o array /\ In j [0; 1; 2; 3; 4; 5; 6; 7] /\
              in_domain c = true /\ c = getSibling j o.
Proof.
  unfold refine_sibling_loop. revert hash.
  induction array as [|o array IH]; intros hash; cbn [fold_left]; [auto|].
  intros H. apply IH in H.
  destruct H as [H|(o' & j & H0 & H1 & H2 & H3)].
  - unfold add_siblings in H. apply sibling_fold_incl in H.
    destruct H as [H|(j & H1 & H2 & H3)]; [auto|].
    right. exists o, j. simpl. auto.
  - right. exists o', j. simpl. auto.
Qed.

Lemma refine_seed_loop_from (mn mx : Z) (array : list TMROctant)
  (refinement : list Z) (hash : list TMROctant) (c : TMROctant) :
  In c (refine_seed_loop mn mx array refinement hash) ->
  In c hash \/
  exists i o, nth_error array i = Some o /\
              c = refine_seed mn mx o (nth i refinement 0).
Proof.
  revert refinement hash.
  induction array as [|o array IH]; intros refinement hash; cbn [refine_seed_loop];
    [auto|].
  intros H. apply IH in H. destruct H as [H|(i & o' & Hi & ->)].
  - apply addOctant_incl in H. destruct H as [H| ->]; [auto|].
    right. exists 0%nat, o. split; [reflexivity|].
    destruct refinement; reflexivity.
  - right. exists (S i), o'. split; [assumption|].
    destruct refinement; [destruct i|]; reflexivity.
Qed.

Lemma refine_seed_loop_mono (mn mx : Z) (array : list TMROctant)
  (refinement : list Z) (hash : list TMROctant) (k : Z * Z) :
  In k (map okey hash) ->
  In k (map okey (refine_seed_loop mn mx array refinement hash)).
Proof.
  revert refinement hash.
  induction array as [|o array IH]; intros refinement hash H;
    cbn [refine_seed_loop]; [assumption|].
  apply IH. apply addOctant_okey. now left.
Qed.

Lemma refine_seed_loop_has (mn mx : Z) (array : list TMROctant)
  (refinement : list Z) (hash : list TMROctant) (i : nat) (o : TMROctant) :
  nth_error array i = Some o ->
  In (okey (refine_seed mn mx o (nth i refinement 0)))
     (map okey (refine_seed_loop mn mx array refinement hash)).
Proof.
  revert refinement hash i.
  induction array as [|a array IH]; intros refinement hash [|i] H;
    try discriminate; cbn [refine_seed_loop].
  - injection H as ->. apply refine_seed_loop_mono, addOctant_okey. right.
    destruct refinement; reflexivity.
  - cbn [nth_error] in H.
    replace (nth (S i) refinement 0) with (nth i (tl refinement) 0)
      by (destruct refinement; [destruct i|]; reflexivity).
    now apply IH.
Qed.

(** An element of the result of [refine] is a sibling, inside the domain, of
    what the first loop made of some element. *)
Lemma refine_from (tree : TMROctree) (refinement : list Z)
  (min_level max_level : Z) (c : TMROctant) :
  In c (elements (refine tree refinement min_level max_level)) ->
  exists i o j, nth_error (elements tree) i = Some o /\
    In j [0; 1; 2; 3; 4; 5; 6; 7] /\ in_domain c = true /\
    c = getSibling j (refine_seed (refine_min_level min_level max_level)
                        (refine_max_level max_level) o (nth i refinement 0)).
Proof.
  rewrite refine_elements. intros H.
  apply TMROctantArray_sort_incl, TMROctantArray_sort_incl in H.
  apply refine_sibling_loop_from in H.
  destruct H as [[]|(s & j & Hs & Hj & Hd & ->)].
  apply TMROctantArray_sort_incl in Hs. apply refine_seed_loop_from in Hs.
  destruct Hs as [[]|(i & o & Hi & ->)]. exists i, o, j. auto.
Qed.

(** On a tree of valid octants the siblings of what the first loop made of
    an element are all in the result. *)
Lemma refine_has (tree : TMROctree) (refinement : list Z)
  (min_level max_level : Z) (i : nat) (o : TMROctant) (j : Z) :
  forallb valid (elements tree) = true -> 0 <= max_level ->
  nth_error (elements tree) i = Some o ->
  In j [0; 1; 2; 3; 4; 5; 6; 7] ->
  exists c, In c (elements (refine tree refinement min_level max_level)) /\
    key c = key (getSibling j
                   (refine_seed (refine_min_level min_level max_level)
                      (refine_max_level max_level) o (nth i refinement 0))).
Proof.
  intros Hv Hmax Hi Hj. rewrite forallb_forall in Hv.
  destruct (refine_level_bounds min_level max_level) as (_ & Bmx & Bmn).
  specialize (Bmn Hmax).
  set (mn := refine_min_level min_level max_level) in *.
  set (mx := refine_max_level max_level) in *.
  set (s := refine_seed mn mx o (nth i refinement 0)).
  assert (Vs : valid s = true).
  { apply refine_seed_valid; try assumption. apply Hv.
    eapply nth_error_In; eassumption. }
  pose proof (refine_seed_loop_has mn mx _ refinement [] i o Hi) as H.
  fold s in H. apply TMROctantArray_sort_okey in H.
  apply in_map_iff in H. destruct H as (s' & Es & Hs').
  assert (Vs' : valid s' = true).
  { pose proof Hs' as Hs2. apply TMROctantArray_sort_incl in Hs2.
    apply refine_seed_loop_from in Hs2.
    destruct Hs2 as [[]|(i' & o' & Hi' & ->)].
    apply refine_seed_valid; try assumption. apply Hv.
    eapply nth_error_In; eassumption. }
  assert (Ks : key s' = key s)
    by (apply okey_key; auto using valid_in_domain).
  pose proof (getSibling_valid j s' Vs') as Vj.
  assert (Hk : In (okey (getSibling j s'))
                  (map okey (elements (refine tree refinement min_level max_level)))).
  { rewrite refine_elements. rewrite !TMROctantArray_sort_okey.
    apply refine_sibling_loop_okey. right. exists s', j.
    auto using valid_in_domain. }
  apply in_map_iff in Hk. destruct Hk as (c & Ec & Hc).
  exists c. split; [assumption|].
  rewrite <- (getSibling_key j s' s Ks).
  apply okey_key; [|now apply valid_in_domain|assumption].
  apply refine_from in Hc. destruct Hc as (_ & _ & _ & _ & _ & D & _).
  exact D.
Qed.

(** * Further properties of [refine] *)

(** X7. The result of [refine] holds, with every element, the siblings of the
    element that lie in the domain; this needs nothing of the tree, of the
    refinement array or of the level bounds. *)
Theorem refine_family_closed (tree : TMROctree) (refinement : list Z)
  (min_level max_level : Z) :
  family_closed (elements (refine tree refinement min_level max_level)) = true.
Proof.
  unfold family_closed. apply forallb_forall. intros a Ha.
  apply forallb_forall. intros j Hj. cbv zeta.
  destruct (in_domain (getSibling j a)) eqn:D; [|reflexivity].
  cbn [negb orb].
  pose proof Ha as Ha'. rewrite refine_elements in Ha'.
  apply TMROctantArray_sort_incl, TMROctantArray_sort_incl in Ha'.
  apply refine_sibling_loop_from in Ha'.
  destruct Ha' as [[]|(c & j' & Hc & Hj' & Da & ->)].
  pose proof (getSibling_getSibling j j' c) as K.
  assert (Dc : in_domain (getSibling j c) = true)
    by (rewrite <- (in_domain_key _ _ K); assumption).
  assert (Hk : In (okey (getSibling j c))
                  (map okey (elements (refine tree refinement min_level max_level)))).
  { rewrite refine_elements. rewrite !TMROctantArray_sort_okey.
    apply refine_sibling_loop_okey. right. exists c, j. auto. }
  apply in_map_iff in Hk. destruct Hk as (b & Eb & Hb).
  apply existsb_exists. exists b. split; [assumption|].
  apply key_eqb_spec. rewrite K. symmetry.
  apply okey_key; [|assumption..].
  apply refine_from in Hb. destruct Hb as (_ & _ & _ & _ & _ & Db & _).
  exact Db.
Qed.

(** X8. [refine] keeps the levels inside the window it works with: when the
    level of every element lies between the adjusted [min_level] and the
    adjusted [max_level], so does the level of every element of the
    result. *)
Theorem refine_levels_in_window (tree : TMROctree) (refinement : list Z)
  (min_level max_level : Z) :
  let lo := refine_min_level min_level max_level in
  let hi := refine_max_level max_level in
  forallb (fun o => (lo <=? level o) && (level o <=? hi)) (elements tree)
  = true ->
  forallb (fun o => (lo <=? level o) && (level o <=? hi))
          (elements (refine tree refinement min_level max_level)) = true.
Proof.
  intros lo hi H. rewrite forallb_forall in H. apply forallb_forall.
  intros c Hc. apply refine_from in Hc.
  destruct Hc as (i & o & j & Hi & _ & _ & ->).
  apply nth_error_In in Hi. specialize (H o Hi).
  rewrite andb_true_iff, Z.leb_le, Z.leb_le in *.
  rewrite getSibling_level. fold lo hi. unfold refine_seed.
  destruct (Z.eqb_spec (nth i refinement 0) 0);
    [rewrite getSibling_level; lia|].
  destruct (Z.ltb_spec (nth i refinement 0) 0).
  - destruct (Z.gtb_spec (level o) lo); [|lia].
    cbn [level set_level]. rewrite getSibling_level. lia.
  - destruct (Z.ltb_spec (level o) hi); [|lia].
    cbn [level set_level]. lia.
Qed.

(** X9. [refine] keeps the octant invariants: on a tree of valid octants, and
    with a [max_level] that is not negative, every element of the result is
    a valid octant. *)
Theorem refine_keeps_valid (tree : TMROctree) (refinement : list Z)
  (min_level max_level : Z) :
  forallb valid (elements tree) = true -> 0 <= max_level ->
  forallb valid (elements (refine tree refinement min_level max_level)) = true.
Proof.
  intros Hv Hmax. rewrite forallb_forall in Hv. apply forallb_forall.
  intros c Hc. apply refine_from in Hc.
  destruct Hc as (i & o & j & Hi & _ & _ & ->).
  destruct (refine_level_bounds min_level max_level) as (_ & Bmx & Bmn).
  apply getSibling_valid, refine_seed_valid; auto.
  apply Hv. eapply nth_error_In; eassumption.
Qed.

(** The children of an octant cover the octant. *)
Lemma children_cover (o : TMROctant) (a b c : Z) :
  valid o = true -> level o < TMR_MAX_LEVEL ->
  x o <= a < x o + edge (level o) ->
  y o <= b < y o + edge (level o) ->
  z o <= c < z o + edge (level o) ->
  exists j, In j [0; 1; 2; 3; 4; 5; 6; 7] /\
    let q := getSibling j (set_level o (level o + 1)) in
    x q <= a < x q + edge (level q) /\
    y q <= b < y q + edge (level q) /\
    z q <= c < z q + edge (level q).
Proof.
  intros V L Ha Hb Hc.
  pose proof (edge_double (level o) L) as D.
  set (h' := edge (level o + 1)) in *.
  assert (K : forall j, In j [0; 1; 2; 3; 4; 5; 6; 7] ->
    let q := getSibling j (set_level o (level o + 1)) in
    x q = x o + h' * (j mod 2) /\ y q = y o + h' * (j / 2 mod 2) /\
    z q = z o + h' * (j / 4 mod 2) /\ edge (level q) = h').
  { intros j Hj q. pose proof (child_key o V L j Hj) as K.
    unfold key in K. injection K as Kx Ky Kz Kl. subst q.
    rewrite Kl. auto. }
  set (bx := if a <? x o + h' then 0 else 1).
  set (by_ := if b <? y o + h' then 0 else 1).
  set (bz := if c <? z o + h' then 0 else 1).
  exists (bx + 2 * by_ + 4 * bz).
  assert (Hj : In (bx + 2 * by_ + 4 * bz) [0; 1; 2; 3; 4; 5; 6; 7]).
  { subst bx by_ bz.
    destruct (a <? x o + h'), (b <? y o + h'), (c <? z o + h'); simpl; tauto. }
  split; [assumption|]. cbv zeta.
  destruct (K _ Hj) as (Kx & Ky & Kz & Ke). rewrite Kx, Ky, Kz, Ke.
  subst bx by_ bz.
  destruct (Z.ltb_spec a (x o + h')), (Z.ltb_spec b (y o + h')),
    (Z.ltb_spec c (z o + h'));
    match goal with
    | |- context [(?n) mod 2] =>
        let v := eval cbv in n in change n with v
    end; cbn; lia.
Qed.

(** * The three kinds of refinement entries *)

(** X10. "A zero index indicates that the octant is retained": on a tree of
    valid octants an element whose entry is zero is an element of the
    result. *)
Theorem refine_zero_retains (tree : TMROctree) (refinement : list Z)
  (min_level max_level : Z) (i : nat) (o : TMROctant) :
  forallb valid (elements tree) = true -> 0 <= max_level ->
  nth_error (elements tree) i = Some o -> nth i refinement 0 = 0 ->
  exists c, In c (elements (refine tree refinement min_level max_level)) /\
            key c = key o.
Proof.
  intros Hv Hmax Hi Hr.
  destruct (getSibling_self o) as (j & Hj & E).
  destruct (refine_has tree refinement min_level max_level i o j Hv Hmax Hi Hj)
    as (c & Hc & K).
  exists c. split; [assumption|].
  rewrite K, Hr. unfold refine_seed. cbn [Z.eqb].
  now rewrite getSibling_getSibling.
Qed.

(** X11. "A positive value means that the cell is refined, and all children are
    added": an element below the adjusted [max_level] whose entry is
    positive has its eight children in the result. *)
Theorem refine_positive_adds_children (tree : TMROctree) (refinement : list Z)
  (min_level max_level : Z) (i : nat) (o ch : TMROctant) :
  forallb valid (elements tree) = true ->
  nth_error (elements tree) i = Some o -> 0 < nth i refinement 0 ->
  level o < refine_max_level max_level ->
  In ch (children o) ->
  exists c, In c (elements (refine tree refinement min_level max_level)) /\
            key c = key ch.
Proof.
  intros Hv Hi Hr Hl Hch.
  assert (Vo : valid o = true).
  { rewrite forallb_forall in Hv. apply Hv. eapply nth_error_In; eassumption. }
  pose proof (valid_range o Vo) as R.
  assert (Hmax : 0 <= max_level).
  { unfold refine_max_level in Hl.
    destruct (Z.gtb_spec max_level TMR_MAX_LEVEL); lia. }
  apply children_In in Hch. destruct Hch as (j & Hj & ->).
  destruct (refine_has tree refinement min_level max_level i o j Hv Hmax Hi Hj)
    as (c & Hc & K).
  exists c. split; [assumption|]. rewrite K. unfold refine_seed.
  destruct (Z.eqb_spec (nth i refinement 0) 0); [lia|].
  destruct (Z.ltb_spec (nth i refinement 0) 0); [lia|].
  destruct (Z.ltb_spec (level o) (refine_max_level max_level)); [|lia].
  reflexivity.
Qed.

(** X12. A negative entry coarsens: an element above the adjusted [min_level]
    whose entry is negative is enclosed by an element of the result that is
    one level up. *)
Theorem refine_negative_adds_parent (tree : TMROctree) (refinement : list Z)
  (min_level max_level : Z) (i : nat) (o : TMROctant) :
  forallb valid (elements tree) = true -> 0 <= max_level ->
  nth_error (elements tree) i = Some o -> nth i refinement 0 < 0 ->
  refine_min_level min_level max_level < level o ->
  exists c, In c (elements (refine tree refinement min_level max_level)) /\
            level c = level o - 1 /\ encloses c o = true.
Proof.
  intros Hv Hmax Hi Hr Hl.
  assert (Vo : valid o = true).
  { rewrite forallb_forall in Hv. apply Hv. eapply nth_error_In; eassumption. }
  destruct (refine_level_bounds min_level max_level) as (_ & _ & Bmn).
  specialize (Bmn Hmax).
  destruct (coarse_seed_valid o Vo ltac:(lia)) as (Vs & Ls & Es).
  set (s := set_level (getSibling 0 o) (level (getSibling 0 o) - 1)) in *.
  destruct (getSibling_self s) as (j & Hj & E).
  destruct (refine_has tree refinement min_level max_level i o j Hv Hmax Hi Hj)
    as (c & Hc & K).
  assert (Eseed : refine_seed (refine_min_level min_level max_level)
                    (refine_max_level max_level) o (nth i refinement 0) = s).
  { unfold refine_seed.
    destruct (Z.eqb_spec (nth i refinement 0) 0); [lia|].
    destruct (Z.ltb_spec (nth i refinement 0) 0); [|lia].
    destruct (Z.gtb_spec (level o) (refine_min_level min_level max_level));
      [reflexivity|lia]. }
  rewrite Eseed, E in K. unfold key in K. injection K as Kx Ky Kz Kl.
  exists c. split; [assumption|]. split; [rewrite Kl; exact Ls|].
  apply encloses_spec in Es. apply encloses_spec.
  rewrite Kx, Ky, Kz, Kl. exact Es.
Qed.

(** X13. [refine] opens no hole: when the cubes of a tree of valid octants cover
    the domain, so do the cubes of the result. *)
Theorem refine_keeps_cover (tree : TMROctree) (refinement : list Z)
  (min_level max_level : Z) :
  forallb valid (elements tree) = true -> 0 <= max_level ->
  covers (elements tree) ->
  covers (elements (refine tree refinement min_level max_level)).
Proof.
  intros Hv Hmax Hcov a b c Ha Hb Hc.
  destruct (Hcov a b c Ha Hb Hc) as (o & Ho & Hx & Hy & Hz).
  assert (Vo : valid o = true) by (rewrite forallb_forall in Hv; now apply Hv).
  apply In_nth_error in Ho. destruct Ho as (i & Hi).
  destruct (refine_level_bounds min_level max_level) as (_ & Bmx & Bmn).
  specialize (Bmn Hmax).
  set (mn := refine_min_level min_level max_level) in *.
  set (mx := refine_max_level max_level) in *.
  assert (Hself : forall s, refine_seed mn mx o (nth i refinement 0) = s ->
            valid s = true -> encloses s o = true ->
            exists e, In e (elements (refine tree refinement min_level max_level))
                      /\ key e = key s).
  { intros s Es Vs En. destruct (getSibling_self s) as (j & Hj & E).
    destruct (refine_has tree refinement min_level max_level i o j Hv Hmax Hi Hj)
      as (e & He & K).
    fold mn mx in K. rewrite Es, E in K. eauto. }
  assert (Hin : forall s e, encloses s o = true -> key e = key s ->
            x e <= a < x e + edge (level e) /\
            y e <= b < y e + edge (level e) /\
            z e <= c < z e + edge (level e)).
  { intros s e En K. apply encloses_spec in En.
    unfold key in K. injection K as Kx Ky Kz Kl.
    rewrite Kx, Ky, Kz, Kl. lia. }
  assert (Eo : encloses o o = true) by (apply encloses_spec; lia).
  unfold refine_seed in Hself.
  destruct (Z.eqb_spec (nth i refinement 0) 0) as [R0|R0].
  { destruct (getSibling_self o) as (j & Hj & E).
    destruct (refine_has tree refinement min_level max_level i o j Hv Hmax Hi Hj)
      as (e & He & K).
    fold mn mx in K. rewrite R0 in K. unfold refine_seed in K. cbn [Z.eqb] in K.
    rewrite getSibling_getSibling, E in K.
    exists e. split; [assumption|]. now apply (Hin o). }
  destruct (Z.ltb_spec (nth i refinement 0) 0) as [Rn|Rp].
  - destruct (Z.gtb_spec (level o) mn) as [L|L].
    + destruct (coarse_seed_valid o Vo ltac:(lia)) as (Vs & Ls & Es).
      destruct (Hself _ eq_refl Vs Es) as (e & He & K).
      exists e. split; [assumption|]. eapply Hin; eassumption.
    + destruct (Hself _ eq_refl Vo Eo) as (e & He & K).
      exists e. split; [assumption|]. eapply Hin; eassumption.
  - destruct (Z.ltb_spec (level o) mx) as [L|L].
    + destruct (children_cover o a b c Vo ltac:(lia) Hx Hy Hz)
        as (j & Hj & Hq).
      destruct (refine_has tree refinement min_level max_level i o j Hv Hmax Hi Hj)
        as (e & He & K).
      fold mn mx in K. unfold refine_seed in K.
      destruct (Z.eqb_spec (nth i refinement 0) 0); [lia|].
      destruct (Z.ltb_spec (nth i refinement 0) 0); [lia|].
      destruct (Z.ltb_spec (level o) mx); [|lia].
      exists e. split; [assumption|]. cbv zeta in Hq.
      unfold key in K. injection K as Kx Ky Kz Kl.
      rewrite Kx, Ky, Kz, Kl. exact Hq.
    + destruct (Hself _ eq_refl Vo Eo) as (e & He & K).
      exists e. split; [assumption|]. eapply Hin; eassumption.
Qed.

(** X14. A refinement array of zeros changes nothing on a sorted tree of valid
    octants that holds, with every element, the siblings of the element. *)
Theorem refine_zero_identity (tree : TMROctree) (refinement : list Z)
  (min_level max_level : Z) :
  sorted (elements tree) = true ->
  forallb valid (elements tree) = true ->
  family_closed (elements tree) = true ->
  0 <= max_level ->
  forallb (fun v => v =? 0) refinement = true ->
  map key (elements (refine tree refinement min_level max_level))
  = map key (elements tree).
Proof.
  intros Hs Hv Hf Hmax Hr.
  assert (Hz : forall i, nth i refinement 0 = 0).
  { intros i. rewrite forallb_forall in Hr.
    destruct (nth_in_or_default i refinement 0) as [H|H]; [|assumption].
    apply Z.eqb_eq. now apply Hr. }
  apply map_okey_key.
  - apply forallb_forall. intros c Hc. apply refine_from in Hc.
    destruct Hc as (_ & _ & _ & _ & _ & D & _). exact D.
  - apply forallb_forall. intros c Hc. apply valid_in_domain.
    rewrite forallb_forall in Hv. now apply Hv.
  - apply Sorted_olt_unique.
    + rewrite refine_elements. apply TMROctantArray_sort_Sorted.
    + now apply sorted_Sorted.
    + intros k. split.
      * intros Hk. apply in_map_iff in Hk. destruct Hk as (c & <- & Hc).
        apply refine_from in Hc.
        destruct Hc as (i & o & j & Hi & Hj & D & ->).
        rewrite Hz in *. unfold refine_seed in *. cbn [Z.eqb] in *.
        pose proof (getSibling_getSibling j 0 o) as K.
        rewrite (in_domain_key _ _ K) in D.
        unfold family_closed in Hf. rewrite forallb_forall in Hf.
        specialize (Hf o (nth_error_In _ _ Hi)).
        rewrite forallb_forall in Hf. specialize (Hf j Hj). cbv zeta in Hf.
        rewrite D in Hf. cbn [negb orb] in Hf.
        apply existsb_exists in Hf. destruct Hf as (e & He & E).
        apply key_eqb_okey in E. rewrite (key_okey _ _ K), E.
        now apply in_map.
      * intros Hk. apply in_map_iff in Hk. destruct Hk as (o & <- & Ho).
        apply In_nth_error in Ho. destruct Ho as (i & Hi).
        destruct (getSibling_self o) as (j & Hj & E).
        destruct (refine_has tree refinement min_level max_level i o j
                    Hv Hmax Hi Hj) as (c & Hc & K).
        rewrite Hz in K. unfold refine_seed in K. cbn [Z.eqb] in K.
        rewrite getSibling_getSibling, E in K.
        rewrite <- (key_okey _ _ K). now apply in_map.
Qed.

(** ** Parents *)

(** An octant is the sibling that its child id names. *)
Lemma getSibling_childId (o : TMROctant) :
  key (getSibling (childId o) o) = key o.
Proof.
  unfold getSibling, childId.
  destruct (level o <=? 0); [reflexivity|].
  destruct (Z.land (x o) (edge (level o)) =? 0),
    (Z.land (y o) (edge (level o)) =? 0),
    (Z.land (z o) (edge (level o)) =? 0);
    unfold key; cbn; repeat f_equal; lia.
Qed.

Lemma valid_key (a b : TMROctant) : key a = key b -> valid a = valid b.
Proof. unfold key, valid. intros [= -> -> -> ->]. reflexivity. Qed.

Lemma encloses_key (a b a' b' : TMROctant) :
  key a = key a' -> key b = key b' -> encloses a b = encloses a' b'.
Proof.
  unfold key, encloses. intros [= -> -> -> ->] [= -> -> -> ->]. reflexivity.
Qed.

Lemma ldiff_parent (k q : Z) :
  0 <= k -> Z.ldiff (2 ^ k * q) (2 * 2 ^ k - 1) = 2 ^ k * (2 * (q / 2)).
Proof.
  intros Hk.
  assert (P : 0 < 2 ^ k) by (apply Z.pow_pos_nonneg; lia).
  replace (2 * 2 ^ k - 1) with (Z.ones (k + 1))
    by (rewrite Z.ones_equiv, Z.pow_add_r by lia; lia).
  rewrite Z.ldiff_ones_r by lia.
  rewrite Z.shiftr_div_pow2, Z.shiftl_mul_pow2 by lia.
  rewrite Z.pow_add_r by lia. change (2 ^ 1) with 2.
  rewrite <- Z.div_div by lia.
  rewrite (Z.mul_comm (2 ^ k) q), Z.div_mul by lia. lia.
Qed.

(** The parent of a valid octant is the octant that the coarsening branch of
    [refine] builds from the sibling 0. *)
Lemma parent_sibling0 (o : TMROctant) :
  valid o = true -> 0 < level o ->
  key (parent o)
  = key (set_level (getSibling 0 o) (level (getSibling 0 o) - 1)).
Proof.
  intros V L.
  pose proof (getSibling_coordinates 0 o L) as K.
  change (negb (Z.land 0 1 =? 0)) with false in K.
  change (negb (Z.land 0 2 =? 0)) with false in K.
  change (negb (Z.land 0 4 =? 0)) with false in K.
  unfold key in K. injection K as Kx Ky Kz Kl.
  destruct (valid_decomp o V)
    as (k & m & qx & qy & qz & Ekm & Em & Eh & Es & EH & Ex & Hx & Ey & Hy
        & Ez & Hz & EM).
  unfold key, parent. cbn [x y z level set_level].
  rewrite Kx, Ky, Kz, Kl, Eh, Ex, Ey, Ez.
  rewrite !ldiff_parent, !sibling_coordinate_aligned by lia.
  cbn [Z.b2z]. rewrite !Z.add_0_r. reflexivity.
Qed.

Lemma parent_valid (o : TMROctant) :
  valid o = true -> 0 < level o ->
  valid (parent o) = true /\ level (parent o) = level o - 1 /\
  encloses (parent o) o = true.
Proof.
  intros V L. pose proof (parent_sibling0 o V L) as K.
  destruct (coarse_seed_valid o V L) as (Vs & Ls & Es).
  split; [now rewrite (valid_key _ _ K)|]. split; [reflexivity|].
  now rewrite (encloses_key _ _ _ o K eq_refl).
Qed.

Lemma parent_coordinates (o : TMROctant) :
  valid o = true -> 0 < level o ->
  x (parent o) = x (getSibling 0 o) /\ y (parent o) = y (getSibling 0 o) /\
  z (parent o) = z (getSibling 0 o) /\ level (parent o) = level o - 1.
Proof.
  intros V L. pose proof (parent_sibling0 o V L) as K.
  unfold key in K. injection K as Kx Ky Kz Kl.
  repeat split; assumption.
Qed.

(** The keys of the first and of the last child of the parent. *)
Lemma family_ends_morton (a last : TMROctant) :
  valid a = true -> valid last = true -> 0 < level a ->
  childId a = 0 -> childId last = 7 ->
  okey a = okey (getSibling 0 last) ->
  morton a = morton (parent a) /\
  morton last = morton (parent a) + 7 * span (level a) /\
  span (level (parent a)) = 8 * span (level a).
Proof.
  intros Va Vl L Ca Cl E.
  destruct (parent_valid a Va L) as (Vp & Lp & _).
  pose proof (valid_range a Va) as Ra.
  assert (Lp' : level (parent a) < TMR_MAX_LEVEL) by lia.
  set (c0 := set_level (parent a) (level (parent a) + 1)).
  assert (K0 : key (getSibling 0 a) = key a).
  { rewrite <- Ca at 1. apply getSibling_childId. }
  assert (Kc : key c0 = key a).
  { rewrite <- K0.
    destruct (parent_coordinates a Va L) as (Kx & Ky & Kz & Kl).
    unfold key, c0. cbn [x y z level set_level].
    rewrite Kx, Ky, Kz, Kl, getSibling_level. repeat f_equal. lia. }
  assert (Kl : key last = key (getSibling 7 c0)).
  { rewrite <- (getSibling_childId last), Cl.
    rewrite <- (getSibling_getSibling 7 0 last).
    apply getSibling_key. rewrite Kc. symmetry.
    apply okey_key; auto using valid_in_domain, getSibling_valid. }
  pose proof (child_morton (parent a) Vp Lp' 7 ltac:(simpl; tauto)) as M7.
  pose proof (child_morton (parent a) Vp Lp' 0 ltac:(simpl; tauto)) as M0.
  fold c0 in M7, M0.
  assert (K00 : key (getSibling 0 c0) = key a).
  { rewrite (getSibling_key 0 c0 a Kc). exact K0. }
  apply key_okey in K00, Kl. unfold okey in K00, Kl.
  injection K00 as Em _. injection Kl as El _.
  replace (level (parent a) + 1) with (level a) in * by lia.
  split; [lia|]. split; [lia|].
  destruct (parent_decomp (parent a) Vp Lp')
    as (k & m & qx & qy & qz & _ & _ & _ & _ & Es & Es2 & _).
  replace (level (parent a) + 1) with (level a) in * by lia.
  rewrite Es, Es2. reflexivity.
Qed.

(** What lies between the first and the last child of a parent in a sorted
    array of valid octants lies inside the parent. *)
Lemma between_family_ends (a e last : TMROctant) :
  valid a = true -> valid e = true -> valid last = true -> 0 < level a ->
  childId a = 0 -> childId last = 7 ->
  okey a = okey (getSibling 0 last) ->
  olt a e -> ole e last ->
  encloses (parent a) e = true.
Proof.
  intros Va Ve Vl L Ca Cl E Hae Hel.
  destruct (family_ends_morton a last Va Vl L Ca Cl E) as (Ma & Ml & Sp).
  destruct (parent_valid a Va L) as (Vp & Lp & _).
  pose proof (span_pos (level a) ltac:(pose proof (valid_range a Va); lia)) as P.
  assert (Hle : morton e <= morton last).
  { destruct Hel as [H|H].
    - unfold olt, lex_lt, okey in H. simpl in H. lia.
    - unfold okey in H. injection H as H _. lia. }
  assert (Hpe : olt (parent a) e).
  { unfold olt, lex_lt, okey in *. cbn [fst snd] in *. lia. }
  destruct (encloses (parent a) e) eqn:N1; [reflexivity|exfalso].
  destruct (encloses e (parent a)) eqn:N2.
  - pose proof (encloses_morton e (parent a) Ve
                  ltac:(pose proof (valid_range a Va); lia) N2) as B.
    assert (Em : morton e = morton (parent a)).
    { unfold olt, lex_lt, okey in Hpe. cbn [fst snd] in Hpe. lia. }
    assert (Ll : level (parent a) < level e).
    { unfold olt, lex_lt, okey in Hpe. cbn [fst snd] in Hpe. lia. }
    apply encloses_spec in N2.
    pose proof (valid_range e Ve) as Re.
    pose proof (valid_range (parent a) Vp) as Rp.
    assert (edge (level e) < edge (level (parent a))).
    { rewrite !edge_pow2 by lia. apply Z.pow_lt_mono_r; lia. }
    lia.
  - pose proof (disjoint_morton (parent a) e Vp Ve Hpe N1 N2). lia.
Qed.

(** ** The scan of [coarsen] *)

Lemma coarsen_scan_from (skip : nat) (array : list TMROctant) (c : TMROctant) :
  In c (coarsen_scan skip array []) ->
  In c array \/
  exists a, In a array /\ 0 < level a /\ childId a = 0 /\ c = parent a.
Proof.
  revert skip. induction array as [|a rest IH]; intros skip H; [destruct H|].
  destruct skip as [|k].
  - rewrite coarsen_scan_here in H.
    match type of H with context [if ?t then _ else _] => destruct t eqn:T end.
    + rewrite !andb_true_iff in T. destruct T as ((((T1 & T2) & _) & _) & _).
      apply Z.gtb_lt in T1. apply Z.eqb_eq in T2.
      destruct H as [<-|H].
      * right. exists a. simpl. auto.
      * apply IH in H. destruct H as [H|(b & Hb & H)]; [simpl; auto|].
        right. exists b. simpl. auto.
    + destruct H as [<-|H]; [simpl; auto|].
      apply IH in H. destruct H as [H|(b & Hb & H)]; [simpl; auto|].
      right. exists b. simpl. auto.
  - rewrite coarsen_scan_skip in H. apply IH in H.
    destruct H as [H|(b & Hb & H)]; [simpl; auto|].
    right. exists b. simpl. auto.
Qed.

Lemma coarsen_scan_length (skip : nat) (array : list TMROctant) :
  (length (coarsen_scan skip array []) <= length array)%nat.
Proof.
  revert skip. induction array as [|a rest IH]; intros skip; [simpl; lia|].
  destruct skip as [|k].
  - rewrite coarsen_scan_here.
    match goal with |- context [if ?t then _ else _] => destruct t end;
      cbn [length]; apply le_n_S, IH.
  - rewrite coarsen_scan_skip. cbn [length]. specialize (IH k). lia.
Qed.

Lemma coarsen_scan_short (array : list TMROctant) :
  (length array < 8)%nat -> coarsen_scan 0 array [] = array.
Proof.
  induction array as [|a rest IH]; intros L; [reflexivity|].
  rewrite coarsen_scan_here.
  destruct (Z.ltb_spec 7 (Z.of_nat (length (a :: rest)))) as [H|_]; [lia|].
  rewrite andb_false_r. cbn [andb]. f_equal. apply IH. cbn [length] in L. lia.
Qed.

Lemma insert_length (a : TMROctant) (l : list TMROctant) :
  length (insert a l) = S (length l).
Proof.
  induction l as [|b t IH]; [reflexivity|]. cbn [insert].
  destruct (compare a b <=? 0); cbn [length]; [reflexivity|now rewrite IH].
Qed.

Lemma sort_length (l : list TMROctant) : length (sort l) = length l.
Proof.
  induction l as [|a t IH]; [reflexivity|].
  unfold sort in *. cbn [fold_right length]. now rewrite insert_length, IH.
Qed.

Lemma uniquify_length (l : list TMROctant) :
  (length (uniquify l) <= length l)%nat.
Proof.
  induction l as [|a t IH]; [simpl; lia|].
  cbn [uniquify]. destruct t as [|b t']; [simpl; lia|].
  destruct (compare a b =? 0); cbn [length] in *; lia.
Qed.

Lemma TMROctantArray_sort_length (l : list TMROctant) :
  (length (TMROctantArray_sort l) <= length l)%nat.
Proof.
  unfold TMROctantArray_sort. rewrite <- (sort_length l). apply uniquify_length.
Qed.

Lemma firstn_In_nth (n : nat) (l : list TMROctant) (e : TMROctant) :
  In e (firstn n l) -> exists i, (i < n)%nat /\ nth_error l i = Some e.
Proof.
  revert l. induction n as [|n IH]; intros [|a t] H; try destruct H.
  - exists 0%nat. split; [lia|]. now subst.
  - apply IH in H. destruct H as (i & Hi & E). exists (S i). split; [lia|exact E].
Qed.

(** Whatever the scan steps over or replaces is enclosed by what it emits. *)
Lemma coarsen_scan_encloses (skip : nat) (array : list TMROctant)
  (e : TMROctant) :
  Sorted olt array -> forallb valid array = true ->
  In e (skipn skip array) ->
  exists p, In p (coarsen_scan skip array []) /\ encloses p e = true.
Proof.
  revert skip. induction array as [|a rest IH]; intros skip S V H.
  - destruct skip; destruct H.
  - assert (Sr : Sorted olt rest) by (inversion S; assumption).
    cbn [forallb] in V. apply andb_true_iff in V. destruct V as [Va Vr].
    destruct skip as [|k].
    2:{ rewrite coarsen_scan_skip. cbn [skipn] in H. now apply IH. }
    rewrite coarsen_scan_here. cbn [skipn] in H.
    assert (Self : forall o, valid o = true -> encloses o o = true).
    { intros o Vo. apply encloses_spec. pose proof (valid_range o Vo). lia. }
    match goal with |- context [if ?t then _ else _] => destruct t eqn:T end.
    + rewrite !andb_true_iff in T.
      destruct T as ((((T1 & T2) & T3) & T4) & T5).
      apply Z.gtb_lt in T1. apply Z.eqb_eq in T2, T4. apply Z.ltb_lt in T3.
      apply compare_eq in T5.
      destruct H as [<-|H].
      { exists (parent a). split; [now left|]. now apply parent_valid. }
      rewrite <- (firstn_skipn 7 rest) in H. apply in_app_iff in H.
      destruct H as [H|H].
      2:{ destruct (IH 7%nat Sr Vr H) as (p & Hp & Ep).
          exists p. split; [now right|assumption]. }
      exists (parent a). split; [now left|].
      apply firstn_In_nth in H. destruct H as (i & Hi & Ei).
      cbn [length] in T3.
      assert (E6 : nth_error rest 6 = Some (nth 7 (a :: rest) a)).
      { cbn [nth]. apply nth_error_nth'. lia. }
      set (last := nth 7 (a :: rest) a) in *.
      rewrite forallb_forall in Vr.
      apply (between_family_ends a e last); try assumption.
      * apply Vr. eapply nth_error_In; eassumption.
      * apply Vr. eapply nth_error_In; eassumption.
      * apply Sorted_olt_strong in S. inversion S as [|? ? _ F]; subst.
        rewrite Forall_forall in F. apply F.
        eapply nth_error_In; eassumption.
      * destruct (Nat.eq_dec i 6) as [->|Ne].
        -- right. congruence.
        -- left. apply (Sorted_olt_nth rest i 6); try assumption. lia.
    + destruct H as [<-|H].
      { exists a. split; [now left|]. now apply Self. }
      destruct (IH 0%nat Sr Vr H) as (p & Hp & Ep).
      exists p. split; [now right|assumption].
Qed.

(** * Further properties of [coarsen] *)

(** X15. [coarsen] emits nothing but elements of the tree and parents of elements
    that are a child 0 below the root level, and it returns at most as many
    octants as it was given. *)
Theorem coarsen_elements_origin (tree : TMROctree) :
  (forall c, In c (elements (coarsen tree)) ->
     In c (elements tree) \/
     exists a, In a (elements tree) /\ 0 < level a /\ childId a = 0 /\
               c = parent a) /\
  (length (elements (coarsen tree)) <= length (elements tree))%nat.
Proof.
  unfold coarsen, TMROctree_of_array, queue_toArray. cbn [elements]. split.
  - intros c Hc. apply TMROctantArray_sort_incl in Hc.
    now apply coarsen_scan_from in Hc.
  - etransitivity; [apply TMROctantArray_sort_length|apply coarsen_scan_length].
Qed.

(** X16. A sorted array of fewer than eight elements has no family to merge:
    [coarsen] returns it as it is. *)
Theorem coarsen_short_array (tree : TMROctree) :
  sorted (elements tree) = true -> (length (elements tree) < 8)%nat ->
  elements (coarsen tree) = elements tree.
Proof.
  intros Hs Hl. unfold coarsen, TMROctree_of_array, queue_toArray.
  cbn [elements]. rewrite coarsen_scan_short by assumption.
  apply TMROctantArray_sort_id. now apply sorted_Sorted.
Qed.

(** X17. [coarsen] keeps the octant invariants. *)
Theorem coarsen_keeps_valid (tree : TMROctree) :
  forallb valid (elements tree) = true ->
  forallb valid (elements (coarsen tree)) = true.
Proof.
  intros Hv. rewrite forallb_forall in Hv. apply forallb_forall.
  intros c Hc. unfold coarsen, TMROctree_of_array, queue_toArray in Hc.
  cbn [elements] in Hc. apply TMROctantArray_sort_incl in Hc.
  apply coarsen_scan_from in Hc.
  destruct Hc as [Hc|(a & Ha & La & _ & ->)]; [now apply Hv|].
  apply parent_valid; [now apply Hv|assumption].
Qed.

(** X18. [coarsen] opens no hole: when the cubes of a sorted tree of valid
    octants cover the domain, so do the cubes of the coarsened tree, even
    when the eight entries that a parent replaces are not its children. *)
Theorem coarsen_keeps_cover (tree : TMROctree) :
  sorted (elements tree) = true -> forallb valid (elements tree) = true ->
  covers (elements tree) -> covers (elements (coarsen tree)).
Proof.
  intros Hs Hv Hcov a b c Ha Hb Hc.
  destruct (Hcov a b c Ha Hb Hc) as (e & He & Hx & Hy & Hz).
  apply sorted_Sorted in Hs.
  destruct (coarsen_scan_encloses 0 (elements tree) e Hs Hv He)
    as (p & Hp & Ep).
  assert (Vq : forall q, In q (coarsen_scan 0 (elements tree) []) ->
                         valid q = true).
  { intros q Hq. rewrite forallb_forall in Hv. apply coarsen_scan_from in Hq.
    destruct Hq as [Hq|(o & Ho & Lo & _ & ->)]; [now apply Hv|].
    apply parent_valid; [now apply Hv|assumption]. }
  destruct (TMROctantArray_sort_keeps p _ Hp) as (q & Hq & Eq).
  assert (K : key q = key p).
  { apply okey_key; [| |assumption]; apply valid_in_domain, Vq;
      [now apply TMROctantArray_sort_incl|assumption]. }
  exists q. split; [exact Hq|].
  apply encloses_spec in Ep. unfold key in K. injection K as Kx Ky Kz Kl.
  rewrite Kx, Ky, Kz, Kl.
  pose proof (edge_nonneg (level e)). lia.
Qed.

(** ** The level-uniform constructor *)

Lemma axis_loop_values (h : Z) (k : nat) :
  0 < h -> forall (fuel : nat) (i : Z),
  hmax = h * (i + Z.of_nat k) -> (k < fuel)%nat ->
  axis_loop fuel h (h * i)
  = Some (map (fun j => h * (i + Z.of_nat j)) (seq 0 k)).
Proof.
  intros Hh. induction k as [|k IH]; intros fuel i E L;
    (destruct fuel as [|fuel]; [lia|]); cbn [axis_loop].
  - destruct (Z.ltb_spec (h * i) hmax); [lia|reflexivity].
  - destruct (Z.ltb_spec (h * i) hmax); [|nia].
    replace (h * i + h) with (h * (i + 1)) by lia.
    rewrite IH by lia. cbn [option_map seq map]. do 2 f_equal.
    + f_equal. lia.
    + rewrite <- seq_shift, map_map. apply map_ext. intros j. f_equal. lia.
Qed.

Lemma NoDup_flat_map {A B : Type} (f : A -> list B) (l : list A) :
  NoDup l -> (forall a, In a l -> NoDup (f a)) ->
  (forall a a' b, In a l -> In a' l -> In b (f a) -> In b (f a') -> a = a') ->
  NoDup (flat_map f l).
Proof.
  induction 1 as [|a l Ha Hl IH]; intros Hf Hd; cbn [flat_map]; [constructor|].
  apply NoDup_app.
  - apply Hf. now left.
  - apply IH; [intros; apply Hf; now right|].
    intros a1 a2 b H1 H2. apply Hd; now right.
  - intros b Hb Hb'. apply in_flat_map in Hb'. destruct Hb' as (a' & Ha' & Hb').
    apply Ha. rewrite (Hd a a' b); auto; [now left|now right].
Qed.

Lemma insert_NoDup (a : TMROctant) (l : list TMROctant) :
  ~ In (okey a) (map okey l) -> NoDup (map okey l) ->
  NoDup (map okey (insert a l)).
Proof.
  induction l as [|b t IH]; intros Ha Hl; cbn [insert].
  - constructor; [intros []|constructor].
  - destruct (compare a b <=? 0); [now constructor|].
    cbn [map] in *. inversion Hl as [|? ? Hb Ht]; subst. constructor.
    + intros H. apply in_map_iff in H. destruct H as (c & Ec & Hc).
      apply insert_In in Hc. destruct Hc as [->|Hc].
      * apply Ha. left. congruence.
      * apply Hb. rewrite <- Ec. now apply in_map.
    + apply IH; [|assumption]. intros H. apply Ha. now right.
Qed.

Lemma sort_NoDup (l : list TMROctant) :
  NoDup (map okey l) -> NoDup (map okey (sort l)).
Proof.
  induction l as [|a t IH]; intros H; [constructor|].
  cbn [map] in H. apply NoDup_cons_iff in H. destruct H as [Ha Ht].
  change (sort (a :: t)) with (insert a (sort t)).
  apply insert_NoDup; [|apply IH; exact Ht].
  intros H'. apply Ha. apply in_map_iff in H'. destruct H' as (c & Ec & Hc).
  apply (proj1 (sort_In c t)) in Hc. rewrite <- Ec. now apply in_map.
Qed.

Lemma Sorted_ole_NoDup (l : list TMROctant) :
  Sorted ole l -> NoDup (map okey l) -> Sorted olt l.
Proof.
  induction 1 as [|a t St IH Ha]; intros N; [constructor|].
  cbn [map] in N. inversion N as [|? ? Na Nt]; subst.
  constructor; [now apply IH|].
  destruct Ha as [|b t Hab]; constructor.
  destruct Hab as [H|H]; [assumption|].
  exfalso. apply Na. left. now symmetry.
Qed.

(** Sorting drops nothing from an array without duplicates. *)
Lemma TMROctantArray_sort_NoDup_length (l : list TMROctant) :
  NoDup (map okey l) -> length (TMROctantArray_sort l) = length l.
Proof.
  intros N. unfold TMROctantArray_sort.
  rewrite uniquify_sorted_id; [apply sort_length|].
  apply Sorted_ole_NoDup; [apply sort_Sorted|now apply sort_NoDup].
Qed.

Lemma check_level_in_range (refine_level : Z) :
  refine_level <= TMR_MAX_LEVEL ->
  check_level refine_level = Z.max 0 refine_level.
Proof.
  intros H. unfold check_level.
  destruct (Z.ltb_spec refine_level 0); [lia|].
  destruct (Z.gtb_spec (refine_level - 1) TMR_MAX_LEVEL); lia.
Qed.

(** * The constructors *)

(** X19. The level-uniform constructor, for a level up to [TMR_MAX_LEVEL] whose
    octant count [nx*nx*nx] fits an [int]: a negative level counts as 0,
    and the tree is the sorted array of the [8^level] valid octants of that
    level, which cover the domain. *)
Theorem TMROctree_uniform_tree (refine_level : Z) :
  refine_level <= TMR_MAX_LEVEL ->
  8 ^ Z.max 0 refine_level < 2 ^ 31 ->
  exists t, TMROctree_uniform refine_level = Some t /\
    forallb (fun e => valid e && (level e =? Z.max 0 refine_level))
            (elements t) = true /\
    sorted (elements t) = true /\
    covers (elements t) /\
    Z.of_nat (length (elements t)) = 8 ^ Z.max 0 refine_level.
Proof.
  intros Hr _. unfold TMROctree_uniform.
  rewrite check_level_in_range by assumption.
  set (L := Z.max 0 refine_level).
  assert (HL : 0 <= L <= TMR_MAX_LEVEL) by lia.
  destruct (Z.ltb_spec (TMR_MAX_LEVEL - L) 0) as [|_]; [lia|].
  pose proof (edge_pos L ltac:(lia)) as Hh.
  assert (Enx : Z.shiftl 1 L = 2 ^ L) by (apply Z.shiftl_1_l).
  assert (Pnx : 0 < 2 ^ L) by (apply Z.pow_pos_nonneg; lia).
  assert (EH : hmax = edge L * 2 ^ L).
  { rewrite hmax_pow2, edge_pow2, <- Z.pow_add_r by lia. f_equal. lia. }
  set (h := edge L) in *. rewrite Enx.
  set (n := Z.to_nat (2 ^ L)).
  pose proof (axis_loop_values h n Hh (S n) 0 ltac:(subst n; lia)
                ltac:(lia)) as AX.
  rewrite Z.mul_0_r in AX. rewrite AX. clear AX.
  set (cs := map (fun j => h * (0 + Z.of_nat j)) (seq 0 n)).
  assert (Hcs : forall a, In a cs <-> exists q, 0 <= q < 2 ^ L /\ a = h * q).
  { intros a. subst cs. rewrite in_map_iff. split.
    - intros (j & <- & Hj). apply in_seq in Hj. exists (Z.of_nat j).
      split; [subst n; lia|f_equal].
    - intros (q & Hq & ->). exists (Z.to_nat q). split; [f_equal; lia|].
      apply in_seq. subst n. lia. }
  assert (Ncs : NoDup cs).
  { subst cs. apply NoDup_map_NoDup_ForallPairs; [|apply seq_NoDup].
    intros i j _ _ E. nia. }
  assert (Lcs : length cs = n) by (subst cs; now rewrite length_map, length_seq).
  set (array := flat_map (fun c => flat_map (fun b =>
                  map (fun a => mkOctant a b c L 0) cs) cs) cs).
  assert (Harr : forall o, In o array <->
            exists a b c, In a cs /\ In b cs /\ In c cs /\
                          o = mkOctant a b c L 0).
  { intros o. subst array. rewrite in_flat_map. split.
    - intros (c & Hc & H). apply in_flat_map in H. destruct H as (b & Hb & H).
      apply in_map_iff in H. destruct H as (a & <- & Ha). eauto 8.
    - intros (a & b & c & Ha & Hb & Hc & ->). exists c. split; [assumption|].
      apply in_flat_map. exists b. split; [assumption|].
      apply in_map_iff. eauto. }
  assert (Varr : forall o, In o array -> valid o = true /\ level o = L).
  { intros o Ho. apply Harr in Ho.
    destruct Ho as (a & b & c & Ha & Hb & Hc & ->).
    apply Hcs in Ha, Hb, Hc.
    destruct Ha as (qa & Hqa & ->), Hb as (qb & Hqb & ->),
      Hc as (qc & Hqc & ->).
    split; [|reflexivity]. apply valid_spec. cbn [x y z level]. fold h.
    rewrite EH, !(Z.mul_comm h), !Z.mod_mul by lia. nia. }
  assert (Narr : NoDup (map okey array)).
  { apply NoDup_map_NoDup_ForallPairs.
    - intros o o' Ho Ho' E.
      destruct (Varr o Ho) as (Vo & _). destruct (Varr o' Ho') as (Vo' & _).
      apply okey_key in E; auto using valid_in_domain.
      apply Harr in Ho, Ho'.
      destruct Ho as (a & b & c & _ & _ & _ & ->).
      destruct Ho' as (a' & b' & c' & _ & _ & _ & ->).
      unfold key in E. cbn [x y z level] in E. congruence.
    - subst array. apply NoDup_flat_map; [assumption| |].
      + intros c _. apply NoDup_flat_map; [assumption| |].
        * intros b _. apply NoDup_map_NoDup_ForallPairs; [|assumption].
          intros a a' _ _ E. congruence.
        * intros b b' o _ _ H H'. apply in_map_iff in H, H'.
          destruct H as (a & <- & _), H' as (a' & E & _). congruence.
      + intros c c' o _ _ H H'. apply in_flat_map in H, H'.
        destruct H as (b & _ & H), H' as (b' & _ & H').
        apply in_map_iff in H, H'.
        destruct H as (a & <- & _), H' as (a' & E & _). congruence. }
  eexists. split; [reflexivity|]. cbn [elements].
  split; [|split; [|split]].
  - apply forallb_forall. intros e He. apply TMROctantArray_sort_incl in He.
    destruct (Varr e He) as (V & El). rewrite V, El. apply Z.eqb_refl.
  - apply sorted_Sorted, TMROctantArray_sort_Sorted.
  - intros a b c Ha Hb Hc.
    assert (Hq : forall p, 0 <= p < hmax ->
              In (h * (p / h)) cs /\ h * (p / h) <= p < h * (p / h) + h).
    { intros p Hp. pose proof (Z.div_mod p h ltac:(lia)) as D.
      pose proof (Z.mod_pos_bound p h Hh) as B. split; [|lia].
      apply Hcs. exists (p / h). split; [|reflexivity].
      split; [apply Z.div_pos; lia|].
      apply Z.div_lt_upper_bound; lia. }
    destruct (Hq a Ha) as (Ia & Ba), (Hq b Hb) as (Ib & Bb),
      (Hq c Hc) as (Ic & Bc).
    set (o := mkOctant (h * (a / h)) (h * (b / h)) (h * (c / h)) L 0).
    assert (Ho : In o array) by (apply Harr; exists (h * (a / h)),
      (h * (b / h)), (h * (c / h)); auto).
    destruct (TMROctantArray_sort_keeps o array Ho) as (e & He & Ee).
    exists e. split; [assumption|].
    assert (K : key e = key o).
    { apply okey_key; [| |assumption]; apply valid_in_domain, Varr;
        [now apply TMROctantArray_sort_incl|assumption]. }
    unfold key in K. injection K as Kx Ky Kz Kl.
    rewrite Kx, Ky, Kz, Kl. cbn [x y z level o]. fold h. lia.
  - rewrite TMROctantArray_sort_NoDup_length by assumption.
    subst array.
    assert (Lf : forall (A B : Type) (f : A -> list B) (l : list A) (m : nat),
              (forall a, length (f a) = m) ->
              length (flat_map f l) = (length l * m)%nat).
    { intros A B f l m Hf. induction l as [|a l IH]; [reflexivity|].
      cbn [flat_map length]. rewrite length_app, Hf, IH. lia. }
    rewrite (Lf _ _ _ cs (n * n)%nat).
    + rewrite Lcs. subst n. rewrite !Nat2Z.inj_mul, Z2Nat.id by lia.
      replace 8 with (2 * 2 * 2) by reflexivity.
      rewrite !Z.pow_mul_l. lia.
    + intros c. rewrite (Lf _ _ _ cs n); [now rewrite Lcs|].
      intros b. now rewrite length_map.
Qed.

(** ** The random constructor *)

Lemma random_octants_spec (rand : nat -> Z) (min_level max_level : Z)
  (nrand call : nat) :
  0 <= min_level -> min_level <= max_level -> max_level <= TMR_MAX_LEVEL ->
  (forall n, 0 <= rand n) ->
  length (random_octants rand call nrand min_level max_level) = nrand /\
  forall o, In o (random_octants rand call nrand min_level max_level) ->
    valid o = true /\ min_level <= level o <= max_level.
Proof.
  intros H0 H1 H2 Hr. revert call.
  induction nrand as [|n IH]; intros call; cbn [random_octants].
  - split; [reflexivity|intros o []].
  - destruct (IH (call + 4)%nat) as (IL & IV). split; [cbn [length]; lia|].
    intros o [<-|Ho]; [|now apply IV].
    pose proof (Z.rem_bound_pos (rand call) (max_level - min_level + 1)
                  (Hr _) ltac:(lia)) as Bl.
    set (l := min_level + Z.rem (rand call) (max_level - min_level + 1)) in *.
    assert (Hl : 0 <= l <= TMR_MAX_LEVEL) by lia.
    assert (Enx : Z.shiftl 1 l = 2 ^ l) by apply Z.shiftl_1_l.
    assert (Pnx : 0 < 2 ^ l) by (apply Z.pow_pos_nonneg; lia).
    pose proof (edge_pos l ltac:(lia)) as Hh.
    assert (EH : hmax = edge l * 2 ^ l).
    { rewrite hmax_pow2, edge_pow2, <- Z.pow_add_r by lia. f_equal. lia. }
    rewrite Enx.
    pose proof (Z.rem_bound_pos (rand (call + 1)%nat) (2 ^ l) (Hr _) Pnx) as Ba.
    pose proof (Z.rem_bound_pos (rand (call + 2)%nat) (2 ^ l) (Hr _) Pnx) as Bb.
    pose proof (Z.rem_bound_pos (rand (call + 3)%nat) (2 ^ l) (Hr _) Pnx) as Bc.
    split; [|cbn [level]; lia].
    apply valid_spec. cbn [x y z level].
    rewrite EH, !(Z.mul_comm (edge l)), !Z.mod_mul by lia. nia.
Qed.

(** X20. The random constructor, for level bounds with
    [0 <= min_level <= max_level <= TMR_MAX_LEVEL] and whatever [rand]
    returns: the tree is a sorted array of at most [nrand] valid octants
    whose levels lie between the bounds. *)
Theorem TMROctree_random_tree (rand : nat -> Z)
  (nrand min_level max_level : Z) :
  0 <= nrand ->
  0 <= min_level -> min_level <= max_level -> max_level <= TMR_MAX_LEVEL ->
  (forall n, 0 <= rand n) ->
  let t := TMROctree_random rand nrand min_level max_level in
  forallb (fun e => valid e && (min_level <=? level e)
                    && (level e <=? max_level)) (elements t) = true /\
  sorted (elements t) = true /\
  Z.of_nat (length (elements t)) <= nrand.
Proof.
  intros Hn H0 H1 H2 Hr t. subst t. unfold TMROctree_random. cbn [elements].
  destruct (random_octants_spec rand min_level max_level (Z.to_nat nrand) 0
              H0 H1 H2 Hr) as (L & V).
  split; [|split].
  - apply forallb_forall. intros e He. apply TMROctantArray_sort_incl in He.
    destruct (V e He) as (Ve & Le). rewrite Ve. cbn [andb].
    apply andb_true_iff. split; apply Z.leb_le; lia.
  - apply sorted_Sorted, TMROctantArray_sort_Sorted.
  - pose proof (TMROctantArray_sort_length
                  (random_octants rand 0 (Z.to_nat nrand) min_level max_level)).
    lia.
Qed.

(** ** The element-to-node table *)

Lemma TMROctantArray_position_finds (array : list TMROctant)
  (q t : TMROctant) :
  In t array -> x t = x q -> y t = y q -> z t = z q ->
  exists i t', TMROctantArray_position array q = Some i /\
    0 <= i < Z.of_nat (length array) /\
    nth_error array (Z.to_nat i) = Some t' /\
    x t' = x q /\ y t' = y q /\ z t' = z q.
Proof.
  intros Ht Ex Ey Ez. induction array as [|a rest IH]; [destruct Ht|].
  cbn [TMROctantArray_position].
  destruct ((x a =? x q) && (y a =? y q) && (z a =? z q)) eqn:T.
  - rewrite !andb_true_iff, !Z.eqb_eq in T. destruct T as ((Tx & Ty) & Tz).
    exists 0, a. cbn [length]. repeat split; auto; lia.
  - destruct Ht as [->|Ht].
    { rewrite Ex, Ey, Ez, !Z.eqb_refl in T. discriminate. }
    destruct (IH Ht) as (i & t' & -> & Hi & Hn & Hc).
    exists (Z.succ i), t'. cbn [option_map length]. split; [reflexivity|].
    split; [lia|]. split; [|assumption].
    rewrite Z2Nat.inj_succ by lia. exact Hn.
Qed.

(** The nodes of [createNodes] carry the corners of the elements. *)
Lemma createNodes_has_corner (elems : list TMROctant) (e p : TMROctant) :
  forallb valid elems = true -> In e elems ->
  In p (node_block e (edge (level e)) [0; 1]) ->
  exists t, In t (TMROctantArray_sort (flat_map (candidates 2) elems)) /\
            x t = x p /\ y t = y p /\ z t = z p.
Proof.
  intros Hv He Hp. rewrite forallb_forall in Hv.
  assert (Hc : forall e' p', In e' elems ->
            In p' (node_block e' (edge (level e')) [0; 1]) ->
            0 <= x p' < 2 * hmax /\ 0 <= y p' < 2 * hmax /\
            0 <= z p' < 2 * hmax).
  { intros e' p' He' Hp'. pose proof (valid_range e' (Hv e' He')) as R.
    apply node_block_In in Hp'.
    destruct Hp' as (ii & jj & kk & Hi & Hj & Hk & ->). cbn [x y z].
    simpl in Hi, Hj, Hk.
    destruct Hi as [<-|[<-|[]]], Hj as [<-|[<-|[]]], Hk as [<-|[<-|[]]]; lia. }
  assert (Hall : In p (flat_map (candidates 2) elems)).
  { apply in_flat_map. exists e. split; [assumption|exact Hp]. }
  destruct (TMROctantArray_sort_keeps p _ Hall) as (t & Ht & Et).
  exists t. split; [assumption|].
  pose proof Ht as Ht'. apply TMROctantArray_sort_incl in Ht'.
  apply in_flat_map in Ht'. destruct Ht' as (e' & He' & Ht').
  change (candidates 2 e') with (node_block e' (edge (level e')) [0; 1]) in Ht'.
  destruct (Hc e' t He' Ht') as (Tx & Ty & Tz).
  destruct (Hc e p He Hp) as (Px & Py & Pz).
  unfold okey in Et. injection Et as Em _.
  now apply morton_inj.
Qed.

(** * The element-to-node table of the example *)

(** X21. After [createNodes] with an order of at most 2 on a tree of valid
    octants, the lookup of the eight corners of an element in the node array
    never meets the null pointer: entry [ii + 2*jj + 4*kk] of the table is
    the one-based position of a node that has the coordinates of that
    corner. *)
Theorem element_node_indices_of_createNodes (tree : TMROctree) (_order : Z)
  (e : TMROctant) :
  forallb valid (elements tree) = true -> _order <= 2 ->
  In e (elements tree) ->
  exists tree' ns idx,
    createNodes tree _order = Some tree' /\
    nodes tree' = Some ns /\
    element_node_indices ns e = Some idx /\
    forall ii jj kk, In ii [0; 1] -> In jj [0; 1] -> In kk [0; 1] ->
      exists i t,
        nth_error idx (Z.to_nat (ii + 2 * jj + 4 * kk)) = Some i /\
        1 <= i <= Z.of_nat (length ns) /\
        nth_error ns (Z.to_nat (i - 1)) = Some t /\
        x t = x e + ii * edge (level e) /\
        y t = y e + jj * edge (level e) /\
        z t = z e + kk * edge (level e).
Proof.
  intros Hv Ho He. unfold createNodes.
  assert (Eo : clamp_order _order = 2).
  { unfold clamp_order. destruct (Z.ltb_spec _order 2).
    - reflexivity.
    - destruct (Z.gtb_spec _order 3); lia. }
  rewrite Eo.
  assert (Hfit : levels_fit 2 (elements tree) = true).
  { apply forallb_forall. intros e' He'. rewrite forallb_forall in Hv.
    pose proof (valid_range e' (Hv e' He')).
    apply andb_true_iff. split; apply Z.leb_le; lia. }
  rewrite (all_element_nodes_defined 2 (elements tree) ltac:(auto) Hfit).
  set (ns := TMROctantArray_sort (flat_map (candidates 2) (elements tree))).
  set (h := edge (level e)).
  assert (F : forall ii jj kk, In ii [0; 1] -> In jj [0; 1] -> In kk [0; 1] ->
            exists i t,
              TMROctantArray_position ns
                (mkOctant (x e + ii * h) (y e + jj * h) (z e + kk * h) 0 0)
              = Some i /\
              0 <= i < Z.of_nat (length ns) /\
              nth_error ns (Z.to_nat i) = Some t /\
              x t = x e + ii * h /\ y t = y e + jj * h /\ z t = z e + kk * h).
  { intros ii jj kk Hi Hj Hk.
    destruct (createNodes_has_corner (elements tree) e
                (mkOctant (x e + ii * h) (y e + jj * h) (z e + kk * h) 0 1)
                Hv He) as (t & Ht & Tx & Ty & Tz).
    { apply node_block_In. exists ii, jj, kk. auto. }
    fold ns in Ht.
    apply (TMROctantArray_position_finds ns
             (mkOctant (x e + ii * h) (y e + jj * h) (z e + kk * h) 0 0) t);
      assumption. }
  assert (I01 : In 0 [0; 1] /\ In 1 [0; 1]) by (simpl; auto).
  destruct I01 as (I0 & I1).
  destruct (F 0 0 0 I0 I0 I0) as (i0 & t0 & P0 & B0 & N0 & C0).
  destruct (F 1 0 0 I1 I0 I0) as (i1 & t1 & P1 & B1 & N1 & C1).
  destruct (F 0 1 0 I0 I1 I0) as (i2 & t2 & P2 & B2 & N2 & C2).
  destruct (F 1 1 0 I1 I1 I0) as (i3 & t3 & P3 & B3 & N3 & C3).
  destruct (F 0 0 1 I0 I0 I1) as (i4 & t4 & P4 & B4 & N4 & C4).
  destruct (F 1 0 1 I1 I0 I1) as (i5 & t5 & P5 & B5 & N5 & C5).
  destruct (F 0 1 1 I0 I1 I1) as (i6 & t6 & P6 & B6 & N6 & C6).
  destruct (F 1 1 1 I1 I1 I1) as (i7 & t7 & P7 & B7 & N7 & C7).
  exists (mkOctree (elements tree) (Some ns) 2), ns,
    [i0 + 1; i1 + 1; i2 + 1; i3 + 1; i4 + 1; i5 + 1; i6 + 1; i7 + 1].
  split; [reflexivity|]. split; [reflexivity|]. split.
  - unfold element_node_indices. fold h. cbn [flat_map map app fold_right].
    rewrite P0, P1, P2, P3, P4, P5, P6, P7. reflexivity.
  - intros ii jj kk Hi Hj Hk. simpl in Hi, Hj, Hk.
    destruct Hi as [<-|[<-|[]]], Hj as [<-|[<-|[]]], Hk as [<-|[<-|[]]];
      first
        [ exists (i0 + 1), t0; split; [reflexivity|]; split; [lia|]; split;
          [replace (i0 + 1 - 1) with i0 by lia; exact N0|exact C0]
        | exists (i1 + 1), t1; split; [reflexivity|]; split; [lia|]; split;
          [replace (i1 + 1 - 1) with i1 by lia; exact N1|exact C1]
        | exists (i2 + 1), t2; split; [reflexivity|]; split; [lia|]; split;
          [replace (i2 + 1 - 1) with i2 by lia; exact N2|exact C2]
        | exists (i3 + 1), t3; split; [reflexivity|]; split; [lia|]; split;
          [replace (i3 + 1 - 1) with i3 by lia; exact N3|exact C3]
        | exists (i4 + 1), t4; split; [reflexivity|]; split; [lia|]; split;
          [replace (i4 + 1 - 1) with i4 by lia; exact N4|exact C4]
        | exists (i5 + 1), t5; split; [reflexivity|]; split; [lia|]; split;
          [replace (i5 + 1 - 1) with i5 by lia; exact N5|exact C5]
        | exists (i6 + 1), t6; split; [reflexivity|]; split; [lia|]; split;
          [replace (i6 + 1 - 1) with i6 by lia; exact N6|exact C6]
        | exists (i7 + 1), t7; split; [reflexivity|]; split; [lia|]; split;
          [replace (i7 + 1 - 1) with i7 by lia; exact N7|exact C7] ].
Qed.

(** ** The size of a row of the interpolation *)

Section InterpolationBound.

Variable double : Type.
Variable dmul : double -> double -> double.
Variables d1_0 d0_5 d0_25 d0_125 : double.
Variable cdep_ptr : list Z.
Variable cdep_conn : list Z.
Variable cdep_weights : list double.

Lemma dep_loop_length (n : nat) (jp : Z) (f : double -> double)
  (l : list (TMRIndexWeight double)) :
  dep_loop cdep_conn cdep_weights n jp f = Some l -> length l = n.
Proof.
  revert jp l. induction n as [|n IH]; intros jp l H; cbn [dep_loop] in H.
  - now injection H as <-.
  - destruct (read cdep_conn jp); [|discriminate].
    destruct (read cdep_weights jp); [|discriminate].
    destruct (dep_loop cdep_conn cdep_weights n (jp + 1) f) eqn:E;
      [|discriminate].
    injection H as <-. cbn [length]. f_equal. eapply IH; eassumption.
Qed.

(** The order of the tree, 2 or 3, and the longest row of the dependent
    table: a dependent node hangs on at most [order*order] nodes. *)
Variable ord : Z.
Hypothesis ord_min : 2 <= ord.
Hypothesis rows_bound : forall node lo hi,
  read cdep_ptr node = Some lo -> read cdep_ptr (node + 1) = Some hi ->
  hi - lo <= ord * ord.

Let rows : Z := ord * ord.

Lemma rows_pos : 1 <= rows.
Proof. unfold rows. nia. Qed.

Lemma node_weights_length (t : TMROctant) (w : double) (f : double -> double)
  (l : list (TMRIndexWeight double)) :
  node_weights cdep_ptr cdep_conn cdep_weights t w f = Some l ->
  Z.of_nat (length l) <= rows.
Proof.
  unfold node_weights. destruct (tag t >=? 0).
  - intros [= <-]. cbn [length]. pose proof rows_pos. lia.
  - destruct (read cdep_ptr (- tag t - 1)) as [lo|] eqn:Elo; [|discriminate].
    destruct (read cdep_ptr (- tag t - 1 + 1)) as [hi|] eqn:Ehi; [|discriminate].
    intros H. apply dep_loop_length in H. rewrite H.
    pose proof (rows_bound _ _ _ Elo Ehi). pose proof rows_pos. fold rows in H0. lia.
Qed.

Lemma gather_length (coarse_nodes ps : list TMROctant) (w : double)
  (l : list (TMRIndexWeight double)) :
  gather dmul cdep_ptr cdep_conn cdep_weights coarse_nodes ps w = Some l ->
  Z.of_nat (length l) <= Z.of_nat (length ps) * rows.
Proof.
  revert l. induction ps as [|p ps IH]; intros l H; cbn [gather] in H.
  - injection H as <-. cbn [length]. pose proof rows_pos. lia.
  - destruct (corner_weights dmul cdep_ptr cdep_conn cdep_weights
                coarse_nodes p w) as [l1|] eqn:E1; [|discriminate].
    destruct (gather dmul cdep_ptr cdep_conn cdep_weights coarse_nodes ps w)
      as [l2|] eqn:E2; [|discriminate].
    injection H as <-. specialize (IH l2 eq_refl).
    unfold corner_weights in E1.
    destruct (TMROctantArray_contains coarse_nodes p true); [|discriminate].
    apply node_weights_length in E1.
    rewrite length_app. cbn [length]. lia.
Qed.

Lemma interp_weights_length (coarse_nodes : list TMROctant)
  (fine_i : TMROctant) (l : list (TMRIndexWeight double)) :
  interp_weights dmul d1_0 d0_5 d0_25 d0_125 cdep_ptr cdep_conn cdep_weights
    coarse_nodes fine_i = Some l ->
  Z.of_nat (length l) <= 8 * rows.
Proof.
  pose proof rows_pos as P. unfold interp_weights.
  destruct (TMROctantArray_contains coarse_nodes fine_i true).
  - intros H. apply node_weights_length in H. lia.
  - repeat match goal with
           | |- context [if ?c then _ else _] => destruct c
           end;
      intros H; try (apply gather_length in H; cbn [length flat_map map app] in H;
                     lia).
    all: injection H as <-; cbn [length]; lia.
Qed.

(** X22. The buffer [weights] of [max_size = (order*order*order)*(order*order)]
    entries is large enough: when every row of the dependent table of the
    coarse tree has at most [order*order] entries, the row gathered for a
    fine node has at most [max_size] entries. *)
Theorem interp_weights_fit_buffer (coarse_nodes : list TMROctant)
  (fine_i : TMROctant) (l : list (TMRIndexWeight double)) :
  interp_weights dmul d1_0 d0_5 d0_25 d0_125 cdep_ptr cdep_conn cdep_weights
    coarse_nodes fine_i = Some l ->
  Z.of_nat (length l) <= (ord * ord * ord) * (ord * ord).
Proof.
  intros H. apply interp_weights_length in H. unfold rows in H.
  assert (8 <= ord * ord * ord) by nia. nia.
Qed.

End InterpolationBound.

End Octree.

(** * Instances at [TMR_MAX_LEVEL = 30] *)

(** ** [coarsen] *)

(** C2. On the sorted, duplicate-free array made of the level-1 octants 0
    and 7 with six level-2 octants between them, the scan emits the root:
    entry 0 is a child 0, entry 7 is the child 7 of the same parent, and the
    six entries between them are never looked at, although the eight entries
    are not the children 0..7 of one parent. *)
Theorem coarsen_checks_family_ends_only :
  sorted 30 (gappy 30) = true /\
  forallb (valid 30) (gappy 30) = true /\
  length (gappy 30) = 8%nat /\
  is_family 30 (gappy 30) = false /\
  map key (coarsen_scan 30 0 (gappy 30) []) = [key root] /\
  map key (elements (coarsen 30 (mkOctree (gappy 30) None 2))) = [key root].
Proof. vm_compute. repeat split; reflexivity. Qed.

(** ** [findEnclosing] *)

(** C10. With the two elements 1 and 2 of level 1 and the level-1 octant 0
    as query, the first midpoint is [low]; the query sorts before
    [elems[0]], [high] becomes -1, [mid] becomes -1, the loop ends and
    [elems[-1]] is read. *)
Theorem findEnclosing_reads_before_array :
  sorted 30 (pair 30) = true /\
  length (pair 30) = 2%nat /\
  findEnclosing 30 (pair 30) (level1 30 0) = OutOfBounds (-1).
Proof. vm_compute. repeat split; reflexivity. Qed.

Lemma uniform1_covers : covers 30 (uniform1 30).
Proof.
  assert (Hh : hmax 30 = 1073741824) by (vm_compute; reflexivity).
  assert (He : edge 30 1 = 536870912) by (vm_compute; reflexivity).
  assert (Hu : uniform1 30 =
    [mkOctant 0 0 0 1 0; mkOctant 536870912 0 0 1 1;
     mkOctant 0 536870912 0 1 2; mkOctant 536870912 536870912 0 1 3;
     mkOctant 0 0 536870912 1 4; mkOctant 536870912 0 536870912 1 5;
     mkOctant 0 536870912 536870912 1 6;
     mkOctant 536870912 536870912 536870912 1 7])
    by (vm_compute; reflexivity).
  intros a b c. rewrite Hh, Hu. intros Ha Hb Hc.
  destruct (Z_lt_le_dec a 536870912); destruct (Z_lt_le_dec b 536870912);
    destruct (Z_lt_le_dec c 536870912).
  - exists (mkOctant 0 0 0 1 0).
    split; [left; reflexivity|cbn [x y z level]; rewrite He; lia].
  - exists (mkOctant 0 0 536870912 1 4).
    split; [do 4 right; left; reflexivity|cbn [x y z level]; rewrite He; lia].
  - exists (mkOctant 0 536870912 0 1 2).
    split; [do 2 right; left; reflexivity|cbn [x y z level]; rewrite He; lia].
  - exists (mkOctant 0 536870912 536870912 1 6).
    split; [do 6 right; left; reflexivity|cbn [x y z level]; rewrite He; lia].
  - exists (mkOctant 536870912 0 0 1 1).
    split; [do 1 right; left; reflexivity|cbn [x y z level]; rewrite He; lia].
  - exists (mkOctant 536870912 0 536870912 1 5).
    split; [do 5 right; left; reflexivity|cbn [x y z level]; rewrite He; lia].
  - exists (mkOctant 536870912 536870912 0 1 3).
    split; [do 3 right; left; reflexivity|cbn [x y z level]; rewrite He; lia].
  - exists (mkOctant 536870912 536870912 536870912 1 7).
    split; [do 7 right; left; reflexivity|cbn [x y z level]; rewrite He; lia].
Qed.

Lemma uniform1_tagged : tagged_by_index (uniform1 30).
Proof.
  intros i Hi. change (length (uniform1 30)) with 8%nat in Hi.
  do 8 (destruct i as [|i]; [reflexivity|]). lia.
Qed.

(** C3, as stated, fails: the uniform tree of level 1 is sorted, balanced
    and partitions the domain, the root lies inside the domain, and the
    search for the root returns the null pointer. *)
Lemma findEnclosing_null_on_coarser_octant :
  ~ (forall elems o,
       sorted 30 elems = true -> balanced 30 elems = true ->
       forallb (valid 30) elems = true -> leaves 30 elems = true ->
       covers 30 elems -> valid 30 o = true ->
       exists i e, findEnclosing 30 elems o = Found i /\
                   read elems i = Some e /\ encloses 30 e o = true).
Proof.
  intros H.
  destruct (H (uniform1 30) root) as (i & e & F & _);
    try reflexivity; [apply uniform1_covers|].
  vm_compute in F. discriminate.
Qed.

Lemma findEnclosing_finds_enclosing_element_witness :
  findEnclosing 30 (uniform1 30) (level2_of_1 30 6) = Found 1.
Proof.
  apply (proj1 (findEnclosing_finds_enclosing_element 30 ltac:(lia)
                  (uniform1 30) (level2_of_1 30 6)))
    with (k := 1%nat) (ek := level1 30 1);
    solve [reflexivity | vm_compute; discriminate].
Defined.

(** ** [findEnclosingRange] *)

Lemma findEnclosingRange_exact_witness :
  exists low high,
    findEnclosingRange 30 (uniform1 30) root = Some (low, high) /\
    findEnclosing 30 (uniform1 30) (set_level root 30) = Found low /\
    findEnclosing 30 (uniform1 30)
      (mkOctant (x root + (edge 30 (level root) - 1))
                (y root + (edge 30 (level root) - 1))
                (z root + (edge 30 (level root) - 1)) 30 (tag root))
    = Found (high - 1) /\
    forall (i : nat) (e : TMROctant), nth_error (uniform1 30) i = Some e ->
      (low <= Z.of_nat i < high <-> intersects 30 e root = true).
Proof.
  apply (findEnclosingRange_exact 30 ltac:(lia) (uniform1 30) root).
  - vm_compute; reflexivity.
  - vm_compute; reflexivity.
  - vm_compute; reflexivity.
  - apply uniform1_covers.
  - apply uniform1_tagged.
  - vm_compute; reflexivity.
Defined.

(** ** [refine] and [coarsen] *)

(** C1, as stated, fails: the root followed by the level-1 octant 1 is a
    sorted duplicate-free array of valid octants below [TMR_MAX_LEVEL];
    refining every element and coarsening gives the eight level-1 octants
    (and so it does for the root followed by all its children, see
    [coarsen_refine_on_nested_full]). *)
Lemma coarsen_refine_not_identity_on_nested :
  ~ (forall tree,
       sorted 30 (elements tree) = true ->
       forallb (valid 30) (elements tree) = true ->
       forallb (fun e => level e <? 30) (elements tree) = true ->
       map key (elements (coarsen 30
                  (refine 30 tree (map (fun _ => 1) (elements tree)) 0 30)))
       = map key (elements tree)).
Proof.
  intros H.
  pose proof (H (mkOctree (nested 30) None 2) eq_refl eq_refl eq_refl) as E.
  vm_compute in E. discriminate.
Qed.

Lemma coarsen_refine_roundtrip_witness :
  map key (elements (coarsen 30
             (refine 30 (mkOctree (uniform1 30) None 2)
                     [1; 1; 1; 1; 1; 1; 1; 1] 0 30)))
  = map key (uniform1 30).
Proof.
  apply (coarsen_refine_roundtrip 30 ltac:(lia)
           (mkOctree (uniform1 30) None 2) [1; 1; 1; 1; 1; 1; 1; 1]);
    reflexivity.
Defined.

(** C4, as stated, fails: the tree holding the single level-1 octant 0 has
    all its elements at [max_level = 1]; [refine] with a positive entry adds
    the seven siblings. *)
Lemma refine_at_max_level_adds_siblings :
  ~ (forall tree refinement min_level max_level,
       forallb (fun e => level e =? max_level) (elements tree) = true ->
       length refinement = length (elements tree) ->
       forallb (fun v => 0 <? v) refinement = true ->
       map key (elements (refine 30 tree refinement min_level max_level))
       = map key (elements tree)).
Proof.
  intros H.
  pose proof (H (mkOctree (lone 30) None 2) [1] 0 1 eq_refl eq_refl eq_refl) as E.
  vm_compute in E. discriminate.
Qed.

Lemma refine_at_max_level_unchanged_witness :
  map key (elements (refine 30 (mkOctree (uniform1 30) None 2)
                            [1; 1; 1; 1; 1; 1; 1; 1] 0 1))
  = map key (uniform1 30).
Proof.
  apply (refine_at_max_level_unchanged 30 ltac:(lia)
           (mkOctree (uniform1 30) None 2) [1; 1; 1; 1; 1; 1; 1; 1] 0 1);
    reflexivity.
Defined.

(** ** [createNodes], [createInterpolation] and the constructor *)

(** On a tree whose only element has level [TMR_MAX_LEVEL], order 3 makes
    [createNodes] shift by -1: no candidate is defined. *)
Lemma createNodes_order3_undefined_at_max_level :
  levels_fit 30 2 [mkOctant 0 0 0 30 0] = true /\
  valid 30 (mkOctant 0 0 0 30 0) = true /\
  clamp_order 3 = 3 /\
  element_nodes 30 3 (mkOctant 0 0 0 30 0) = None /\
  createNodes 30 (mkOctree [mkOctant 0 0 0 30 0] None 2) 3 = None.
Proof. vm_compute. repeat split; reflexivity. Qed.

Lemma createNodes_candidates_sorted_unique_witness :
  clamp_order 3 = Z.max 2 (Z.min 3 3) /\ (clamp_order 3 = 2 \/ clamp_order 3 = 3) /\
  (forall e, In e (uniform1 30) ->
     exists cs, element_nodes 30 3 e = Some cs /\
       Z.of_nat (length cs) = 3 * 3 * 3 /\
       forall p, In p cs <->
         exists ii jj kk, 0 <= ii < 3 /\ 0 <= jj < 3 /\ 0 <= kk < 3 /\
           p = mkOctant (x e + ii * (edge 30 (level e) / 2))
                        (y e + jj * (edge 30 (level e) / 2))
                        (z e + kk * (edge 30 (level e) / 2)) 0 1) /\
  exists tree' ns,
    createNodes 30 (mkOctree (uniform1 30) None 2) 3 = Some tree' /\
    order tree' = 3 /\ elements tree' = uniform1 30 /\
    nodes tree' = Some ns /\
    Sorted (olt 30) ns /\
    NoDup (map (fun p => (x p, y p, z p)) ns) /\
    (forall p, In p ns ->
       exists e cs, In e (uniform1 30) /\ element_nodes 30 3 e = Some cs /\
                    In p cs) /\
    (forall e cs p, In e (uniform1 30) -> element_nodes 30 3 e = Some cs ->
       In p cs -> exists q, In q ns /\ morton 30 q = morton 30 p) /\
    (forallb (valid 30) (uniform1 30) = true ->
     forall e cs p, In e (uniform1 30) -> element_nodes 30 3 e = Some cs ->
       In p cs ->
       exists q, In q ns /\ (x q, y q, z q) = (x p, y p, z p)).
Proof.
  apply (createNodes_candidates_sorted_unique 30 ltac:(lia)
           (mkOctree (uniform1 30) None 2) 3).
  vm_compute; reflexivity.
Defined.




Lemma check_level_misses_bound_witness :
  check_level 30 31 = 31 /\ ~ (0 <= check_level 30 31 <= 30) /\
  TMROctree_uniform 30 31 = None /\
  (forall refine_level, 31 < refine_level -> check_level 30 refine_level = 29).
Proof.
  exact (check_level_misses_bound 30 ltac:(lia)).
Defined.

(** ** Sanity checks of the model *)

Example TMROctree_uniform_level1 :
  option_map (fun t => map key (elements t)) (TMROctree_uniform 30 1)
  = Some (map key (uniform1 30)).
Proof. vm_compute. reflexivity. Qed.

Example createNodes_uniform1_counts :
  option_map (fun t => option_map (@length TMROctant) (nodes t))
    (createNodes 30 (mkOctree (uniform1 30) None 2) 2)
  = Some (Some 27%nat) /\
  option_map (fun t => option_map (@length TMROctant) (nodes t))
    (createNodes 30 (mkOctree (uniform1 30) None 2) 3)
  = Some (Some 125%nat).
Proof. vm_compute. split; reflexivity. Qed.

(** The root followed by its eight children is sorted and holds complete
    families only; refining every element and coarsening drops the root. *)
Example coarsen_refine_on_nested_full :
  sorted 30 (nested_full 30) = true /\
  family_closed 30 (nested_full 30) = true /\
  map key (elements (coarsen 30
             (refine 30 (mkOctree (nested_full 30) None 2)
                     [1; 1; 1; 1; 1; 1; 1; 1; 1] 0 30)))
  = map key (uniform1 30).
Proof. vm_compute. repeat split; reflexivity. Qed.

(** ** Instances of the further properties, at [TMR_MAX_LEVEL = 30] *)

Lemma findEnclosing_in_bounds_witness :
  findEnclosing 30 (uniform1 30) root <> OutOfBounds 0.
Proof.
  apply (findEnclosing_in_bounds 30 (uniform1 30) root 0); simpl; lia.
Defined.

Lemma findEnclosing_terminates_witness :
  findEnclosing 30 (pair 30) root <> Diverged /\
  (forall i, findEnclosing 30 (pair 30) root = OutOfBounds i ->
             length (pair 30) = 2%nat).
Proof.
  apply (findEnclosing_terminates 30 (pair 30) root). discriminate.
Defined.

Lemma findEnclosing_decides_enclosure_witness :
  ((exists e, In e (uniform1 30) /\ encloses 30 e (level2_of_1 30 3) = true)
   <-> exists i, findEnclosing 30 (uniform1 30) (level2_of_1 30 3) = Found i) /\
  ((forall e, In e (uniform1 30) -> encloses 30 e (level2_of_1 30 3) = false) ->
   findEnclosing 30 (uniform1 30) (level2_of_1 30 3) = Null) /\
  (forall (i j : nat) (ei ej : TMROctant),
     nth_error (uniform1 30) i = Some ei ->
     nth_error (uniform1 30) j = Some ej ->
     encloses 30 ei (level2_of_1 30 3) = true ->
     encloses 30 ej (level2_of_1 30 3) = true -> i = j).
Proof.
  apply (findEnclosing_decides_enclosure 30 ltac:(lia) (uniform1 30)
           (level2_of_1 30 3)).
  - vm_compute; reflexivity.
  - vm_compute; reflexivity.
  - vm_compute; reflexivity.
  - simpl; lia.
  - simpl; lia.
  - simpl; lia.
Defined.

Lemma findEnclosingRange_within_array_witness :
  0 <= 0 < Z.of_nat (length (uniform1 30)) /\
  0 < 8 <= Z.of_nat (length (uniform1 30)).
Proof.
  apply (findEnclosingRange_within_array 30 (uniform1 30) root 0 8).
  - apply uniform1_tagged.
  - vm_compute; reflexivity.
Defined.

Lemma findEnclosingRange_of_enclosed_witness :
  findEnclosingRange 30 (uniform1 30) (level2_of_1 30 3)
  = Some (Z.of_nat 1, Z.of_nat 1 + 1).
Proof.
  apply (findEnclosingRange_of_enclosed 30 ltac:(lia) (uniform1 30)
           (level2_of_1 30 3) 1 (level1 30 1)).
  - vm_compute; reflexivity.
  - vm_compute; reflexivity.
  - vm_compute; reflexivity.
  - apply uniform1_tagged.
  - simpl; lia.
  - vm_compute; reflexivity.
  - vm_compute; reflexivity.
Defined.

Lemma refine_family_closed_witness :
  family_closed 30
    (elements (refine 30 (mkOctree (lone 30) None 2) [1] 0 30)) = true.
Proof.
  apply (refine_family_closed 30 ltac:(lia)).
Defined.

Lemma refine_levels_in_window_witness :
  forallb (fun o => (refine_min_level 30 1 2 <=? level o)
                    && (level o <=? refine_max_level 30 2))
    (elements (refine 30 (mkOctree (uniform1 30) None 2)
                      [1; 0; 0; 0; 0; 0; 0; -1] 1 2)) = true.
Proof.
  apply (refine_levels_in_window 30 (mkOctree (uniform1 30) None 2)
           [1; 0; 0; 0; 0; 0; 0; -1] 1 2).
  vm_compute; reflexivity.
Defined.

Lemma refine_keeps_valid_witness :
  forallb (valid 30)
    (elements (refine 30 (mkOctree (uniform1 30) None 2)
                      [1; 0; 0; 0; 0; 0; 0; -1] 0 30)) = true.
Proof.
  apply (refine_keeps_valid 30 ltac:(lia)).
  - vm_compute; reflexivity.
  - lia.
Defined.

Lemma refine_zero_retains_witness :
  exists c,
    In c (elements (refine 30 (mkOctree (uniform1 30) None 2)
                           [1; 0; 0; 0; 0; 0; 0; -1] 0 30)) /\
    key c = key (level1 30 1).
Proof.
  apply (refine_zero_retains 30 ltac:(lia) (mkOctree (uniform1 30) None 2)
           [1; 0; 0; 0; 0; 0; 0; -1] 0 30 1 (level1 30 1)).
  - vm_compute; reflexivity.
  - lia.
  - reflexivity.
  - reflexivity.
Defined.

Lemma refine_positive_adds_children_witness :
  exists c,
    In c (elements (refine 30 (mkOctree (uniform1 30) None 2)
                           [1; 0; 0; 0; 0; 0; 0; -1] 0 30)) /\
    key c = key (getSibling 30 5 (set_level (level1 30 0) 2)).
Proof.
  apply (refine_positive_adds_children 30 ltac:(lia)
           (mkOctree (uniform1 30) None 2)
           [1; 0; 0; 0; 0; 0; 0; -1] 0 30 0 (level1 30 0)).
  - vm_compute; reflexivity.
  - reflexivity.
  - simpl; lia.
  - vm_compute; reflexivity.
  - unfold children. cbn [map]. do 5 right. left. reflexivity.
Defined.

Lemma refine_negative_adds_parent_witness :
  exists c,
    In c (elements (refine 30 (mkOctree (uniform1 30) None 2)
                           [1; 0; 0; 0; 0; 0; 0; -1] 0 30)) /\
    level c = level (level1 30 7) - 1 /\
    encloses 30 c (level1 30 7) = true.
Proof.
  apply (refine_negative_adds_parent 30 ltac:(lia)
           (mkOctree (uniform1 30) None 2)
           [1; 0; 0; 0; 0; 0; 0; -1] 0 30 7 (level1 30 7)).
  - vm_compute; reflexivity.
  - lia.
  - reflexivity.
  - simpl; lia.
  - vm_compute; reflexivity.
Defined.

Lemma refine_keeps_cover_witness :
  covers 30 (elements (refine 30 (mkOctree (uniform1 30) None 2)
                              [1; 0; 0; 0; 0; 0; 0; -1] 0 30)).
Proof.
  apply (refine_keeps_cover 30 ltac:(lia)).
  - vm_compute; reflexivity.
  - lia.
  - apply uniform1_covers.
Defined.

Lemma refine_zero_identity_witness :
  map key (elements (refine 30 (mkOctree (uniform1 30) None 2)
                            [0; 0; 0; 0; 0; 0; 0; 0] 0 30))
  = map key (uniform1 30).
Proof.
  apply (refine_zero_identity 30 ltac:(lia) (mkOctree (uniform1 30) None 2)
           [0; 0; 0; 0; 0; 0; 0; 0] 0 30).
  - vm_compute; reflexivity.
  - vm_compute; reflexivity.
  - vm_compute; reflexivity.
  - lia.
  - reflexivity.
Defined.

Lemma coarsen_short_array_witness :
  elements (coarsen 30 (mkOctree (pair 30) None 2)) = pair 30.
Proof.
  apply (coarsen_short_array 30 (mkOctree (pair 30) None 2)).
  - vm_compute; reflexivity.
  - simpl; lia.
Defined.

Lemma coarsen_keeps_valid_witness :
  forallb (valid 30) (elements (coarsen 30 (mkOctree (gappy 30) None 2)))
  = true.
Proof.
  apply (coarsen_keeps_valid 30 ltac:(lia)).
  vm_compute; reflexivity.
Defined.

Lemma coarsen_keeps_cover_witness :
  covers 30 (elements (coarsen 30 (mkOctree (uniform1 30) None 2))).
Proof.
  apply (coarsen_keeps_cover 30 ltac:(lia)).
  - vm_compute; reflexivity.
  - vm_compute; reflexivity.
  - apply uniform1_covers.
Defined.

Lemma TMROctree_uniform_tree_witness :
  exists t, TMROctree_uniform 30 1 = Some t /\
    forallb (fun e => valid 30 e && (level e =? Z.max 0 1)) (elements t)
    = true /\
    sorted 30 (elements t) = true /\
    covers 30 (elements t) /\
    Z.of_nat (length (elements t)) = 8 ^ Z.max 0 1.
Proof.
  apply (TMROctree_uniform_tree 30 ltac:(lia) 1).
  - lia.
  - vm_compute; reflexivity.
Defined.

Lemma TMROctree_random_tree_witness :
  forallb (fun e => valid 30 e && (1 <=? level e) && (level e <=? 3))
    (elements (TMROctree_random 30 (fun n => Z.of_nat (7 * n + 3)) 5 1 3))
  = true /\
  sorted 30 (elements (TMROctree_random 30 (fun n => Z.of_nat (7 * n + 3))
                                        5 1 3)) = true /\
  Z.of_nat (length (elements
              (TMROctree_random 30 (fun n => Z.of_nat (7 * n + 3)) 5 1 3)))
  <= 5.
Proof.
  apply (TMROctree_random_tree 30 (fun n => Z.of_nat (7 * n + 3)) 5 1 3);
    intros; lia.
Defined.

Lemma element_node_indices_of_createNodes_witness :
  exists tree' ns idx,
    createNodes 30 (mkOctree (uniform1 30) None 2) 2 = Some tree' /\
    nodes tree' = Some ns /\
    element_node_indices 30 ns (level1 30 3) = Some idx /\
    forall ii jj kk, In ii [0; 1] -> In jj [0; 1] -> In kk [0; 1] ->
      exists i t,
        nth_error idx (Z.to_nat (ii + 2 * jj + 4 * kk)) = Some i /\
        1 <= i <= Z.of_nat (length ns) /\
        nth_error ns (Z.to_nat (i - 1)) = Some t /\
        x t = x (level1 30 3) + ii * edge 30 (level (level1 30 3)) /\
        y t = y (level1 30 3) + jj * edge 30 (level (level1 30 3)) /\
        z t = z (level1 30 3) + kk * edge 30 (level (level1 30 3)).
Proof.
  apply (element_node_indices_of_createNodes 30 ltac:(lia)
           (mkOctree (uniform1 30) None 2) 2 (level1 30 3)).
  - vm_compute; reflexivity.
  - lia.
  - unfold uniform1. cbn [elements]. apply in_map. simpl; tauto.
Defined.

Lemma interp_weights_fit_buffer_witness :
  Z.of_nat (length [mkIndexWeight QArith_base.Q 0 (QArith_base.Qmake 1 2);
                    mkIndexWeight QArith_base.Q 5 (QArith_base.Qmake 1 4);
                    mkIndexWeight QArith_base.Q 6 (QArith_base.Qmake 1 4)])
  <= 2 * 2 * 2 * (2 * 2).
Proof.
  assert (R : forall node lo hi : Z,
            read [0; 2] node = Some lo -> read [0; 2] (node + 1) = Some hi ->
            hi - lo <= 2 * 2).
  { intros node lo hi Hlo Hhi. unfold read in Hlo, Hhi.
    cbn [length] in Hlo, Hhi.
    destruct (Z.leb_spec 0 node); [|discriminate].
    destruct (Z.ltb_spec node (Z.of_nat 2)); [|discriminate].
    assert (E : node = 0 \/ node = 1) by lia.
    destruct E as [-> | ->]; cbn in Hlo, Hhi; [|discriminate].
    injection Hlo as <-. injection Hhi as <-. lia. }
  apply (interp_weights_fit_buffer 30 QArith_base.Q QArith_base.Qmult
           (QArith_base.Qmake 1 1) (QArith_base.Qmake 1 2)
           (QArith_base.Qmake 1 4) (QArith_base.Qmake 1 8) [0; 2] [5; 6]
           [QArith_base.Qmake 1 2; QArith_base.Qmake 1 2] 2 ltac:(lia) R
           (sample_coarse_nodes 30) (sample_fine_node 30)).
  reflexivity.
Defined.
